(** * Connect Four: the game classes of connect4.js and of its Player variant

    Both source files define a class [Game] whose fields are mutated by
    event handlers.  The embedding is explicit state passing: a record holds
    the fields of [this] together with the part of the document the game
    owns (the table built by [makeHtmlBoard]), and every method is a
    function on that record.  JavaScript arrays, [undefined], truthiness,
    strict equality and the [TypeError] raised by a property access on
    [undefined] or [null] are written out. *)

From stdpp Require Import gmap strings list fin_maps list_numbers pretty sorting.

Local Open Scope Z_scope.

(** ** JavaScript values and arrays *)

Module JS.

(** An instance of [class Player]: [oid] is the identity of the object
    (what [===] compares), [color] its only field. *)
Record Player := mkPlayer { oid : nat; color : string }.

(** The values a board cell or a player slot can hold. *)
Inductive value :=
  | VUndef
  | VNum (n : Z)
  | VObj (p : Player).

#[global] Instance Player_eq_dec : EqDecision Player.
Proof. solve_decision. Defined.

#[global] Instance value_eq_dec : EqDecision value.
Proof. solve_decision. Defined.

(** ToBoolean: [undefined] and [0] are falsy, objects are truthy. *)
Definition truthy (v : value) : bool :=
  match v with
  | VUndef => false
  | VNum n => negb (n =? 0)
  | VObj _ => true
  end.

(** [a === b]: numbers by value, objects by identity. *)
Definition strict_eq (a b : value) : bool :=
  match a, b with
  | VUndef, VUndef => true
  | VNum m, VNum n => m =? n
  | VObj p, VObj q => bool_decide (oid p = oid q)
  | _, _ => false
  end.

(** A JavaScript array: its integer-keyed properties and its [length].
    A key below [0] is an ordinary property, not an element. *)
Record jsarray := mkArray { props : gmap Z value; len : Z }.

#[global] Instance jsarray_eq_dec : EqDecision jsarray.
Proof. solve_decision. Defined.

(** [a[k]]: a missing property reads as [undefined]. *)
Definition aget (a : jsarray) (k : Z) : value :=
  default VUndef (props a !! k).

(** [a[k] = v]: writing at an array index at or past [length] extends the
    array; any other integer key only adds a property. *)
Definition aset (a : jsarray) (k : Z) (v : value) : jsarray :=
  {| props := <[k := v]> (props a);
     len := if bool_decide (0 ≤ k < 2 ^ 32 - 1) then Z.max (len a) (k + 1)
            else len a |}.

(** [Array.from({ length: w })]: [w] elements, each [undefined]. *)
Definition arrayFrom (w : Z) : jsarray :=
  {| props := list_to_map ((λ k, (k, VUndef)) <$> seqZ 0 w);
     len := Z.max 0 w |}.

(** [a.every(f)]: the callback runs on the elements that exist, in index
    order; holes are skipped. *)
Definition every (f : value → bool) (a : jsarray) : bool :=
  forallb (λ k, match props a !! k with
                | Some v => f v
                | None => true
                end) (seqZ 0 (len a)).

(** Completion of an expression that may raise [TypeError]. *)
Inductive completion (A : Type) :=
  | Normal (a : A)
  | TypeError.
Arguments Normal {A} a.
Arguments TypeError {A}.

#[global] Instance completion_ret : MRet completion := λ A a, Normal a.
#[global] Instance completion_bind : MBind completion := λ A B f m,
  match m with
  | Normal a => f a
  | TypeError => TypeError
  end.

(** A loop that returns [true] from inside its body at the first element
    whose test is truthy, and falls through otherwise. *)
Fixpoint anyM {A} (f : A → completion bool) (l : list A) : completion bool :=
  match l with
  | [] => Normal false
  | a :: l' => b ← f a; if b : bool then Normal true else anyM f l'
  end.

(** The same loop, recording the element at which it returned. *)
Fixpoint firstM {A} (f : A → completion bool) (l : list A)
  : completion (option A) :=
  match l with
  | [] => Normal None
  | a :: l' => b ← f a; if b : bool then Normal (Some a) else firstM f l'
  end.

End JS.

Import JS.

(** ** Methods that are the same text in both files

    [makeBoard], [findSpotForCol], [checkForWin], the tie test of
    [handleClick] and the table of [makeHtmlBoard] are identical in
    connect4.js and in the Player variant; they are embedded once, over the
    fields of [this] they read. *)

Module Shared.

(** [this.board]: an array of rows that is only ever pushed to. *)
Abbreviation board_t := (list jsarray).

(** [this.board[y]]: [None] stands for [undefined]. *)
Definition rowAt (board : board_t) (y : Z) : option jsarray :=
  if bool_decide (0 ≤ y) then board !! Z.to_nat y else None.

(** What reading [board[y][x]] gives where row [y] exists. *)
Definition cell (board : board_t) (y x : Z) : value :=
  match rowAt board y with
  | Some r => aget r x
  | None => VUndef
  end.

(** [makeBoard]: push [height] fresh rows. *)
Definition makeBoard (height width : Z) (board : board_t) : board_t :=
  foldl (λ b _, b ++ [arrayFrom width]) board (seqZ 0 height).

(** [findSpotForCol(x)]: scan rows [height-1] down to [0]; [None] is
    [null]. *)
Definition findSpotForCol (height : Z) (board : board_t) (x : Z)
  : completion (option Z) :=
  firstM (λ y, match rowAt board y with
               | Some r => Normal (negb (truthy (aget r x)))
               | None => TypeError
               end) (reverse (seqZ 0 height)).

(** [this.board[y][x] = v]. *)
Definition setCell (board : board_t) (y x : Z) (v : value)
  : completion board_t :=
  match rowAt board y with
  | Some r => Normal (<[Z.to_nat y := aset r x v]> board)
  | None => TypeError
  end.

(** [_win(cells)], with [me] the value the cells are compared to
    ([this.currPlayer], or [this.players[this.currPlayer]]). [&&] guards the
    board access, and [every] stops at the first cell that fails. *)
Fixpoint _win (height width : Z) (board : board_t) (me : value)
    (cells : list (Z * Z)) : completion bool :=
  match cells with
  | [] => Normal true
  | (y, x) :: cells' =>
      if (0 <=? y) && (y <? height) && (0 <=? x) && (x <? width) then
        match rowAt board y with
        | Some r =>
            if strict_eq (aget r x) me then _win height width board me cells'
            else Normal false
        | None => TypeError
        end
      else Normal false
  end.

(** The four ways to win, in the order of the [||] chain. *)
Inductive dir := Horiz | Vert | DiagDR | DiagDL.

#[global] Instance dir_eq_dec : EqDecision dir.
Proof. solve_decision. Defined.

Definition dirs : list dir := [Horiz; Vert; DiagDR; DiagDL].

(** The check list of four cells starting at [(y, x)]. *)
Definition run (y x : Z) (d : dir) : list (Z * Z) :=
  match d with
  | Horiz => [(y, x); (y, x + 1); (y, x + 2); (y, x + 3)]
  | Vert => [(y, x); (y + 1, x); (y + 2, x); (y + 3, x)]
  | DiagDR => [(y, x); (y + 1, x + 1); (y + 2, x + 2); (y + 3, x + 3)]
  | DiagDL => [(y, x); (y + 1, x - 1); (y + 2, x - 2); (y + 3, x - 3)]
  end.

(** The condition of the [if] in the inner loop of [checkForWin]. *)
Definition winHere (height width : Z) (board : board_t) (me : value)
    (y x : Z) : completion bool :=
  anyM (λ d, _win height width board me (run y x d)) dirs.

(** [checkForWin()]: [false] stands for the [undefined] the method returns
    when it falls off the end of both loops. *)
Definition checkForWin (height width : Z) (board : board_t) (me : value)
  : completion bool :=
  anyM (λ y, anyM (λ x, winHere height width board me y x) (seqZ 0 width))
       (seqZ 0 height).

(** Every start of a run in the order the two loops and the [||] chain
    reach it. *)
Definition scanOrder (height width : Z) : list (Z * Z * dir) :=
  y ← seqZ 0 height; x ← seqZ 0 width; d ← dirs; [(y, x, d)].

(** The run at which [checkForWin] executes [return true]. *)
Definition firstWin (height width : Z) (board : board_t) (me : value)
  : completion (option (Z * Z * dir)) :=
  firstM (λ '(y, x, d), _win height width board me (run y x d))
         (scanOrder height width).

(** [this.board.every(row => row.every(cell => cell))]. *)
Definition boardFull (board : board_t) : bool :=
  forallb (every truthy) board.

(** The pieces of the document the game owns: the cells of the table, by
    the pair [(y, x)] their id [`${y}-${x}`] spells, each with the styles of
    the pieces appended to it. *)
Abbreviation html_t := (gmap (Z * Z) (list string)).

(** The table cells [makeHtmlBoard] appends; [getElementById] finds the
    first element with an id, so cells already there take precedence. *)
Definition makeHtmlBoard (height width : Z) (html : html_t) : html_t :=
  html ∪ list_to_map
    (y ← seqZ 0 height; x ← seqZ 0 width; [((y, x), ([] : list string))]).

(** [placeInTable(y, x)] for a piece of the given style: [spot] is [null]
    when no cell has the id, and [spot.append] then raises. *)
Definition placeInTable (html : html_t) (y x : Z) (style : string)
  : completion html_t :=
  match html !! (y, x) with
  | Some pieces => Normal (<[(y, x) := pieces ++ [style]]> html)
  | None => TypeError
  end.

End Shared.

Import Shared.

(** What a handler leaves behind: the state after it ran (mutations made
    before an exception persist), the messages it passed to [alert], and
    whether it ended by raising [TypeError]. *)
Record outcome (G : Type) := mkOutcome {
  final : G;
  alerts : list string;
  threw : bool
}.
Arguments mkOutcome {G} final alerts threw.
Arguments final {G} o.
Arguments alerts {G} o.
Arguments threw {G} o.

(** ** connect4.js: players are the numbers 1 and 2 *)

Module Numeric.

Record Game := mkGame {
  height : Z;
  width : Z;
  currPlayer : Z;
  board : board_t;
  gameOver : bool;
  html : html_t
}.

#[global] Instance NumericGame_eq_dec : EqDecision Game.
Proof. solve_decision. Defined.

Definition set_board (g : Game) (b : board_t) : Game :=
  mkGame (height g) (width g) (currPlayer g) b (gameOver g) (html g).
Definition set_html (g : Game) (h : html_t) : Game :=
  mkGame (height g) (width g) (currPlayer g) (board g) (gameOver g) h.
Definition set_currPlayer (g : Game) (p : Z) : Game :=
  mkGame (height g) (width g) p (board g) (gameOver g) (html g).
Definition set_gameOver (g : Game) (b : bool) : Game :=
  mkGame (height g) (width g) (currPlayer g) (board g) b (html g).

(** [new Game(height, width)], on a page whose [#board] table is empty. *)
Definition newGame (h w : Z) : Game := mkGame h w 1 [] false ∅.

(** [resetGame()]: the current player is left as it is. *)
Definition resetGame (g : Game) : Game :=
  let g := set_html g ∅ in
  let g := set_board g [] in
  if gameOver g then set_gameOver g false else g.

(** The listener [startGame] puts on the Start button. *)
Definition startClick (g : Game) : Game :=
  let g := if bool_decide (length (board g) ≠ 0%nat) then resetGame g else g in
  let g := set_board g (makeBoard (height g) (width g) (board g)) in
  set_html g (makeHtmlBoard (height g) (width g) (html g)).

Definition findSpotForCol (g : Game) (x : Z) : completion (option Z) :=
  Shared.findSpotForCol (height g) (board g) x.

(** [placeInTable(y, x)]: the piece gets the class [`p${this.currPlayer}`]. *)
Definition placeInTable (g : Game) (y x : Z) : completion html_t :=
  Shared.placeInTable (html g) y x ("p" +:+ pretty (currPlayer g)).

Definition _win (g : Game) (cells : list (Z * Z)) : completion bool :=
  Shared._win (height g) (width g) (board g) (VNum (currPlayer g)) cells.

Definition checkForWin (g : Game) : completion bool :=
  Shared.checkForWin (height g) (width g) (board g) (VNum (currPlayer g)).

Definition firstWin (g : Game) : completion (option (Z * Z * dir)) :=
  Shared.firstWin (height g) (width g) (board g) (VNum (currPlayer g)).

(** [endGame(msg)]. *)
Definition endGame (g : Game) (msg : string) : outcome Game :=
  mkOutcome (set_gameOver g true) [msg] false.

(** [handleClick(evt)], with [x] the number [+evt.target.id]. *)
Definition handleClick (g : Game) (x : Z) : outcome Game :=
  if negb (gameOver g) then
    match findSpotForCol g x with
    | TypeError => mkOutcome g [] true
    | Normal None => mkOutcome g [] false
    | Normal (Some y) =>
        match setCell (board g) y x (VNum (currPlayer g)) with
        | TypeError => mkOutcome g [] true
        | Normal b =>
            let g := set_board g b in
            match placeInTable g y x with
            | TypeError => mkOutcome g [] true
            | Normal h =>
                let g := set_html g h in
                match checkForWin g with
                | TypeError => mkOutcome g [] true
                | Normal true =>
                    endGame g ("Player " +:+ pretty (currPlayer g) +:+ " won!")
                | Normal false =>
                    if boardFull (board g) then endGame g "Tie!"
                    else mkOutcome
                           (set_currPlayer g
                              (if currPlayer g =? 1 then 2 else 1)) [] false
                end
            end
        end
    end
  else mkOutcome g [] false.

(** The state after a sequence of clicks on column tops. *)
Definition play (g : Game) (xs : list Z) : Game :=
  foldl (λ g x, final (handleClick g x)) g xs.

End Numeric.

(** ** The Player variant: players are objects carrying a color *)

Module Colored.

Record Game := mkGame {
  height : Z;
  width : Z;
  players : list Player;
  currPlayer : Z;
  board : board_t;
  gameOver : bool;
  html : html_t;
  nextOid : nat  (* the identity the next [new Player] gets *)
}.

#[global] Instance ColoredGame_eq_dec : EqDecision Game.
Proof. solve_decision. Defined.

Definition set_board (g : Game) (b : board_t) : Game :=
  mkGame (height g) (width g) (players g) (currPlayer g) b (gameOver g)
         (html g) (nextOid g).
Definition set_html (g : Game) (h : html_t) : Game :=
  mkGame (height g) (width g) (players g) (currPlayer g) (board g)
         (gameOver g) h (nextOid g).
Definition set_currPlayer (g : Game) (p : Z) : Game :=
  mkGame (height g) (width g) (players g) p (board g) (gameOver g)
         (html g) (nextOid g).
Definition set_gameOver (g : Game) (b : bool) : Game :=
  mkGame (height g) (width g) (players g) (currPlayer g) (board g) b
         (html g) (nextOid g).
Definition set_players (g : Game) (ps : list Player) (n : nat) : Game :=
  mkGame (height g) (width g) ps (currPlayer g) (board g) (gameOver g)
         (html g) n.

(** [new Game(height, width)], on a page whose [#board] table is empty. *)
Definition newGame (h w : Z) : Game := mkGame h w [] 0 [] false ∅ 0.

(** [this.players[this.currPlayer]]. *)
Definition activePlayer (g : Game) : value :=
  if bool_decide (0 ≤ currPlayer g) then
    match players g !! Z.to_nat (currPlayer g) with
    | Some p => VObj p
    | None => VUndef
    end
  else VUndef.

(** [resetGame()]. *)
Definition resetGame (g : Game) : Game :=
  let g := set_html g ∅ in
  let g := set_board g [] in
  let g := set_players g [] (nextOid g) in
  let g := set_currPlayer g 0 in
  if gameOver g then set_gameOver g false else g.

(** [setPlayers()], with the values of the two color inputs. *)
Definition setPlayers (g : Game) (c1 c2 : string) : Game :=
  let p1 := mkPlayer (nextOid g) c1 in
  let p2 := mkPlayer (S (nextOid g)) c2 in
  set_players g (players g ++ [p1; p2]) (S (S (nextOid g))).

(** The listener [startGame] puts on the Start button. *)
Definition startClick (g : Game) (c1 c2 : string) : Game :=
  let g := if bool_decide (length (board g) ≠ 0%nat) then resetGame g else g in
  let g := setPlayers g c1 c2 in
  let g := set_board g (makeBoard (height g) (width g) (board g)) in
  set_html g (makeHtmlBoard (height g) (width g) (html g)).

Definition findSpotForCol (g : Game) (x : Z) : completion (option Z) :=
  Shared.findSpotForCol (height g) (board g) x.

(** [placeInTable(y, x)]: reading [.color] of a missing player raises
    before the table is looked at. *)
Definition placeInTable (g : Game) (y x : Z) : completion html_t :=
  match activePlayer g with
  | VObj p => Shared.placeInTable (html g) y x (color p)
  | _ => TypeError
  end.

Definition _win (g : Game) (cells : list (Z * Z)) : completion bool :=
  Shared._win (height g) (width g) (board g) (activePlayer g) cells.

Definition checkForWin (g : Game) : completion bool :=
  Shared.checkForWin (height g) (width g) (board g) (activePlayer g).

(** [endGame(msg)]. *)
Definition endGame (g : Game) (msg : string) : outcome Game :=
  mkOutcome (set_gameOver g true) [msg] false.

(** [handleClick(evt)], with [x] the number [+evt.target.id]. *)
Definition handleClick (g : Game) (x : Z) : outcome Game :=
  if negb (gameOver g) then
    match findSpotForCol g x with
    | TypeError => mkOutcome g [] true
    | Normal None => mkOutcome g [] false
    | Normal (Some y) =>
        match setCell (board g) y x (activePlayer g) with
        | TypeError => mkOutcome g [] true
        | Normal b =>
            let g := set_board g b in
            match placeInTable g y x with
            | TypeError => mkOutcome g [] true
            | Normal h =>
                let g := set_html g h in
                match checkForWin g with
                | TypeError => mkOutcome g [] true
                | Normal true =>
                    endGame g
                      ("Player " +:+ pretty (currPlayer g + 1) +:+ " won!")
                | Normal false =>
                    if boardFull (board g) then endGame g "Tie!"
                    else mkOutcome
                           (set_currPlayer g
                              (if currPlayer g =? 0 then 1 else 0)) [] false
                end
            end
        end
    end
  else mkOutcome g [] false.

(** The state after a sequence of clicks on column tops. *)
Definition play (g : Game) (xs : list Z) : Game :=
  foldl (λ g x, final (handleClick g x)) g xs.

End Colored.

(** ** Vocabulary of the properties *)

(** [(y, x)] is a cell of the [height] by [width] grid. *)
Definition in_grid (height width y x : Z) : Prop :=
  0 ≤ y < height ∧ 0 ≤ x < width.

(** A cell is Empty when what it reads as is falsy. *)
Definition empty (b : board_t) (y x : Z) : Prop :=
  truthy (cell b y x) = false.

(** The board has exactly one row per row index below [height]. *)
Definition rows_ok (height : Z) (b : board_t) : Prop :=
  Z.of_nat (length b) = Z.max 0 height.

(** The table has exactly the cells of the grid. *)
Definition html_ok (height width : Z) (h : html_t) : Prop :=
  ∀ y x, is_Some (h !! (y, x)) ↔ in_grid height width y x.

(** The step [(dy, dx)] of a direction. *)
Definition delta (d : dir) : Z * Z :=
  match d with
  | Horiz => (0, 1)
  | Vert => (1, 0)
  | DiagDR => (1, 1)
  | DiagDL => (1, -1)
  end.

(** The run of four cells from [(y, x)] in direction [d] stays on the grid
    and every cell of it is strictly equal to [me]. *)
Definition winning (height width : Z) (b : board_t) (me : value)
    (y x : Z) (d : dir) : Prop :=
  ∀ i, 0 ≤ i ≤ 3 →
    in_grid height width (y + i * (delta d).1) (x + i * (delta d).2) ∧
    strict_eq (cell b (y + i * (delta d).1) (x + i * (delta d).2)) me = true.

(** Position of a direction in the [||] chain. *)
Definition dir_index (d : dir) : Z :=
  match d with Horiz => 0 | Vert => 1 | DiagDR => 2 | DiagDL => 3 end.

(** Row-major order on cells, then the order of the directions. *)
Definition before (a b : Z * Z * dir) : Prop :=
  let '(y1, x1, d1) := a in
  let '(y2, x2, d2) := b in
  y1 < y2 ∨ (y1 = y2 ∧ (x1 < x2 ∨ (x1 = x2 ∧ dir_index d1 < dir_index d2))).

(** No cell of the grid is Empty. *)
Definition full (height width : Z) (b : board_t) : Prop :=
  ∀ y x, in_grid height width y x → truthy (cell b y x) = true.

(** A row as the game keeps it: the [width] elements of the grid are there,
    each [undefined] or a player, and any other property is a player. *)
Definition row_inv (width : Z) (P : value → Prop) (r : jsarray) : Prop :=
  width ≤ len r ∧
  (∀ k, 0 ≤ k < width →
     ∃ v, props r !! k = Some v ∧ (v = VUndef ∨ P v)) ∧
  (∀ k v, props r !! k = Some v → ¬ (0 ≤ k < width) → P v).

(** The column a column of the grid is reflected to; keys off the grid stay. *)
Definition flipKey (width k : Z) : Z :=
  if bool_decide (0 ≤ k < width) then width - 1 - k else k.

(** The board with its columns mirrored: cell [(y, x)] goes to
    [(y, width - 1 - x)]. *)
Definition mirrorRow (width : Z) (r : jsarray) : jsarray :=
  {| props := kmap (flipKey width) (props r); len := len r |}.

Definition mirrorBoard (width : Z) (b : board_t) : board_t :=
  mirrorRow width <$> b.

Module NumericSpec.
Import Numeric.

(** A cell value that is one of the two players. *)
Definition isPlayer (v : value) : Prop := v = VNum 1 ∨ v = VNum 2.

(** The shape every method relies on. *)
Definition wf (g : Game) : Prop :=
  rows_ok (height g) (board g) ∧ html_ok (height g) (width g) (html g).

(** The invariant of the game object between two events. *)
Definition inv (g : Game) : Prop :=
  wf g ∧
  (currPlayer g = 1 ∨ currPlayer g = 2) ∧
  Forall (row_inv (width g) isPlayer) (board g).

(** The game after [this.board[y][x] = this.currPlayer]. *)
Definition placed (g : Game) (y x : Z) : Game :=
  match setCell (board g) y x (VNum (currPlayer g)) with
  | Normal b => set_board g b
  | TypeError => g
  end.

(** The game after [this.placeInTable(y, x)]. *)
Definition shown (g : Game) (y x : Z) : Game :=
  match placeInTable g y x with
  | Normal h => set_html g h
  | TypeError => g
  end.

(** Player [p] holds all four cells of the run from [(y, x)] in direction
    [d], and the run stays on the grid. *)
Definition run_held (h w : Z) (b : board_t) (p : Z) (y x : Z) (d : dir)
  : Prop :=
  ∀ i, 0 ≤ i ≤ 3 →
    in_grid h w (y + i * (delta d).1) (x + i * (delta d).2) ∧
    cell b (y + i * (delta d).1) (x + i * (delta d).2) = VNum p.

Definition has_run (h w : Z) (b : board_t) (p : Z) : Prop :=
  ∃ y x d, run_held h w b p y x d.

(** The other of the two players. *)
Definition other (p : Z) : Z := if p =? 1 then 2 else 1.

(** The states the page can be in when an event arrives: [handleClick] is
    only wired to the table by a click on Start. *)
Inductive reachable : Game → Prop :=
  | reach_start h w : reachable (startClick (newGame h w))
  | reach_restart g : reachable g → reachable (startClick g)
  | reach_click g x : reachable g → reachable (final (handleClick g x)).

(** The game with its board mirrored. *)
Definition mirror (g : Game) : Game :=
  set_board g (mirrorBoard (width g) (board g)).

(** What the specification asks of an out-of-range column: the call fails
    and the board, the active player and the status are as before. *)
Definition rejects_invalid (g : Game) (x : Z) : Prop :=
  threw (handleClick g x) = true ∧
  board (final (handleClick g x)) = board g ∧
  currPlayer (final (handleClick g x)) = currPlayer g ∧
  gameOver (final (handleClick g x)) = gameOver g.

(** What the specification asks of a reset. *)
Definition reset_ok (g g' : Game) : Prop :=
  (∀ y x, in_grid (height g') (width g') y x → cell (board g') y x = VUndef) ∧
  height g' = height g ∧ width g' = width g ∧
  currPlayer g' = 1 ∧ gameOver g' = false.

End NumericSpec.

Module ColoredSpec.
Import Colored.

(** The first two players are distinct objects. *)
Definition two_players (g : Game) (p0 p1 : Player) : Prop :=
  players g !! 0%nat = Some p0 ∧ players g !! 1%nat = Some p1 ∧
  oid p0 ≠ oid p1.

(** A cell value that is one of the two players. *)
Definition isPlayerObj (p0 p1 : Player) (v : value) : Prop :=
  v = VObj p0 ∨ v = VObj p1.

(** The shape every method relies on. *)
Definition wfC (g : Game) : Prop :=
  rows_ok (height g) (board g) ∧ html_ok (height g) (width g) (html g).

(** The invariant of the game object between two events. *)
Definition invC (g : Game) : Prop :=
  wfC g ∧
  (currPlayer g = 0 ∨ currPlayer g = 1) ∧
  ∃ p0 p1, two_players g p0 p1 ∧
           Forall (row_inv (width g) (isPlayerObj p0 p1)) (board g).

(** The game after [this.board[y][x] = this.players[this.currPlayer]]. *)
Definition placedC (g : Game) (y x : Z) : Game :=
  match setCell (board g) y x (activePlayer g) with
  | Normal b => set_board g b
  | TypeError => g
  end.

(** The game after [this.placeInTable(y, x)]. *)
Definition shownC (g : Game) (y x : Z) : Game :=
  match placeInTable g y x with
  | Normal h => set_html g h
  | TypeError => g
  end.

(** The states the page can be in when an event arrives. *)
Inductive reachableC : Game → Prop :=
  | reachC_start h w c1 c2 : reachableC (startClick (newGame h w) c1 c2)
  | reachC_restart g c1 c2 : reachableC g → reachableC (startClick g c1 c2)
  | reachC_click g x : reachableC g → reachableC (final (handleClick g x)).

(** What the specification asks of a reset; player 1 is [players[0]]. *)
Definition reset_okC (g g' : Game) : Prop :=
  (∀ y x, in_grid (height g') (width g') y x → cell (board g') y x = VUndef) ∧
  height g' = height g ∧ width g' = width g ∧
  currPlayer g' = 0 ∧ gameOver g' = false.

End ColoredSpec.

(** ** Correspondence between the two variants *)

Module Corr.

(** Player 1 is [players[0]], player 2 is [players[1]]. *)
Definition vcorr (p0 p1 : Player) (vn vc : value) : Prop :=
  (vn = VUndef ∧ vc = VUndef) ∨
  (vn = VNum 1 ∧ vc = VObj p0) ∨
  (vn = VNum 2 ∧ vc = VObj p1).

Definition row_corr (p0 p1 : Player) (rn rc : jsarray) : Prop :=
  len rn = len rc ∧
  ∀ k, option_Forall2 (vcorr p0 p1) (props rn !! k) (props rc !! k).

(** The tables have the same cells with as many pieces in each. *)
Definition html_corr (hn hc : html_t) : Prop :=
  ∀ k, option_Forall2 (λ a b : list string, length a = length b)
         (hn !! k) (hc !! k).

Definition corr (gn : Numeric.Game) (gc : Colored.Game) : Prop :=
  Numeric.height gn = Colored.height gc ∧
  Numeric.width gn = Colored.width gc ∧
  Numeric.gameOver gn = Colored.gameOver gc ∧
  Numeric.currPlayer gn = Colored.currPlayer gc + 1 ∧
  (Colored.currPlayer gc = 0 ∨ Colored.currPlayer gc = 1) ∧
  html_corr (Numeric.html gn) (Colored.html gc) ∧
  ∃ p0 p1, ColoredSpec.two_players gc p0 p1 ∧
           Forall2 (row_corr p0 p1) (Numeric.board gn) (Colored.board gc).

End Corr.

(** ** Vocabulary of the properties of whole games *)

(** No piece floats: below an occupied cell every cell of the same key is
    occupied. *)
Definition stacked (height : Z) (b : board_t) : Prop :=
  ∀ y y' x, 0 ≤ y → y < y' < height → ¬ empty b y x → ¬ empty b y' x.

(** Two boards show the same grid. *)
Definition same_grid (height width : Z) (b1 b2 : board_t) : Prop :=
  ∀ y x, in_grid height width y x → cell b1 y x = cell b2 y x.

Module NumericGame.
Import Numeric NumericSpec.

(** Row [y] is where a piece dropped at key [x] lands: the Empty cell of
    largest row index. *)
Definition lands (g : Game) (y x : Z) : Prop :=
  0 ≤ y < height g ∧ empty (board g) y x ∧
  ∀ y', y < y' < height g → ¬ empty (board g) y' x.

(** The state a click leaves, by the path [handleClick] takes. *)
Inductive click_result (g : Game) (x : Z) : Game → Prop :=
  | click_ignored :
      gameOver g = true ∨
      (∀ y, 0 ≤ y < height g → ¬ empty (board g) y x) →
      click_result g x g
  | click_off_grid y :
      gameOver g = false → lands g y x → ¬ (0 ≤ x < width g) →
      click_result g x (placed g y x)
  | click_won y :
      gameOver g = false → lands g y x → 0 ≤ x < width g →
      has_run (height g) (width g) (board (placed g y x)) (currPlayer g) →
      click_result g x (set_gameOver (shown (placed g y x) y x) true)
  | click_tied y :
      gameOver g = false → lands g y x → 0 ≤ x < width g →
      ¬ has_run (height g) (width g) (board (placed g y x)) (currPlayer g) →
      full (height g) (width g) (board (placed g y x)) →
      click_result g x (set_gameOver (shown (placed g y x) y x) true)
  | click_next y :
      gameOver g = false → lands g y x → 0 ≤ x < width g →
      ¬ has_run (height g) (width g) (board (placed g y x)) (currPlayer g) →
      ¬ full (height g) (width g) (board (placed g y x)) →
      click_result g x
        (set_currPlayer (shown (placed g y x) y x) (other (currPlayer g))).

(** The pieces [placeInTable] has put in the table cell of a board cell. *)
Definition pieceOf (v : value) : list string :=
  match v with
  | VNum p => ["p" +:+ pretty p]
  | _ => []
  end.

(** The table shows the board: each cell of the grid has the piece of the
    player that holds it, and none when it is Empty. *)
Definition table_shows (g : Game) : Prop :=
  ∀ y x, in_grid (height g) (width g) y x →
         html g !! (y, x) = Some (pieceOf (cell (board g) y x)).

(** The game a click on Start leaves when it builds a new board; the
    active player [p] is the one of the game before. *)
Definition freshState (h w p : Z) : Game :=
  mkGame h w p (makeBoard h w []) false (makeHtmlBoard h w ∅).

(** Only the active player of a finished game holds a run. *)
Definition runs_settled (g : Game) : Prop :=
  ∀ p, has_run (height g) (width g) (board g) p →
       gameOver g = true ∧ p = currPlayer g.

(** A game in progress on a board with cells has an Empty cell. *)
Definition has_room (g : Game) : Prop :=
  gameOver g = false → 0 < height g → 0 < width g →
  ∃ y x, in_grid (height g) (width g) y x ∧ empty (board g) y x.

(** A finished game was won by the active player or has a full board. *)
Definition over_for_cause (g : Game) : Prop :=
  gameOver g = true →
  has_run (height g) (width g) (board g) (currPlayer g) ∨
  (full (height g) (width g) (board g) ∧ 0 < height g ∧ 0 < width g).

(** Two games a player cannot tell apart: same dimensions, turn, status
    and table, and the same grid. *)
Definition same_play (g1 g2 : Game) : Prop :=
  height g1 = height g2 ∧ width g1 = width g2 ∧
  currPlayer g1 = currPlayer g2 ∧ gameOver g1 = gameOver g2 ∧
  html g1 = html g2 ∧
  same_grid (height g1) (width g1) (board g1) (board g2).

(** The clicks of a list that name a column of the grid. *)
Definition validClicks (w : Z) (xs : list Z) : list Z :=
  filter (λ x, 0 ≤ x < w) xs.

End NumericGame.

(** The cells of the grid, row by row. *)
Definition gridCells (height width : Z) : list (Z * Z) :=
  y ← seqZ 0 height; x ← seqZ 0 width; [(y, x)].

(** How many cells of the grid hold [v]. *)
Definition countCells (height width : Z) (b : board_t) (v : value) : nat :=
  length (filter (λ c, cell b c.1 c.2 = v) (gridCells height width)).

Module ColoredGame.
Import Colored ColoredSpec.

(** Row [y] is where a piece dropped at key [x] lands. *)
Definition landsC (g : Game) (y x : Z) : Prop :=
  0 ≤ y < height g ∧ empty (board g) y x ∧
  ∀ y', y < y' < height g → ¬ empty (board g) y' x.

(** The turn after [this.currPlayer === 0 ? 1 : 0]. *)
Definition flipC (p : Z) : Z := if p =? 0 then 1 else 0.

(** The game a click on Start leaves when it builds a new board: two new
    players, of identities [n] and [n + 1]. *)
Definition freshStateC (h w : Z) (n : nat) (c1 c2 : string) : Game :=
  mkGame h w [mkPlayer n c1; mkPlayer (S n) c2] 0 (makeBoard h w []) false
    (makeHtmlBoard h w ∅) (S (S n)).

(** The pieces [placeInTable] has put in the table cell of a board cell:
    one of the color of the player on it. *)
Definition pieceOfC (v : value) : list string :=
  match v with
  | VObj p => [color p]
  | _ => []
  end.

(** The table shows the board, in the colors of the players. *)
Definition table_showsC (g : Game) : Prop :=
  ∀ y x, in_grid (height g) (width g) y x →
         html g !! (y, x) = Some (pieceOfC (cell (board g) y x)).

(** The first player has as many pieces on the grid as the second when it
    is to move, and one more when the second is; in a finished game the
    turn is still that of the last mover. *)
Definition turn_counted (g : Game) : Prop :=
  ∃ p0 p1, two_players g p0 p1 ∧
    Z.of_nat (countCells (height g) (width g) (board g) (VObj p0)) =
    Z.of_nat (countCells (height g) (width g) (board g) (VObj p1)) +
    (if gameOver g then 1 - currPlayer g else currPlayer g).

End ColoredGame.

(** ** Games used as examples *)

(** The standard 6 by 7 game after a click on Start. *)
Definition freshGame : Numeric.Game :=
  Numeric.startClick (Numeric.newGame 6 7).

(** Player 1 has played column 0 once; player 2 is to move. *)
Definition afterOneMove : Numeric.Game := Numeric.play freshGame [0].

(** Player 1 has played column 0 four times and player 2 column 1 three
    times. *)
Definition wonGame : Numeric.Game :=
  Numeric.play freshGame [0; 1; 0; 1; 0; 1; 0].

(** Six clicks with column 7, the first column past the grid. *)
Definition overflowGame : Numeric.Game :=
  Numeric.play freshGame [7; 7; 7; 7; 7; 7].

(** A 2 by 2 board whose column 0 is full. *)
Definition fullColumn : Numeric.Game :=
  Numeric.play (Numeric.startClick (Numeric.newGame 2 2)) [0; 0].

(** The standard game of the Player variant after a click on Start, and
    after the seven clicks of [wonGame]. *)
Definition freshGameC : Colored.Game :=
  Colored.startClick (Colored.newGame 6 7) "red" "blue".

Definition wonGameC : Colored.Game :=
  Colored.play freshGameC [0; 1; 0; 1; 0; 1; 0].

(** ** Loops with early exit *)

Section Loops.
Context {A : Type}.
Implicit Types (f : A → completion bool) (l : list A).

Lemma anyM_app f l1 l2 :
  anyM f (l1 ++ l2) =
  b ← anyM f l1; if b : bool then Normal true else anyM f l2.
Proof.
  induction l1 as [|a l1 IH]; simpl; [done|].
  destruct (f a) as [[]|]; simpl; auto.
Qed.

Lemma anyM_bind {B} (g : B → list A) f (l : list B) :
  anyM f (l ≫= g) = anyM (λ b, anyM f (g b)) l.
Proof.
  induction l as [|b l IH]; [done|].
  rewrite bind_cons, anyM_app, IH. simpl.
  destruct (anyM f (g b)) as [[]|]; done.
Qed.

Lemma anyM_firstM f l :
  anyM f l = r ← firstM f l; Normal (bool_decide (is_Some r)).
Proof.
  induction l as [|a l IH]; simpl; [done|].
  destruct (f a) as [[]|]; simpl; auto.
Qed.

Lemma anyM_ext f g l : (∀ a, f a = g a) → anyM f l = anyM g l.
Proof. intros H. induction l as [|a l IH]; simpl; [done|]. by rewrite H, IH. Qed.

Lemma anyM_singleton f a : anyM f [a] = f a.
Proof. simpl. by destruct (f a) as [[]|]. Qed.

(** A loop whose body never raises returns. *)
Lemma firstM_total f l :
  (∀ a, a ∈ l → f a ≠ TypeError) → ∃ r, firstM f l = Normal r.
Proof.
  induction l as [|a l IH]; intros Hf; simpl; [eauto|].
  destruct (f a) as [[]|] eqn:E; simpl; [eauto| |].
  - apply IH. intros a' Ha'. apply Hf. by right.
  - exfalso. apply (Hf a); [by left|done].
Qed.

Lemma firstM_None f l :
  firstM f l = Normal None → ∀ a, a ∈ l → f a = Normal false.
Proof.
  induction l as [|a l IH]; simpl; intros H a' Ha'.
  - by apply elem_of_nil in Ha'.
  - destruct (f a) as [[]|] eqn:E; simpl in H; try discriminate.
    apply elem_of_cons in Ha' as [-> | Ha']; auto.
Qed.

(** On a list sorted by [R], the element a loop returns at is the first
    one, in the order [R], at which the test holds. *)
Lemma firstM_Some (R : relation A) f l a :
  StronglySorted R l →
  (∀ x y, R x y → R y x → False) →
  firstM f l = Normal (Some a) →
  a ∈ l ∧ f a = Normal true ∧ ∀ a', a' ∈ l → R a' a → f a' = Normal false.
Proof.
  intros Hs Hasym. induction Hs as [|b l Hs IH Hb]; simpl; intros H.
  - discriminate.
  - destruct (f b) as [[]|] eqn:E; simpl in H; try discriminate.
    + injection H as <-. split; [by left|]. split; [done|].
      intros a' Ha' HR. apply elem_of_cons in Ha' as [-> | Ha'].
      * destruct (Hasym _ _ HR HR).
      * rewrite Forall_forall in Hb. destruct (Hasym _ _ HR (Hb _ Ha')).
    + destruct (IH H) as (Hin & Hfa & Hpre). split; [by right|].
      split; [done|]. intros a' Ha' HR.
      apply elem_of_cons in Ha' as [-> | Ha']; auto.
Qed.

End Loops.

(** ** Facts about the shared methods *)

Section SharedFacts.
Implicit Types (b : board_t) (h w x y : Z) (me : value).

Lemma rowAt_Some h b y :
  rows_ok h b → 0 ≤ y < h → ∃ r, rowAt b y = Some r.
Proof.
  unfold rows_ok, rowAt. intros Hb Hy.
  rewrite bool_decide_eq_true_2 by lia.
  apply lookup_lt_is_Some. lia.
Qed.

Lemma rowAt_cell b y r x : rowAt b y = Some r → cell b y x = aget r x.
Proof. unfold cell. by intros ->. Qed.

Lemma sorted_seqZ m n : StronglySorted Z.lt (seqZ m n).
Proof.
  destruct (decide (n ≤ 0)) as [Hn|Hn]; [rewrite seqZ_nil by done; constructor|].
  rewrite <- (Z2Nat.id n) by lia. generalize (Z.to_nat n) as k. clear.
  induction k as [|k IH]; [constructor|].
  rewrite seqZ_S. apply StronglySorted_app_2; [|done|repeat constructor].
  intros x1 x2 H1 H2. apply elem_of_seqZ in H1.
  apply list_elem_of_singleton in H2. lia.
Qed.

Lemma sorted_rev_seqZ m n : StronglySorted (flip Z.lt) (reverse (seqZ m n)).
Proof.
  destruct (decide (n ≤ 0)) as [Hn|Hn]; [rewrite seqZ_nil by done; constructor|].
  rewrite <- (Z2Nat.id n) by lia. generalize (Z.to_nat n) as k. clear.
  induction k as [|k IH]; [constructor|].
  rewrite seqZ_S, reverse_app. simpl. constructor; [done|].
  apply Forall_forall. intros y Hy. apply elem_of_reverse, elem_of_seqZ in Hy.
  unfold flip. lia.
Qed.

(** [findSpotForCol] returns the largest row index whose cell in column [x]
    is Empty, and [null] when there is none. *)
Lemma findSpotForCol_spec h b x :
  rows_ok h b →
  ∃ r, findSpotForCol h b x = Normal r ∧
       match r with
       | Some y => 0 ≤ y < h ∧ empty b y x ∧
                   ∀ y', y < y' < h → truthy (cell b y' x) = true
       | None => ∀ y, 0 ≤ y < h → truthy (cell b y x) = true
       end.
Proof.
  intros Hb. unfold findSpotForCol.
  set (f := λ y, match rowAt b y with
                 | Some r => Normal (negb (truthy (aget r x)))
                 | None => TypeError
                 end).
  assert (Hf : ∀ y, 0 ≤ y < h → f y = Normal (negb (truthy (cell b y x)))).
  { intros y Hy. unfold f. destruct (rowAt_Some h b y Hb Hy) as [r Hr].
    by rewrite (rowAt_cell _ _ _ _ Hr), Hr. }
  assert (Hin : ∀ y, y ∈ reverse (seqZ 0 h) ↔ 0 ≤ y < h).
  { intros y. rewrite elem_of_reverse, elem_of_seqZ. lia. }
  destruct (firstM_total f (reverse (seqZ 0 h))) as [r Hr].
  { intros y Hy. rewrite Hf by by apply Hin. done. }
  exists r. split; [done|]. destruct r as [y|].
  - apply (firstM_Some (flip Z.lt)) in Hr as (Hy & Hfy & Hpre);
      [|apply sorted_rev_seqZ|unfold flip; lia].
    apply Hin in Hy. rewrite Hf in Hfy by done.
    split; [done|]. split.
    + unfold empty. injection Hfy as Hfy. by apply negb_true_iff in Hfy.
    + intros y' Hy'. assert (Hy'' : 0 ≤ y' < h) by lia.
      assert (HR : flip Z.lt y' y) by (unfold flip; lia).
      specialize (Hpre y' (proj2 (Hin y') Hy'') HR). rewrite Hf in Hpre by done.
      injection Hpre as Hpre. by apply negb_false_iff in Hpre.
  - intros y Hy. pose proof (firstM_None _ _ Hr y (proj2 (Hin y) Hy)) as H.
    rewrite Hf in H by done. injection H as H. by apply negb_false_iff in H.
Qed.

(** [_win] never raises on a board of the right shape, and is true exactly
    when every cell is on the grid and strictly equal to [me]. *)
Lemma _win_spec h w b me cells :
  rows_ok h b →
  ∃ r, _win h w b me cells = Normal r ∧
       (r = true ↔ ∀ y x, (y, x) ∈ cells →
                     in_grid h w y x ∧ strict_eq (cell b y x) me = true).
Proof.
  intros Hb. induction cells as [|[y x] cells IH]; simpl.
  - exists true. split; [done|]. split; [|done].
    intros _ y x H. by apply elem_of_nil in H.
  - destruct ((0 <=? y) && (y <? h) && (0 <=? x) && (x <? w)) eqn:Hg.
    + assert (Hyx : in_grid h w y x) by (unfold in_grid; lia).
      destruct (rowAt_Some h b y Hb (proj1 Hyx)) as [r Hr]. rewrite Hr.
      rewrite <- (rowAt_cell _ _ _ x Hr).
      destruct (strict_eq (cell b y x) me) eqn:Heq.
      * destruct IH as (r' & -> & Hr'). exists r'. split; [done|].
        rewrite Hr'. split.
        -- intros H y' x' Hin. apply elem_of_cons in Hin as [[= -> ->]|Hin]; auto.
        -- intros H y' x' Hin. apply H. by right.
      * exists false. split; [done|]. split; [done|].
        intros H. destruct (H y x) as [_ H']; [by left|congruence].
    + exists false. split; [done|]. split; [done|].
      intros H. destruct (H y x) as [[??] _]; [by left|lia].
Qed.

(** The check list of a direction is the start plus [0..3] steps. *)
Lemma run_delta y x d :
  run y x d =
  (λ i, (y + i * (delta d).1, x + i * (delta d).2)) <$> [0; 1; 2; 3].
Proof. destruct d; simpl; repeat f_equal; lia. Qed.

Lemma run_forall (P : Z → Z → Prop) y x d :
  (∀ y' x', (y', x') ∈ run y x d → P y' x') ↔
  (∀ i, 0 ≤ i ≤ 3 → P (y + i * (delta d).1) (x + i * (delta d).2)).
Proof.
  rewrite run_delta. split.
  - intros H i Hi. apply H. apply list_elem_of_fmap. exists i. split; [done|].
    apply list_elem_of_In. simpl. lia.
  - intros H y' x' Hin. apply list_elem_of_fmap in Hin as (i & [= -> ->] & Hi).
    apply list_elem_of_In in Hi. simpl in Hi. apply H. lia.
Qed.

Lemma _win_run h w b me y x d :
  rows_ok h b →
  ∃ r, _win h w b me (run y x d) = Normal r ∧
       (r = true ↔ winning h w b me y x d).
Proof.
  intros Hb. destruct (_win_spec h w b me (run y x d) Hb) as (r & Hr & Hiff).
  exists r. split; [done|]. rewrite Hiff. unfold winning.
  apply (run_forall (λ y x, in_grid h w y x ∧ strict_eq (cell b y x) me = true)).
Qed.

Lemma before_asym a c : before a c → before c a → False.
Proof. destruct a as [[??]?], c as [[??]?]. unfold before. lia. Qed.

Lemma elem_of_scanOrder h w y x d :
  (y, x, d) ∈ scanOrder h w ↔ in_grid h w y x.
Proof.
  unfold scanOrder, in_grid. rewrite list_elem_of_bind. split.
  - intros (y' & H & Hy'). apply list_elem_of_bind in H as (x' & H & Hx').
    apply list_elem_of_bind in H as (d' & H & Hd').
    apply list_elem_of_singleton in H as [= -> -> ->].
    apply elem_of_seqZ in Hy', Hx'. lia.
  - intros [Hy Hx]. exists y. split; [|apply elem_of_seqZ; lia].
    apply list_elem_of_bind. exists x. split; [|apply elem_of_seqZ; lia].
    apply list_elem_of_bind. exists d. split; [by apply list_elem_of_singleton|].
    apply list_elem_of_In. destruct d; simpl; auto.
Qed.

Lemma sorted_bind {A B} (RA : relation A) (RB : relation B)
    (g : A → list B) (l : list A) :
  StronglySorted RA l →
  (∀ a, a ∈ l → StronglySorted RB (g a)) →
  (∀ a a' c c', RA a a' → c ∈ g a → c' ∈ g a' → RB c c') →
  StronglySorted RB (l ≫= g).
Proof.
  intros Hs Hg HR. induction Hs as [|a l Hs IH Ha].
  - constructor.
  - rewrite bind_cons. apply StronglySorted_app_2.
    + intros c c' Hc Hc'. apply list_elem_of_bind in Hc' as (a' & Hc' & Ha').
      rewrite Forall_forall in Ha. eapply HR; eauto.
    + apply Hg. by left.
    + apply IH. intros a' Ha'. apply Hg. by right.
Qed.

Lemma sorted_scanOrder h w : StronglySorted before (scanOrder h w).
Proof.
  unfold scanOrder.
  apply (sorted_bind Z.lt); [apply sorted_seqZ| |].
  - intros y _. apply (sorted_bind Z.lt); [apply sorted_seqZ| |].
    + intros x _. apply (sorted_bind (λ d d', dir_index d < dir_index d')).
      * unfold dirs. repeat constructor; simpl; lia.
      * intros d _. repeat constructor.
      * intros d d' c c' Hd Hc Hc'.
        apply list_elem_of_singleton in Hc as ->.
        apply list_elem_of_singleton in Hc' as ->. simpl. lia.
    + intros x x' c c' Hx Hc Hc'.
      apply list_elem_of_bind in Hc as (d & Hc & _).
      apply list_elem_of_bind in Hc' as (d' & Hc' & _).
      apply list_elem_of_singleton in Hc as ->.
      apply list_elem_of_singleton in Hc' as ->. simpl. lia.
  - intros y y' c c' Hy Hc Hc'.
    apply list_elem_of_bind in Hc as (x & Hc & _).
    apply list_elem_of_bind in Hc' as (x' & Hc' & _).
    apply list_elem_of_bind in Hc as (d & Hc & _).
    apply list_elem_of_bind in Hc' as (d' & Hc' & _).
    apply list_elem_of_singleton in Hc as ->.
    apply list_elem_of_singleton in Hc' as ->. simpl. lia.
Qed.

(** The two loops and the [||] chain of [checkForWin] are one loop over
    [scanOrder]. *)
Lemma checkForWin_scan h w b me :
  checkForWin h w b me =
  anyM (λ '(y, x, d), _win h w b me (run y x d)) (scanOrder h w).
Proof.
  unfold checkForWin, scanOrder, winHere.
  rewrite anyM_bind. apply anyM_ext. intros y.
  rewrite anyM_bind. apply anyM_ext. intros x.
  rewrite anyM_bind. apply anyM_ext. intros d.
  by rewrite anyM_singleton.
Qed.

End SharedFacts.

Section BoardFacts.
Implicit Types (b : board_t) (h w x y : Z) (me : value) (row : jsarray).

(** [checkForWin] never raises on a board of the right shape, and is true
    exactly when some run of four is winning. *)
Lemma checkForWin_spec h w b me :
  rows_ok h b →
  ∃ r, checkForWin h w b me = Normal r ∧
       (r = true ↔ ∃ y x d, winning h w b me y x d).
Proof.
  intros Hb. rewrite checkForWin_scan, anyM_firstM.
  set (f := λ '(y, x, d), _win h w b me (run y x d)).
  destruct (firstM_total f (scanOrder h w)) as [r Hr].
  { intros [[y x] d] _. simpl.
    destruct (_win_run h w b me y x d Hb) as (r & -> & _). done. }
  rewrite Hr. simpl. eexists. split; [done|].
  rewrite bool_decide_eq_true. destruct r as [[[y x] d]|].
  - apply (firstM_Some before) in Hr as (_ & Hr & _);
      [|apply sorted_scanOrder|apply before_asym].
    simpl in Hr. destruct (_win_run h w b me y x d Hb) as (r & Hr' & Hiff).
    split; [|by eauto]. intros _. exists y, x, d. apply Hiff. congruence.
  - split; [by intros [? [=]]|]. intros (y & x & d & Hw). exfalso.
    assert (Hin : (y, x, d) ∈ scanOrder h w).
    { apply elem_of_scanOrder. specialize (Hw 0 ltac:(lia)) as [Hg _].
      by rewrite !Z.mul_0_l, !Z.add_0_r in Hg. }
    pose proof (firstM_None _ _ Hr _ Hin) as Hf. simpl in Hf.
    destruct (_win_run h w b me y x d Hb) as (r & Hr' & Hiff).
    apply Hiff in Hw. congruence.
Qed.

(** The run at which [checkForWin] returns is the first winning run in
    row-major order of its start, then in the order of the directions. *)
Lemma firstWin_spec h w b me :
  rows_ok h b →
  ∃ r, firstWin h w b me = Normal r ∧
       checkForWin h w b me = Normal (bool_decide (is_Some r)) ∧
       match r with
       | Some (y, x, d) =>
           winning h w b me y x d ∧
           ∀ y' x' d', winning h w b me y' x' d' →
                       ¬ before (y', x', d') (y, x, d)
       | None => ∀ y x d, ¬ winning h w b me y x d
       end.
Proof.
  intros Hb. rewrite checkForWin_scan, anyM_firstM. unfold firstWin.
  set (f := λ '(y, x, d), _win h w b me (run y x d)).
  assert (Hin : ∀ y x d, winning h w b me y x d → (y, x, d) ∈ scanOrder h w).
  { intros y x d Hw. apply elem_of_scanOrder.
    specialize (Hw 0 ltac:(lia)) as [Hg _].
    by rewrite !Z.mul_0_l, !Z.add_0_r in Hg. }
  destruct (firstM_total f (scanOrder h w)) as [r Hr].
  { intros [[y x] d] _. simpl.
    destruct (_win_run h w b me y x d Hb) as (r & -> & _). done. }
  exists r. rewrite Hr. split; [done|]. split; [done|].
  destruct r as [[[y x] d]|].
  - apply (firstM_Some before) in Hr as (_ & Hr & Hpre);
      [|apply sorted_scanOrder|apply before_asym].
    simpl in Hr. destruct (_win_run h w b me y x d Hb) as (r & Hr' & Hiff).
    split; [apply Hiff; congruence|].
    intros y' x' d' Hw Hbefore.
    specialize (Hpre _ (Hin _ _ _ Hw) Hbefore). simpl in Hpre.
    destruct (_win_run h w b me y' x' d' Hb) as (r' & Hr'' & Hiff').
    apply Hiff' in Hw. congruence.
  - intros y x d Hw.
    pose proof (firstM_None _ _ Hr _ (Hin _ _ _ Hw)) as Hf. simpl in Hf.
    destruct (_win_run h w b me y x d Hb) as (r & Hr' & Hiff).
    apply Hiff in Hw. congruence.
Qed.

(** Comparing with a number is holding that number. *)
Lemma strict_eq_num v n : strict_eq v (VNum n) = true ↔ v = VNum n.
Proof.
  destruct v as [|m|p]; simpl; try (split; [discriminate|done]).
  rewrite Z.eqb_eq. split; congruence.
Qed.

Lemma every_truthy w (P : value → Prop) row :
  (∀ v, P v → truthy v = true) →
  row_inv w P row →
  every truthy row = true ↔ ∀ k, 0 ≤ k < w → truthy (aget row k) = true.
Proof.
  intros HP (Hlen & Hgrid & Hextra). unfold every, aget.
  rewrite forallb_forall. split.
  - intros H k Hk. specialize (H k). destruct (Hgrid k Hk) as (v & Hv & _).
    rewrite Hv in *. simpl. apply H.
    apply list_elem_of_In, elem_of_seqZ. lia.
  - intros H k _. destruct (props row !! k) as [v|] eqn:Hv; [|done].
    destruct (decide (0 ≤ k < w)) as [Hk|Hk].
    + specialize (H k Hk). by rewrite Hv in H.
    + eauto.
Qed.

(** The tie test is true exactly when no cell of the grid is Empty. *)
Lemma boardFull_spec h w (P : value → Prop) b :
  (∀ v, P v → truthy v = true) →
  rows_ok h b →
  Forall (row_inv w P) b →
  boardFull b = true ↔ full h w b.
Proof.
  intros HP Hb Hrows. unfold boardFull, full, in_grid.
  rewrite forallb_forall. rewrite Forall_forall in Hrows. split.
  - intros H y x [Hy Hx]. destruct (rowAt_Some h b y Hb Hy) as [r Hr].
    rewrite (rowAt_cell _ _ _ _ Hr). unfold rowAt in Hr.
    case_bool_decide; [|done]. apply list_elem_of_lookup_2 in Hr.
    eapply every_truthy; eauto. apply H. by apply list_elem_of_In.
  - intros H r Hr. apply list_elem_of_In in Hr.
    eapply every_truthy; eauto. intros k Hk.
    apply list_elem_of_lookup in Hr as [i Hi].
    assert (Hrow : rowAt b (Z.of_nat i) = Some r).
    { unfold rowAt. rewrite bool_decide_eq_true_2 by lia. by rewrite Nat2Z.id. }
    rewrite <- (rowAt_cell _ _ _ k Hrow). apply H. split; [|done].
    apply lookup_lt_Some in Hi. unfold rows_ok in Hb. lia.
Qed.

Lemma setCell_Some b y x v row :
  rowAt b y = Some row →
  setCell b y x v = Normal (<[Z.to_nat y := aset row x v]> b).
Proof. unfold setCell. by intros ->. Qed.

Lemma aget_aset row x v k :
  aget (aset row x v) k = if decide (k = x) then v else aget row k.
Proof.
  unfold aget, aset. simpl. destruct (decide (k = x)) as [->|Hne].
  - by rewrite lookup_insert_eq.
  - by rewrite lookup_insert_ne.
Qed.

(** The cells of the board after [board[y][x] = v]. *)
Lemma cell_setCell b y x v row y' x' :
  rowAt b y = Some row →
  cell (<[Z.to_nat y := aset row x v]> b) y' x' =
  if decide (y' = y ∧ x' = x) then v else cell b y' x'.
Proof.
  intros Hrow. unfold cell, rowAt in *.
  case_bool_decide as Hy; [|done].
  destruct (decide (y' = y)) as [->|Hne].
  - rewrite bool_decide_eq_true_2 by done.
    rewrite list_lookup_insert_eq by by eapply lookup_lt_Some.
    rewrite Hrow, aget_aset. destruct (decide (x' = x)) as [Hx|Hx].
    + by rewrite decide_True.
    + rewrite decide_False; [done|]. by intros [_ ?].
  - rewrite decide_False by (by intros [? _]). case_bool_decide; [|done].
    rewrite list_lookup_insert_ne by lia. done.
Qed.

Lemma rows_ok_insert h b i row : rows_ok h b → rows_ok h (<[i := row]> b).
Proof. unfold rows_ok. by rewrite length_insert. Qed.

Lemma row_inv_aset w (P : value → Prop) row x v :
  P v → row_inv w P row → row_inv w P (aset row x v).
Proof.
  intros Hv (Hlen & Hgrid & Hextra). unfold aset. split; [|split]; simpl.
  - case_bool_decide; lia.
  - intros k Hk. destruct (decide (k = x)) as [->|Hne].
    + rewrite lookup_insert_eq. eauto.
    + rewrite lookup_insert_ne by done. auto.
  - intros k v' Hk Hout. destruct (decide (k = x)) as [->|Hne].
    + rewrite lookup_insert_eq in Hk. congruence.
    + rewrite lookup_insert_ne in Hk by done. eauto.
Qed.

Lemma rows_inv_setCell w (P : value → Prop) b y x v row :
  P v → rowAt b y = Some row →
  Forall (row_inv w P) b →
  Forall (row_inv w P) (<[Z.to_nat y := aset row x v]> b).
Proof.
  intros Hv Hrow Hb. apply Forall_insert; [done|].
  apply row_inv_aset; [done|]. unfold rowAt in Hrow.
  case_bool_decide; [|done]. rewrite Forall_forall in Hb. apply Hb.
  by eapply list_elem_of_lookup_2.
Qed.

(** A cell the grid has is found in the table, and no other is. *)
Lemma placeInTable_in h w (html : html_t) y x style :
  html_ok h w html → in_grid h w y x →
  ∃ pieces, html !! (y, x) = Some pieces ∧
            placeInTable html y x style =
            Normal (<[(y, x) := pieces ++ [style]]> html).
Proof.
  intros Hh Hg. apply Hh in Hg as [pieces Hp]. exists pieces.
  unfold placeInTable. by rewrite Hp.
Qed.

Lemma placeInTable_out h w (html : html_t) y x style :
  html_ok h w html → ¬ in_grid h w y x →
  placeInTable html y x style = TypeError.
Proof.
  intros Hh Hg. unfold placeInTable.
  destruct (html !! (y, x)) as [pieces|] eqn:Hp; [|done].
  destruct Hg. apply Hh. by rewrite Hp.
Qed.

Lemma html_ok_insert h w (html : html_t) y x pieces :
  html_ok h w html → in_grid h w y x →
  html_ok h w (<[(y, x) := pieces]> html).
Proof.
  intros Hh Hg y' x'. destruct (decide ((y, x) = (y', x'))) as [[= <- <-]|Hne].
  - rewrite lookup_insert_eq. split; [done|by eauto].
  - rewrite lookup_insert_ne by done. apply Hh.
Qed.

Lemma foldl_push {A B} (a : A) (l0 : list A) (l : list B) :
  foldl (λ acc _, acc ++ [a]) l0 l = l0 ++ replicate (length l) a.
Proof.
  revert l0. induction l as [|c l IH]; intros l0; simpl.
  - by rewrite app_nil_r.
  - rewrite IH, <- app_assoc. done.
Qed.

(** [makeBoard] appends [height] copies of the empty row. *)
Lemma makeBoard_replicate h w b :
  makeBoard h w b = b ++ replicate (Z.to_nat h) (arrayFrom w).
Proof. unfold makeBoard. by rewrite foldl_push, length_seqZ. Qed.

Lemma arrayFrom_lookup w k :
  props (arrayFrom w) !! k =
  if decide (0 ≤ k < w) then Some VUndef else None.
Proof.
  unfold arrayFrom. simpl.
  destruct (list_to_map _ !! k) as [v|] eqn:Hk.
  - apply elem_of_list_to_map_2, list_elem_of_fmap in Hk as (k' & [= -> ->] & Hk).
    apply elem_of_seqZ in Hk. rewrite decide_True by lia. done.
  - apply not_elem_of_list_to_map_2 in Hk. rewrite decide_False; [done|].
    intros Hr. apply Hk. apply list_elem_of_fmap. exists (k, VUndef).
    split; [done|]. apply list_elem_of_fmap. exists k. split; [done|].
    apply elem_of_seqZ. lia.
Qed.

Lemma row_inv_arrayFrom w (P : value → Prop) : row_inv w P (arrayFrom w).
Proof.
  split; [simpl; lia|]. split.
  - intros k Hk. rewrite arrayFrom_lookup, decide_True by done. eauto.
  - intros k v Hk Hout. rewrite arrayFrom_lookup, decide_False in Hk by done.
    discriminate.
Qed.

(** A board made from nothing has the right shape and only Empty cells. *)
Lemma makeBoard_fresh h w (P : value → Prop) :
  rows_ok h (makeBoard h w []) ∧
  Forall (row_inv w P) (makeBoard h w []) ∧
  ∀ y x, cell (makeBoard h w []) y x = VUndef.
Proof.
  rewrite makeBoard_replicate. simpl. split; [|split].
  - unfold rows_ok. rewrite length_replicate. lia.
  - apply Forall_replicate, row_inv_arrayFrom.
  - intros y x. unfold cell, rowAt. case_bool_decide; [|done].
    destruct (replicate _ _ !! _) as [r|] eqn:Hr; [|done].
    apply lookup_replicate in Hr as [-> _]. unfold aget.
    rewrite arrayFrom_lookup. by case_decide.
Qed.

Lemma makeHtmlBoard_lookup h w (html : html_t) y x :
  is_Some (makeHtmlBoard h w html !! (y, x)) ↔
  is_Some (html !! (y, x)) ∨ in_grid h w y x.
Proof.
  unfold makeHtmlBoard. rewrite lookup_union_is_Some.
  apply or_iff_compat_l. unfold in_grid.
  destruct (list_to_map _ !! (y, x)) as [v|] eqn:Hk.
  - apply elem_of_list_to_map_2 in Hk.
    apply list_elem_of_bind in Hk as (y' & Hk & Hy).
    apply list_elem_of_bind in Hk as (x' & Hk & Hx).
    apply list_elem_of_singleton in Hk as [= -> -> ->].
    apply elem_of_seqZ in Hy, Hx. split; [lia|by eauto].
  - apply not_elem_of_list_to_map_2 in Hk. split; [by intros [? [=]]|].
    intros [Hy Hx]. destruct Hk. apply list_elem_of_fmap. exists ((y, x), []).
    split; [done|]. apply list_elem_of_bind. exists y.
    split; [|apply elem_of_seqZ; lia]. apply list_elem_of_bind. exists x.
    split; [|apply elem_of_seqZ; lia]. by apply list_elem_of_singleton.
Qed.

End BoardFacts.

(** ** connect4.js: what a click does *)

Module NumericFacts.
Import Numeric NumericSpec.

Lemma isPlayer_truthy v : isPlayer v → truthy v = true.
Proof. by intros [-> | ->]. Qed.

Lemma isPlayer_curr g :
  currPlayer g = 1 ∨ currPlayer g = 2 → isPlayer (VNum (currPlayer g)).
Proof. unfold isPlayer. intros [-> | ->]; auto. Qed.

(** A click on a finished game changes nothing. *)
Lemma handleClick_over g x :
  gameOver g = true → handleClick g x = mkOutcome g [] false.
Proof. unfold handleClick. by intros ->. Qed.

(** A click on a column without an Empty cell changes nothing. *)
Lemma handleClick_null g x :
  findSpotForCol g x = Normal None → handleClick g x = mkOutcome g [] false.
Proof. unfold handleClick. intros ->. by destruct (gameOver g). Qed.

Lemma placed_fields g y x :
  height (placed g y x) = height g ∧ width (placed g y x) = width g ∧
  currPlayer (placed g y x) = currPlayer g ∧
  gameOver (placed g y x) = gameOver g ∧ html (placed g y x) = html g.
Proof. unfold placed. by destruct (setCell _ _ _ _). Qed.

Lemma placed_board g y x row :
  rowAt (board g) y = Some row →
  board (placed g y x) =
  <[Z.to_nat y := aset row x (VNum (currPlayer g))]> (board g).
Proof. intros Hr. unfold placed. by rewrite (setCell_Some _ _ _ _ _ Hr). Qed.

Lemma shown_fields g y x :
  height (shown g y x) = height g ∧ width (shown g y x) = width g ∧
  currPlayer (shown g y x) = currPlayer g ∧
  gameOver (shown g y x) = gameOver g ∧ board (shown g y x) = board g.
Proof. unfold shown. by destruct (placeInTable _ _ _). Qed.

(** The cells after a placement: only [(y, x)] changed. *)
Lemma placed_cell g y x y' x' :
  wf g → 0 ≤ y < height g →
  cell (board (placed g y x)) y' x' =
  if decide (y' = y ∧ x' = x) then VNum (currPlayer g)
  else cell (board g) y' x'.
Proof.
  intros [Hb _] Hy. destruct (rowAt_Some _ _ _ Hb Hy) as [row Hrow].
  rewrite (placed_board _ _ _ _ Hrow). by apply cell_setCell.
Qed.

Lemma placed_wf g y x : wf g → wf (placed g y x).
Proof.
  intros [Hb Hh]. unfold wf, placed, setCell.
  destruct (rowAt _ _); simpl; [|done]. split; [|done].
  by apply rows_ok_insert.
Qed.

Lemma placed_inv g y x : inv g → inv (placed g y x).
Proof.
  intros (Hwf & Hp & Hrows). split; [by apply placed_wf|].
  unfold placed, setCell. destruct (rowAt _ _) as [row|] eqn:Hrow; simpl;
    [|done].
  split; [done|]. apply rows_inv_setCell; auto using isPlayer_curr.
Qed.

Lemma shown_wf g y x : wf g → wf (shown g y x).
Proof.
  intros [Hb Hh]. unfold wf, shown, placeInTable, Shared.placeInTable.
  destruct (html g !! (y, x)) as [pieces|] eqn:Hp; simpl; [|done].
  split; [done|]. apply html_ok_insert; [done|]. apply Hh. by rewrite Hp.
Qed.

Lemma shown_inv g y x : inv g → inv (shown g y x).
Proof.
  intros (Hwf & Hp & Hrows). split; [by apply shown_wf|].
  destruct (shown_fields g y x) as (_ & -> & -> & _ & ->). done.
Qed.

(** What a click does once [findSpotForCol] has found row [y]. *)
Lemma handleClick_drop g x y :
  wf g → gameOver g = false → 0 ≤ y < height g →
  findSpotForCol g x = Normal (Some y) →
  (¬ 0 ≤ x < width g →
   handleClick g x = mkOutcome (placed g y x) [] true) ∧
  (0 ≤ x < width g →
   let g2 := shown (placed g y x) y x in
   ∃ won, checkForWin g2 = Normal won ∧
     handleClick g x =
     if won then endGame g2 ("Player " +:+ pretty (currPlayer g) +:+ " won!")
     else if boardFull (board g2) then endGame g2 "Tie!"
     else mkOutcome (set_currPlayer g2 (other (currPlayer g))) [] false).
Proof.
  intros Hwf Hgo Hy Hfind. pose proof Hwf as [Hb Hh].
  destruct (rowAt_Some _ _ _ Hb Hy) as [row Hrow].
  unfold handleClick. rewrite Hgo, Hfind. simpl.
  pose proof (setCell_Some _ _ x (VNum (currPlayer g)) _ Hrow) as Hset.
  unfold placed. rewrite Hset. split.
  - intros Hx. unfold placeInTable. simpl.
    rewrite (placeInTable_out (height g) (width g)); [done|done|].
    unfold in_grid. tauto.
  - intros Hx. unfold shown, placeInTable. simpl.
    destruct (placeInTable_in (height g) (width g) (html g) y x
                ("p" +:+ pretty (currPlayer g)) Hh (conj Hy Hx))
      as (pieces & Hp & ->).
    set (g2 := set_html _ _).
    destruct (checkForWin_spec (height g2) (width g2) (board g2)
                (VNum (currPlayer g2))) as (won & Hwon & _).
    { simpl. by apply rows_ok_insert. }
    exists won. split; [done|]. unfold checkForWin. rewrite Hwon.
    by destruct won.
Qed.

(** Every state an event can find the game in satisfies the invariant. *)
Lemma startClick_inv g :
  (∃ h w, g = newGame h w) ∨ inv g → inv (startClick g).
Proof.
  intros Hg.
  assert (Hp : currPlayer g = 1 ∨ currPlayer g = 2).
  { destruct Hg as [(h & w & ->)|(_ & Hp & _)]; [by left|done]. }
  unfold startClick. case_bool_decide as Hlen.
  - unfold resetGame. simpl.
    assert (Hfresh : ∀ g', height g' = height g → width g' = width g →
              currPlayer g' = currPlayer g → board g' = [] → html g' = ∅ →
              inv (set_html
                     (set_board g' (makeBoard (height g') (width g') (board g')))
                     (makeHtmlBoard (height g') (width g') (html g')))).
    { intros g' Hh Hw Hc Hb Hhtml. rewrite Hb, Hhtml. unfold inv, wf. simpl.
      destruct (makeBoard_fresh (height g') (width g') isPlayer)
        as (Hrows & Hinv & _).
      split; [split; [done|]|split; [congruence|done]].
      intros y x. rewrite makeHtmlBoard_lookup, lookup_empty.
      split; [intros [[? [=]]|?]; done|auto]. }
    destruct (gameOver g); apply Hfresh; done.
  - assert (Hnil : board g = []).
    { destruct (board g); [done|]. simpl in Hlen. lia. }
    assert (Hempty : ∀ k, is_Some (html g !! k) → in_grid (height g) (width g) k.1 k.2).
    { destruct Hg as [(h & w & ->)|((_ & Hh) & _)].
      - simpl. intros k. rewrite lookup_empty. by intros [? [=]].
      - intros [y x]. apply Hh. }
    rewrite Hnil. unfold inv, wf. simpl.
    destruct (makeBoard_fresh (height g) (width g) isPlayer)
      as (Hrows & Hinv & _).
    split; [split; [done|]|done].
    intros y x. rewrite makeHtmlBoard_lookup. split; [|auto].
    intros [H|H]; [|done]. by apply Hempty in H.
Qed.

End NumericFacts.

Module NumericInv.
Import Numeric NumericSpec NumericFacts.

Lemma run_held_winning h w b p y x d :
  run_held h w b p y x d ↔ winning h w b (VNum p) y x d.
Proof.
  unfold run_held, winning. split; intros H i Hi; specialize (H i Hi);
    by rewrite strict_eq_num in *.
Qed.

(** [checkForWin] is true exactly when the current player holds a run. *)
Lemma checkForWin_has_run g :
  rows_ok (height g) (board g) →
  ∃ won, checkForWin g = Normal won ∧
         (won = true ↔
          has_run (height g) (width g) (board g) (currPlayer g)).
Proof.
  intros Hb. unfold checkForWin.
  destruct (checkForWin_spec (height g) (width g) (board g)
              (VNum (currPlayer g)) Hb) as (won & Hwon & Hiff).
  exists won. split; [done|]. rewrite Hiff. unfold has_run.
  by setoid_rewrite run_held_winning.
Qed.

(** The three ways a click can go. *)
Lemma handleClick_cases g x :
  wf g →
  (handleClick g x = mkOutcome g [] false ∧
   (gameOver g = true ∨
    ∀ y, 0 ≤ y < height g → truthy (cell (board g) y x) = true)) ∨
  ∃ y, gameOver g = false ∧ findSpotForCol g x = Normal (Some y) ∧
       0 ≤ y < height g ∧ empty (board g) y x ∧
       (∀ y', y < y' < height g → truthy (cell (board g) y' x) = true).
Proof.
  intros [Hb Hh]. destruct (gameOver g) eqn:Hgo.
  { left. split; [by apply handleClick_over|by left]. }
  destruct (findSpotForCol_spec (height g) (board g) x Hb) as (r & Hr & Hspec).
  destruct r as [y|].
  - right. exists y. destruct Hspec as (? & ? & ?). done.
  - left. split; [by apply handleClick_null|by right].
Qed.

Lemma inv_set_gameOver g b : inv g → inv (set_gameOver g b).
Proof. done. Qed.

Lemma inv_set_currPlayer g p : inv g → p = 1 ∨ p = 2 → inv (set_currPlayer g p).
Proof. intros (? & ? & ?) Hp. done. Qed.

Lemma other_player p : other p = 1 ∨ other p = 2.
Proof. unfold other. destruct (p =? 1); auto. Qed.

(** What a click that drops a piece leaves: the board after the placement,
    and the status and turn decided by the win test, then the tie test. *)
Lemma handleClick_placed g x y :
  inv g → gameOver g = false → 0 ≤ y < height g → 0 ≤ x < width g →
  findSpotForCol g x = Normal (Some y) →
  let o := handleClick g x in
  let b' := board (placed g y x) in
  board (final o) = b' ∧ threw o = false ∧
  height (final o) = height g ∧ width (final o) = width g ∧
  inv (final o) ∧
  (has_run (height g) (width g) b' (currPlayer g) →
   gameOver (final o) = true ∧ currPlayer (final o) = currPlayer g ∧
   alerts o = ["Player " +:+ pretty (currPlayer g) +:+ " won!"]) ∧
  (¬ has_run (height g) (width g) b' (currPlayer g) →
   full (height g) (width g) b' →
   gameOver (final o) = true ∧ currPlayer (final o) = currPlayer g ∧
   alerts o = ["Tie!"]) ∧
  (¬ has_run (height g) (width g) b' (currPlayer g) →
   ¬ full (height g) (width g) b' →
   gameOver (final o) = false ∧ currPlayer (final o) = other (currPlayer g) ∧
   alerts o = []).
Proof.
  intros Hinv Hgo Hy Hx Hfind. pose proof Hinv as (Hwf & Hp & Hrows).
  destruct (handleClick_drop g x y Hwf Hgo Hy Hfind) as [_ Hdrop].
  specialize (Hdrop Hx). simpl in Hdrop. destruct Hdrop as (won & Hwon & Hclick).
  set (g2 := shown (placed g y x) y x) in *.
  assert (Hinv2 : inv g2) by by apply shown_inv, placed_inv.
  destruct (shown_fields (placed g y x) y x) as (Hh2 & Hw2 & Hc2 & Hg2 & Hb2).
  destruct (placed_fields g y x) as (Hh1 & Hw1 & Hc1 & Hg1 & _).
  fold g2 in Hh2, Hw2, Hc2, Hg2, Hb2.
  destruct (checkForWin_has_run g2) as (won' & Hwon' & Hrun); [apply Hinv2|].
  rewrite Hwon in Hwon'. injection Hwon' as <-.
  rewrite Hh2, Hw2, Hc2, Hb2, Hh1, Hw1, Hc1 in Hrun.
  assert (Hfull : boardFull (board g2) = true ↔
                  full (height g) (width g) (board (placed g y x))).
  { rewrite <- Hb2, <- Hh1, <- Hw1, <- Hh2, <- Hw2.
    apply (boardFull_spec _ _ isPlayer); [apply isPlayer_truthy|apply Hinv2..]. }
  intros o b'. subst o b'. rewrite Hclick. destruct won.
  - assert (Hr : has_run (height g) (width g) (board (placed g y x))
                   (currPlayer g)) by by apply Hrun.
    simpl. split; [done|]. split; [done|].
    split; [congruence|]. split; [congruence|].
    split; [by apply inv_set_gameOver|].
    split; [intros _; split; [done|split; [congruence|done]]|].
    split; intros Hno; by destruct Hno.
  - assert (Hnorun : ¬ has_run (height g) (width g)
                       (board (placed g y x)) (currPlayer g)).
    { intros H. apply Hrun in H. done. }
    destruct (boardFull (board g2)) eqn:Hbf; simpl.
    + assert (Hf : full (height g) (width g) (board (placed g y x)))
        by by apply Hfull.
      split; [done|]. split; [done|].
      split; [congruence|]. split; [congruence|].
      split; [by apply inv_set_gameOver|].
      split; [intros Hr; by destruct Hnorun|].
      split; [intros _ _; split; [done|split; [congruence|done]]|].
      intros _ Hno. by destruct Hno.
    + assert (Hf : ¬ full (height g) (width g) (board (placed g y x))).
      { intros H. apply Hfull in H. done. }
      split; [done|]. split; [done|].
      split; [congruence|]. split; [congruence|].
      split; [apply inv_set_currPlayer; [done|apply other_player]|].
      split; [intros Hr; by destruct Hnorun|].
      split; [intros _ Hno; by destruct Hf|].
      intros _ _. split; [congruence|done].
Qed.

(** On the board of a placement, whether the player holds a run and whether
    the grid is full are settled by the two tests of the code. *)
Lemma placed_decidable g x y :
  inv g →
  let b' := board (placed g y x) in
  (has_run (height g) (width g) b' (currPlayer g) ∨
   ¬ has_run (height g) (width g) b' (currPlayer g)) ∧
  (full (height g) (width g) b' ∨ ¬ full (height g) (width g) b').
Proof.
  intros Hinv. pose proof (placed_inv g y x Hinv) as Hinv1.
  destruct (placed_fields g y x) as (Hh1 & Hw1 & Hc1 & _).
  simpl. split.
  - destruct (checkForWin_has_run (placed g y x)) as (won & _ & Hrun);
      [apply Hinv1|].
    rewrite Hh1, Hw1, Hc1 in Hrun. destruct won.
    + left. by apply Hrun.
    + right. intros H. apply Hrun in H. done.
  - pose proof (boardFull_spec (height (placed g y x)) (width (placed g y x))
                  isPlayer (board (placed g y x)) isPlayer_truthy
                  (proj1 (proj1 Hinv1)) (proj2 (proj2 Hinv1))) as Hfull.
    rewrite Hh1, Hw1 in Hfull. destruct (boardFull _).
    + left. by apply Hfull.
    + right. intros H. apply Hfull in H. done.
Qed.

(** Whatever the column, a click that drops a piece leaves the board of
    the placement, and on a column of the grid it does not raise. *)
Lemma handleClick_board g x y :
  wf g → gameOver g = false → 0 ≤ y < height g →
  findSpotForCol g x = Normal (Some y) →
  board (final (handleClick g x)) = board (placed g y x) ∧
  (0 ≤ x < width g → threw (handleClick g x) = false).
Proof.
  intros Hwf Hgo Hy Hfind.
  destruct (handleClick_drop g x y Hwf Hgo Hy Hfind) as [Hout Hin].
  destruct (decide (0 ≤ x < width g)) as [Hx|Hx].
  - destruct (Hin Hx) as (won & _ & ->).
    destruct (shown_fields (placed g y x) y x) as (_ & _ & _ & _ & Hb).
    destruct won; [done|]. by destruct (boardFull _).
  - by rewrite (Hout Hx).
Qed.

(** The invariant survives every click, whatever the column. *)
Lemma handleClick_inv g x : inv g → inv (final (handleClick g x)).
Proof.
  intros Hinv. pose proof Hinv as (Hwf & _).
  destruct (handleClick_cases g x Hwf)
    as [[-> _]|(y & Hgo & Hfind & Hy & _)]; [done|].
  destruct (decide (0 ≤ x < width g)) as [Hx|Hx].
  - apply (handleClick_placed g x y Hinv Hgo Hy Hx Hfind).
  - destruct (handleClick_drop g x y Hwf Hgo Hy Hfind) as [Hout _].
    rewrite (Hout Hx). by apply placed_inv.
Qed.

Lemma reachable_inv g : reachable g → inv g.
Proof.
  induction 1.
  - apply startClick_inv. left. eauto.
  - apply startClick_inv. by right.
  - by apply handleClick_inv.
Qed.

(** Under the invariant a cell of the grid is Empty or a player. *)
Lemma inv_cell g y x :
  inv g → in_grid (height g) (width g) y x →
  cell (board g) y x = VUndef ∨ cell (board g) y x = VNum 1 ∨
  cell (board g) y x = VNum 2.
Proof.
  intros ((Hb & _) & _ & Hrows) [Hy Hx].
  destruct (rowAt_Some _ _ _ Hb Hy) as [row Hrow].
  rewrite (rowAt_cell _ _ _ _ Hrow). unfold rowAt in Hrow.
  case_bool_decide; [|done]. apply list_elem_of_lookup_2 in Hrow.
  rewrite Forall_forall in Hrows. destruct (Hrows _ Hrow) as (_ & Hgrid & _).
  destruct (Hgrid x Hx) as (v & Hv & Hcase). unfold aget. rewrite Hv. simpl.
  destruct Hcase as [->|[-> | ->]]; auto.
Qed.

End NumericInv.

(** ** Mirroring the board *)

Section MirrorFacts.
Implicit Types (b : board_t) (h w x y : Z) (me : value).

Lemma flipKey_invol w k : flipKey w (flipKey w k) = k.
Proof. unfold flipKey. repeat case_bool_decide; lia. Qed.

#[local] Instance flipKey_inj w : Inj (=) (=) (flipKey w).
Proof.
  intros k1 k2 H. rewrite <- (flipKey_invol w k1), H. apply flipKey_invol.
Qed.

Lemma mirrorRow_lookup w (r : jsarray) k :
  props (mirrorRow w r) !! k = props r !! flipKey w k.
Proof.
  unfold mirrorRow. simpl. rewrite <- (flipKey_invol w k) at 1.
  apply (lookup_kmap (flipKey w)).
Qed.

Lemma mirrorBoard_cell w b y x :
  cell (mirrorBoard w b) y x = cell b y (flipKey w x).
Proof.
  unfold cell, rowAt, mirrorBoard. case_bool_decide; [|done].
  rewrite list_lookup_fmap. destruct (b !! Z.to_nat y) as [r|]; simpl; [|done].
  unfold aget. by rewrite mirrorRow_lookup.
Qed.

Lemma mirrorBoard_rows_ok h w b : rows_ok h b → rows_ok h (mirrorBoard w b).
Proof. unfold rows_ok, mirrorBoard. by rewrite length_fmap. Qed.

(** A winning run on a board is a winning run on any board that shows it
    mirrored: horizontal and vertical runs stay so, the diagonals swap. *)
Lemma winning_mirror h w b b' me y x d :
  (∀ y x, in_grid h w y x → cell b' y x = cell b y (w - 1 - x)) →
  winning h w b me y x d →
  ∃ x' d', winning h w b' me y x' d'.
Proof.
  intros Hm Hw.
  assert (Hcell : ∀ y' x1 x2, in_grid h w y' x1 → x2 = w - 1 - x1 →
            strict_eq (cell b y' x1) me = true →
            in_grid h w y' x2 ∧ strict_eq (cell b' y' x2) me = true).
  { intros y' x1 x2 Hg -> Heq.
    assert (Hg' : in_grid h w y' (w - 1 - x1)) by (unfold in_grid in *; lia).
    split; [done|]. rewrite (Hm _ _ Hg').
    by replace (w - 1 - (w - 1 - x1)) with x1 by lia. }
  unfold winning in *. destruct d; simpl in *.
  - exists (w - 1 - (x + 3)), Horiz. simpl. intros i Hi.
    destruct (Hw (3 - i) ltac:(lia)) as [Hg Heq].
    rewrite Z.mul_0_r, Z.add_0_r in *.
    eapply Hcell; [exact Hg|lia|exact Heq].
  - exists (w - 1 - x), Vert. simpl. intros i Hi.
    destruct (Hw i Hi) as [Hg Heq]. rewrite Z.mul_0_r, Z.add_0_r in *.
    eapply Hcell; [exact Hg|lia|exact Heq].
  - exists (w - 1 - x), DiagDL. simpl. intros i Hi.
    destruct (Hw i Hi) as [Hg Heq].
    eapply Hcell; [exact Hg|lia|exact Heq].
  - exists (w - 1 - x), DiagDR. simpl. intros i Hi.
    destruct (Hw i Hi) as [Hg Heq].
    eapply Hcell; [exact Hg|lia|exact Heq].
Qed.

(** Mirroring the board does not change what [checkForWin] returns. *)
Lemma checkForWin_mirror h w b me :
  rows_ok h b →
  checkForWin h w (mirrorBoard w b) me = checkForWin h w b me.
Proof.
  intros Hb.
  destruct (checkForWin_spec h w b me Hb) as (r1 & -> & H1).
  destruct (checkForWin_spec h w (mirrorBoard w b) me
              (mirrorBoard_rows_ok h w b Hb)) as (r2 & -> & H2).
  f_equal. apply eq_true_iff_eq. rewrite H1, H2. split.
  - intros (y & x & d & Hw).
    destruct (winning_mirror h w (mirrorBoard w b) b me y x d) as (x' & d' & ?);
      [|done|by eauto].
    intros y' x' [Hy Hx]. rewrite mirrorBoard_cell. unfold flipKey.
    rewrite bool_decide_eq_true_2 by lia. f_equal. lia.
  - intros (y & x & d & Hw).
    destruct (winning_mirror h w b (mirrorBoard w b) me y x d) as (x' & d' & ?);
      [|done|by eauto].
    intros y' x' [Hy Hx]. rewrite mirrorBoard_cell. unfold flipKey.
    by rewrite bool_decide_eq_true_2 by lia.
Qed.

(** A check list that [_win] accepts lies on the grid. *)
Lemma _win_in_grid h w b me cells :
  _win h w b me cells = Normal true →
  ∀ y x, (y, x) ∈ cells → in_grid h w y x.
Proof.
  induction cells as [|[y x] cells IH]; simpl; intros H y' x' Hin.
  - by apply elem_of_nil in Hin.
  - destruct ((0 <=? y) && (y <? h) && (0 <=? x) && (x <? w)) eqn:Hg;
      [|discriminate].
    destruct (rowAt b y) as [r|]; [|discriminate].
    destruct (strict_eq (aget r x) me); [|discriminate].
    apply elem_of_cons in Hin as [[= -> ->]|Hin]; [|by apply IH].
    unfold in_grid. lia.
Qed.

End MirrorFacts.

(** ** The Player variant: what a click does *)

Module ColoredFacts.
Import Colored ColoredSpec.

Lemma isPlayer_truthy_c p0 p1 v : isPlayerObj p0 p1 v → truthy v = true.
Proof. by intros [-> | ->]. Qed.

(** With two players and a turn that is 0 or 1, the active player is one
    of them. *)
Lemma activePlayer_cases g p0 p1 :
  two_players g p0 p1 → currPlayer g = 0 ∨ currPlayer g = 1 →
  (currPlayer g = 0 ∧ activePlayer g = VObj p0) ∨
  (currPlayer g = 1 ∧ activePlayer g = VObj p1).
Proof.
  intros (H0 & H1 & _) [Hc|Hc]; unfold activePlayer; rewrite Hc;
    rewrite bool_decide_eq_true_2 by lia.
  - left. change (Z.to_nat 0) with 0%nat. by rewrite H0.
  - right. change (Z.to_nat 1) with 1%nat. by rewrite H1.
Qed.

Lemma activePlayer_isPlayer g p0 p1 :
  two_players g p0 p1 → currPlayer g = 0 ∨ currPlayer g = 1 →
  isPlayerObj p0 p1 (activePlayer g).
Proof.
  intros H2 Hc. unfold isPlayerObj.
  destruct (activePlayer_cases g p0 p1 H2 Hc) as [[_ ->]|[_ ->]]; auto.
Qed.

(** A click on a finished game changes nothing. *)
Lemma handleClick_over_c g x :
  gameOver g = true → handleClick g x = mkOutcome g [] false.
Proof. unfold handleClick. by intros ->. Qed.

(** A click on a column without an Empty cell changes nothing. *)
Lemma handleClick_null_c g x :
  findSpotForCol g x = Normal None → handleClick g x = mkOutcome g [] false.
Proof. unfold handleClick. intros ->. by destruct (gameOver g). Qed.

Lemma placed_fields_c g y x :
  height (placedC g y x) = height g ∧ width (placedC g y x) = width g ∧
  currPlayer (placedC g y x) = currPlayer g ∧
  gameOver (placedC g y x) = gameOver g ∧ html (placedC g y x) = html g ∧
  players (placedC g y x) = players g.
Proof. unfold placedC. by destruct (setCell _ _ _ _). Qed.

Lemma placed_board_c g y x row :
  rowAt (board g) y = Some row →
  board (placedC g y x) =
  <[Z.to_nat y := aset row x (activePlayer g)]> (board g).
Proof. intros Hr. unfold placedC. by rewrite (setCell_Some _ _ _ _ _ Hr). Qed.

Lemma shown_fields_c g y x :
  height (shownC g y x) = height g ∧ width (shownC g y x) = width g ∧
  currPlayer (shownC g y x) = currPlayer g ∧
  gameOver (shownC g y x) = gameOver g ∧ board (shownC g y x) = board g ∧
  players (shownC g y x) = players g.
Proof. unfold shownC. by destruct (placeInTable _ _ _). Qed.

(** The cells after a placement: only [(y, x)] changed. *)
Lemma placed_cell_c g y x y' x' :
  wfC g → 0 ≤ y < height g →
  cell (board (placedC g y x)) y' x' =
  if decide (y' = y ∧ x' = x) then activePlayer g
  else cell (board g) y' x'.
Proof.
  intros [Hb _] Hy. destruct (rowAt_Some _ _ _ Hb Hy) as [row Hrow].
  rewrite (placed_board_c _ _ _ _ Hrow). by apply cell_setCell.
Qed.

Lemma placed_wf_c g y x : wfC g → wfC (placedC g y x).
Proof.
  intros [Hb Hh]. unfold wfC, placedC, setCell.
  destruct (rowAt _ _); simpl; [|done]. split; [|done].
  by apply rows_ok_insert.
Qed.

Lemma placed_inv_c g y x : invC g → invC (placedC g y x).
Proof.
  intros (Hwf & Hc & p0 & p1 & H2 & Hrows). split; [by apply placed_wf_c|].
  pose proof (activePlayer_isPlayer g p0 p1 H2 Hc) as Hact.
  unfold placedC, setCell. destruct (rowAt _ _) as [row|] eqn:Hrow; simpl;
    [|by eauto 6].
  split; [done|]. exists p0, p1. split; [done|].
  by apply rows_inv_setCell.
Qed.

Lemma shown_wf_c g y x : wfC g → wfC (shownC g y x).
Proof.
  intros [Hb Hh]. unfold wfC, shownC, placeInTable, Shared.placeInTable.
  destruct (activePlayer g); try done.
  destruct (html g !! (y, x)) as [pieces|] eqn:Hp; simpl; [|done].
  split; [done|]. apply html_ok_insert; [done|]. apply Hh. by rewrite Hp.
Qed.

Lemma shown_inv_c g y x : invC g → invC (shownC g y x).
Proof.
  intros (Hwf & Hp & Hrows). split; [by apply shown_wf_c|].
  unfold shownC. destruct (placeInTable _ _ _); done.
Qed.

(** What a click does once [findSpotForCol] has found row [y]. *)
Lemma handleClick_drop_c g x y :
  invC g → gameOver g = false → 0 ≤ y < height g →
  findSpotForCol g x = Normal (Some y) →
  (¬ 0 ≤ x < width g →
   handleClick g x = mkOutcome (placedC g y x) [] true) ∧
  (0 ≤ x < width g →
   let g2 := shownC (placedC g y x) y x in
   ∃ won, checkForWin g2 = Normal won ∧
     handleClick g x =
     if won
     then endGame g2 ("Player " +:+ pretty (currPlayer g + 1) +:+ " won!")
     else if boardFull (board g2) then endGame g2 "Tie!"
     else mkOutcome
            (set_currPlayer g2 (if currPlayer g =? 0 then 1 else 0)) [] false).
Proof.
  intros (Hwf & Hc & p0 & p1 & H2 & _) Hgo Hy Hfind. pose proof Hwf as [Hb Hh].
  destruct (rowAt_Some _ _ _ Hb Hy) as [row Hrow].
  unfold handleClick. rewrite Hgo, Hfind. simpl.
  pose proof (setCell_Some _ _ x (activePlayer g) _ Hrow) as Hset.
  unfold placedC. rewrite Hset.
  assert (Hact : ∃ p, activePlayer g = VObj p).
  { destruct (activePlayer_cases g p0 p1 H2 Hc) as [[_ ->]|[_ ->]]; eauto. }
  destruct Hact as [p Hact]. split.
  - intros Hx. unfold placeInTable, activePlayer in *. simpl. rewrite Hact.
    rewrite (placeInTable_out (height g) (width g)); [done|done|].
    unfold in_grid. tauto.
  - intros Hx. unfold shownC, placeInTable, activePlayer in *. simpl.
    rewrite Hact.
    destruct (placeInTable_in (height g) (width g) (html g) y x
                (color p) Hh (conj Hy Hx)) as (pieces & Hp & ->).
    set (g2 := set_html _ _).
    destruct (checkForWin_spec (height g2) (width g2) (board g2)
                (activePlayer g2)) as (won & Hwon & _).
    { simpl. by apply rows_ok_insert. }
    exists won. split; [done|]. unfold checkForWin. rewrite Hwon.
    by destruct won.
Qed.

(** The three ways a click can go. *)
Lemma handleClick_cases_c g x :
  wfC g →
  (handleClick g x = mkOutcome g [] false ∧
   (gameOver g = true ∨
    ∀ y, 0 ≤ y < height g → truthy (cell (board g) y x) = true)) ∨
  ∃ y, gameOver g = false ∧ findSpotForCol g x = Normal (Some y) ∧
       0 ≤ y < height g ∧ empty (board g) y x ∧
       (∀ y', y < y' < height g → truthy (cell (board g) y' x) = true).
Proof.
  intros [Hb Hh]. destruct (gameOver g) eqn:Hgo.
  { left. split; [by apply handleClick_over_c|by left]. }
  destruct (findSpotForCol_spec (height g) (board g) x Hb) as (r & Hr & Hspec).
  destruct r as [y|].
  - right. exists y. destruct Hspec as (? & ? & ?). done.
  - left. split; [by apply handleClick_null_c|by right].
Qed.

(** Whatever the column, a click that drops a piece leaves the board of
    the placement. *)
Lemma handleClick_board_c g x y :
  invC g → gameOver g = false → 0 ≤ y < height g →
  findSpotForCol g x = Normal (Some y) →
  board (final (handleClick g x)) = board (placedC g y x).
Proof.
  intros Hinv Hgo Hy Hfind.
  destruct (handleClick_drop_c g x y Hinv Hgo Hy Hfind) as [Hout Hin].
  destruct (decide (0 ≤ x < width g)) as [Hx|Hx].
  - destruct (Hin Hx) as (won & _ & ->).
    destruct (shown_fields_c (placedC g y x) y x) as (_ & _ & _ & _ & Hb & _).
    destruct won; [done|]. by destruct (boardFull _).
  - by rewrite (Hout Hx).
Qed.

(** The invariant survives every click, whatever the column. *)
Lemma handleClick_inv_c g x : invC g → invC (final (handleClick g x)).
Proof.
  intros Hinv. pose proof Hinv as (Hwf & _).
  destruct (handleClick_cases_c g x Hwf)
    as [[-> _]|(y & Hgo & Hfind & Hy & _)]; [done|].
  destruct (handleClick_drop_c g x y Hinv Hgo Hy Hfind) as [Hout Hin].
  assert (Hinv2 : invC (shownC (placedC g y x) y x))
    by by apply shown_inv_c, placed_inv_c.
  destruct (decide (0 ≤ x < width g)) as [Hx|Hx].
  - destruct (Hin Hx) as (won & _ & ->).
    destruct won; [done|]. destruct (boardFull _); [done|]. simpl.
    destruct Hinv2 as (? & _ & ?). split; [done|]. split; [|done].
    simpl. destruct (_ =? 0); auto.
  - rewrite (Hout Hx). by apply placed_inv_c.
Qed.

(** A click on Start leaves a state that satisfies the invariant. *)
Lemma startClick_inv_c g c1 c2 :
  (∃ h w, g = newGame h w) ∨ invC g → invC (startClick g c1 c2).
Proof.
  intros Hg. unfold startClick. case_bool_decide as Hlen.
  - unfold resetGame. simpl.
    assert (Hfresh : ∀ g', height g' = height g → width g' = width g →
              currPlayer g' = 0 → players g' = [] → board g' = [] →
              html g' = ∅ →
              let g1 := setPlayers g' c1 c2 in
              invC (set_html
                     (set_board g1 (makeBoard (height g1) (width g1) (board g1)))
                     (makeHtmlBoard (height g1) (width g1) (html g1)))).
    { intros g' Hh Hw Hc Hps Hb Hhtml. unfold invC, wfC, two_players. simpl.
      rewrite Hb, Hhtml, Hps, Hc.
      destruct (makeBoard_fresh (height g') (width g')
                  (isPlayerObj (mkPlayer (nextOid g') c1)
                            (mkPlayer (S (nextOid g')) c2)))
        as (Hrows & Hinv & _).
      split; [split; [done|]|split; [by left|]].
      - intros y x. rewrite makeHtmlBoard_lookup, lookup_empty.
        split; [intros [[? [=]]|?]; done|auto].
      - eexists _, _. split; [|exact Hinv]. simpl. repeat split; lia. }
    destruct (gameOver g); apply Hfresh; done.
  - assert (Hnil : board g = []).
    { destruct (board g); [done|]. simpl in Hlen. lia. }
    unfold invC, wfC. simpl. rewrite Hnil.
    destruct Hg as [(h & w & ->)|((_ & Hh) & Hc & p0 & p1 & H2 & _)]; simpl.
    + destruct (makeBoard_fresh h w (isPlayerObj (mkPlayer 0 c1) (mkPlayer 1 c2)))
        as (Hrows & Hinv & _).
      split; [split; [done|]|split; [by left|]].
      * intros y x. rewrite makeHtmlBoard_lookup, lookup_empty.
        split; [intros [[? [=]]|?]; done|auto].
      * eexists _, _. split; [|exact Hinv].
        unfold two_players. simpl. repeat split; lia.
    + destruct (makeBoard_fresh (height g) (width g) (isPlayerObj p0 p1))
        as (Hrows & Hinv & _).
      split; [split; [done|]|split; [done|]].
      * intros y x. rewrite makeHtmlBoard_lookup. split; [|auto].
        intros [H|H]; [|done]. by apply Hh in H.
      * exists p0, p1. split; [|exact Hinv].
        destruct H2 as (H0 & H1 & Hne). unfold two_players. simpl.
        rewrite !lookup_app_l by (by eapply lookup_lt_Some). done.
Qed.

Lemma reachable_inv_c g : reachableC g → invC g.
Proof.
  induction 1.
  - apply startClick_inv_c. left. eauto.
  - apply startClick_inv_c. by right.
  - by apply handleClick_inv_c.
Qed.

(** Under the invariant a cell of the grid is Empty or one of the two
    players. *)
Lemma inv_cell_with g p0 p1 y x :
  rows_ok (height g) (board g) →
  two_players g p0 p1 →
  Forall (row_inv (width g) (isPlayerObj p0 p1)) (board g) →
  in_grid (height g) (width g) y x →
  cell (board g) y x = VUndef ∨ cell (board g) y x = VObj p0 ∨
  cell (board g) y x = VObj p1.
Proof.
  intros Hb H2 Hrows [Hy Hx].
  destruct (rowAt_Some _ _ _ Hb Hy) as [row Hrow].
  rewrite (rowAt_cell _ _ _ _ Hrow). unfold rowAt in Hrow.
  case_bool_decide; [|done]. apply list_elem_of_lookup_2 in Hrow.
  rewrite Forall_forall in Hrows. destruct (Hrows _ Hrow) as (_ & Hgrid & _).
  destruct (Hgrid x Hx) as (v & Hv & Hcase). unfold aget. rewrite Hv. simpl.
  destruct Hcase as [->|[-> | ->]]; auto.
Qed.

End ColoredFacts.

(** ** The two variants step together *)

Module CorrFacts.
Import Corr.

Section Rows.
Context (p0 p1 : Player) (Hne : oid p0 ≠ oid p1).
Implicit Types (bn bc : board_t) (rn rc : jsarray) (vn vc mn mc : value).

Lemma vcorr_truthy vn vc : vcorr p0 p1 vn vc → truthy vn = truthy vc.
Proof. by intros [[-> ->]|[[-> ->]|[-> ->]]]. Qed.

(** Comparing with the active player gives the same answer on both sides;
    this is where the two players being distinct objects is used. *)
Lemma vcorr_strict_eq vn vc mn mc :
  vcorr p0 p1 vn vc → vcorr p0 p1 mn mc →
  strict_eq vn mn = strict_eq vc mc.
Proof.
  intros [[-> ->]|[[-> ->]|[-> ->]]] [[-> ->]|[[-> ->]|[-> ->]]]; simpl;
    try done.
  - by rewrite bool_decide_eq_true_2.
  - by rewrite bool_decide_eq_false_2.
  - by rewrite bool_decide_eq_false_2.
  - by rewrite bool_decide_eq_true_2.
Qed.

Lemma aget_corr rn rc k :
  row_corr p0 p1 rn rc → vcorr p0 p1 (aget rn k) (aget rc k).
Proof.
  intros [_ H]. unfold aget. destruct (H k) as [vn vc Hv|]; simpl; [done|].
  by left.
Qed.

Lemma rowAt_corr bn bc y :
  Forall2 (row_corr p0 p1) bn bc →
  option_Forall2 (row_corr p0 p1) (rowAt bn y) (rowAt bc y).
Proof.
  intros H. unfold rowAt. case_bool_decide; [|constructor].
  by apply Forall2_lookup.
Qed.

Lemma firstM_ext {A} (f g : A → completion bool) l :
  (∀ a, f a = g a) → firstM f l = firstM g l.
Proof. intros H. induction l as [|a l IH]; simpl; [done|]. by rewrite H, IH. Qed.

Lemma findSpotForCol_corr h bn bc x :
  Forall2 (row_corr p0 p1) bn bc →
  Shared.findSpotForCol h bn x = Shared.findSpotForCol h bc x.
Proof.
  intros H. unfold Shared.findSpotForCol. apply firstM_ext. intros y.
  destruct (rowAt_corr bn bc y H) as [rn rc Hr|]; [|done].
  by rewrite (vcorr_truthy _ _ (aget_corr rn rc x Hr)).
Qed.

Lemma _win_corr h w bn bc mn mc cells :
  Forall2 (row_corr p0 p1) bn bc → vcorr p0 p1 mn mc →
  Shared._win h w bn mn cells = Shared._win h w bc mc cells.
Proof.
  intros H Hm. induction cells as [|[y x] cells IH]; simpl; [done|].
  destruct (_ && _); [|done].
  destruct (rowAt_corr bn bc y H) as [rn rc Hr|]; [|done].
  by rewrite (vcorr_strict_eq _ _ _ _ (aget_corr rn rc x Hr) Hm), IH.
Qed.

Lemma checkForWin_corr h w bn bc mn mc :
  Forall2 (row_corr p0 p1) bn bc → vcorr p0 p1 mn mc →
  Shared.checkForWin h w bn mn = Shared.checkForWin h w bc mc.
Proof.
  intros H Hm. unfold Shared.checkForWin, winHere.
  apply anyM_ext. intros y. apply anyM_ext. intros x.
  apply anyM_ext. intros d. by apply _win_corr.
Qed.

Lemma every_corr rn rc :
  row_corr p0 p1 rn rc → every truthy rn = every truthy rc.
Proof.
  intros [Hlen H]. unfold every. rewrite Hlen.
  induction (seqZ 0 (len rc)) as [|k l IH]; simpl; [done|].
  rewrite IH. f_equal.
  destruct (H k) as [vn vc Hv|]; [|done]. by apply vcorr_truthy.
Qed.

Lemma boardFull_corr bn bc :
  Forall2 (row_corr p0 p1) bn bc → boardFull bn = boardFull bc.
Proof.
  unfold boardFull. induction 1 as [|rn rc bn bc Hr _ IH]; simpl; [done|].
  by rewrite (every_corr _ _ Hr), IH.
Qed.

Lemma aset_corr rn rc x vn vc :
  row_corr p0 p1 rn rc → vcorr p0 p1 vn vc →
  row_corr p0 p1 (aset rn x vn) (aset rc x vc).
Proof.
  intros [Hlen H] Hv. split; simpl; [by rewrite Hlen|].
  intros k. destruct (decide (x = k)) as [->|Hk].
  - rewrite !lookup_insert_eq. by constructor.
  - by rewrite !lookup_insert_ne.
Qed.

Lemma setCell_corr bn bc y x vn vc :
  Forall2 (row_corr p0 p1) bn bc → vcorr p0 p1 vn vc →
  match setCell bn y x vn, setCell bc y x vc with
  | Normal bn', Normal bc' => Forall2 (row_corr p0 p1) bn' bc'
  | TypeError, TypeError => True
  | _, _ => False
  end.
Proof.
  intros H Hv. unfold setCell.
  destruct (rowAt_corr bn bc y H) as [rn rc Hr|]; [|done].
  apply Forall2_insert; [done|]. by apply aset_corr.
Qed.

End Rows.

Lemma placeInTable_corr (hn hc : html_t) y x sn sc :
  html_corr hn hc →
  match Shared.placeInTable hn y x sn, Shared.placeInTable hc y x sc with
  | Normal hn', Normal hc' => html_corr hn' hc'
  | TypeError, TypeError => True
  | _, _ => False
  end.
Proof.
  intros H. unfold Shared.placeInTable.
  destruct (H (y, x)) as [pn pc Hp|]; [|done].
  intros k. destruct (decide ((y, x) = k)) as [<-|Hk].
  - rewrite !lookup_insert_eq. constructor. rewrite !length_app. simpl. lia.
  - rewrite !lookup_insert_ne by done. apply H.
Qed.

(** One click keeps the two games in correspondence, raises in both or in
    neither, and alerts the same messages. *)
Lemma handleClick_corr gn gc x :
  corr gn gc →
  corr (final (Numeric.handleClick gn x)) (final (Colored.handleClick gc x)) ∧
  alerts (Numeric.handleClick gn x) = alerts (Colored.handleClick gc x) ∧
  threw (Numeric.handleClick gn x) = threw (Colored.handleClick gc x).
Proof.
  intros Hcorr. pose proof Hcorr as
    (Hh & Hw & Hgo & Hcp & Hc & Hhtml & p0 & p1 & H2 & Hb).
  pose proof H2 as (_ & _ & Hne).
  assert (Hme : vcorr p0 p1 (VNum (Numeric.currPlayer gn))
                  (Colored.activePlayer gc)).
  { destruct (ColoredFacts.activePlayer_cases gc p0 p1 H2 Hc)
      as [[Hz ->]|[Hz ->]]; rewrite Hcp, Hz; [right; by left|right; by right]. }
  unfold Numeric.handleClick, Colored.handleClick.
  rewrite Hgo. destruct (Colored.gameOver gc) eqn:Hgoc; simpl; [done|].
  unfold Numeric.findSpotForCol, Colored.findSpotForCol.
  rewrite Hh, (findSpotForCol_corr p0 p1 _ _ _ x Hb).
  destruct (Shared.findSpotForCol _ _ _) as [[y|]|]; simpl; [|done..].
  pose proof (setCell_corr p0 p1 _ _ y x _ _ Hb Hme) as Hset.
  destruct (setCell (Numeric.board gn) _ _ _) as [bn'|],
           (setCell (Colored.board gc) _ _ _) as [bc'|]; try done.
  unfold Numeric.placeInTable, Colored.placeInTable. simpl.
  assert (Hact : ∃ p, Colored.activePlayer gc = VObj p).
  { destruct (ColoredFacts.activePlayer_cases gc p0 p1 H2 Hc)
      as [[_ ->]|[_ ->]]; eauto. }
  destruct Hact as [p Hact].
  assert (Hact' : ∀ b, Colored.activePlayer (Colored.set_board gc b) = VObj p)
    by done.
  rewrite Hact'.
  pose proof (placeInTable_corr _ _ y x
                ("p" +:+ pretty (Numeric.currPlayer gn)) (color p) Hhtml)
    as Hplace.
  destruct (Shared.placeInTable (Numeric.html gn) _ _ _) as [hn'|],
           (Shared.placeInTable (Colored.html gc) _ _ _) as [hc'|]; try done.
  2:{ split; [|done]. unfold corr. simpl. eauto 12. }
  unfold Numeric.checkForWin, Colored.checkForWin. simpl.
  change (Colored.activePlayer _) with (Colored.activePlayer gc).
  rewrite Hh, Hw, (checkForWin_corr p0 p1 Hne _ _ _ _ _ _ Hset Hme).
  destruct (Shared.checkForWin _ _ _ _) as [[]|]; simpl.
  - split; [|by rewrite Hcp]. unfold corr. simpl. eauto 12.
  - rewrite (boardFull_corr p0 p1 _ _ Hset).
    destruct (boardFull bc'); simpl.
    + split; [|done]. unfold corr. simpl. eauto 12.
    + split; [|done]. unfold corr. simpl.
      split; [done|]. split; [done|]. split; [congruence|].
      split; [rewrite Hcp; by destruct Hc as [-> | ->]|].
      split; [destruct (_ =? 0); auto|]. eauto.
  - split; [|done]. unfold corr. simpl. eauto 12.
Qed.

(** The games a click on Start makes from the same dimensions
    correspond. *)
Lemma startClick_corr h w c1 c2 :
  corr (Numeric.startClick (Numeric.newGame h w))
       (Colored.startClick (Colored.newGame h w) c1 c2).
Proof.
  unfold corr. simpl. split; [done|]. split; [done|]. split; [done|].
  split; [done|]. split; [by left|]. split.
  - intros k. destruct (_ !! k); by constructor.
  - eexists _, _. split; [by repeat split|].
    rewrite makeBoard_replicate. simpl.
    apply Forall_Forall2_diag, Forall_replicate. split; [done|].
    intros k. rewrite arrayFrom_lookup. case_decide; constructor. by left.
Qed.

Lemma play_corr gn gc xs :
  corr gn gc → corr (Numeric.play gn xs) (Colored.play gc xs).
Proof.
  revert gn gc. induction xs as [|x xs IH]; intros gn gc H; simpl; [done|].
  apply IH. by apply handleClick_corr.
Qed.

(** Corresponding games show corresponding cells. *)
Lemma corr_cell gn gc :
  corr gn gc →
  ∃ p0 p1, ColoredSpec.two_players gc p0 p1 ∧
           ∀ y x, vcorr p0 p1 (cell (Numeric.board gn) y x)
                              (cell (Colored.board gc) y x).
Proof.
  intros (_ & _ & _ & _ & _ & _ & p0 & p1 & H2 & Hb). exists p0, p1.
  split; [done|]. intros y x. unfold cell.
  destruct (rowAt_corr p0 p1 _ _ y Hb) as [rn rc Hr|]; [|by left].
  by apply aget_corr.
Qed.

End CorrFacts.

(** ** The properties of the specification *)

(** C1. On a game in progress, a click on a column of the grid that has an
    Empty cell puts the active player on the Empty cell of that column with
    the largest row index, leaves every other cell as it was, and does not
    raise. *)
Theorem C1_drop_lowest_empty (g : Numeric.Game) (x : Z) :
  NumericSpec.wf g →
  Numeric.gameOver g = false →
  0 ≤ x < Numeric.width g →
  (∃ y, 0 ≤ y < Numeric.height g ∧ empty (Numeric.board g) y x) →
  ∃ y, 0 ≤ y < Numeric.height g ∧ empty (Numeric.board g) y x ∧
       (∀ y', y < y' < Numeric.height g → ¬ empty (Numeric.board g) y' x) ∧
       cell (Numeric.board (final (Numeric.handleClick g x))) y x =
         VNum (Numeric.currPlayer g) ∧
       (∀ y' x', (y', x') ≠ (y, x) →
          cell (Numeric.board (final (Numeric.handleClick g x))) y' x' =
          cell (Numeric.board g) y' x') ∧
       threw (Numeric.handleClick g x) = false.
Proof.
  intros Hwf Hgo Hx (y0 & Hy0 & He0).
  destruct (NumericInv.handleClick_cases g x Hwf)
    as [[_ [Hover|Hfull]]|(y & _ & Hfind & Hy & He & Hbelow)].
  - congruence.
  - unfold empty in He0. rewrite (Hfull y0 Hy0) in He0. discriminate.
  - destruct (NumericInv.handleClick_board g x y Hwf Hgo Hy Hfind)
      as [Hboard Hthrew].
    exists y. split; [done|]. split; [done|]. split.
    { intros y' Hy'. unfold empty. rewrite (Hbelow y' Hy'). discriminate. }
    rewrite Hboard. split; [|split; [|auto]].
    + rewrite (NumericFacts.placed_cell g y x y x Hwf Hy).
      by rewrite decide_True.
    + intros y' x' Hne.
      rewrite (NumericFacts.placed_cell g y x y' x' Hwf Hy).
      rewrite decide_False; [done|]. intros [-> ->]. by destruct Hne.
Qed.

(** C2. [checkForWin] is true exactly when the current player holds some
    run of four cells of the grid in one of the four directions; and the run
    at which the scan returns is the first winning run in row-major order of
    its start cell, then in the order horizontal, vertical, diagonal
    down-right, diagonal down-left. *)
Theorem C2_checkForWin_runs (g : Numeric.Game) :
  rows_ok (Numeric.height g) (Numeric.board g) →
  (Numeric.checkForWin g = Normal true ↔
   NumericSpec.has_run (Numeric.height g) (Numeric.width g)
     (Numeric.board g) (Numeric.currPlayer g)) ∧
  (Numeric.checkForWin g = Normal false ↔
   ¬ NumericSpec.has_run (Numeric.height g) (Numeric.width g)
       (Numeric.board g) (Numeric.currPlayer g)) ∧
  ∃ r, Numeric.firstWin g = Normal r ∧
       Numeric.checkForWin g = Normal (bool_decide (is_Some r)) ∧
       match r with
       | Some (y, x, d) =>
           NumericSpec.run_held (Numeric.height g) (Numeric.width g)
             (Numeric.board g) (Numeric.currPlayer g) y x d ∧
           ∀ y' x' d',
             NumericSpec.run_held (Numeric.height g) (Numeric.width g)
               (Numeric.board g) (Numeric.currPlayer g) y' x' d' →
             ¬ before (y', x', d') (y, x, d)
       | None =>
           ¬ NumericSpec.has_run (Numeric.height g) (Numeric.width g)
               (Numeric.board g) (Numeric.currPlayer g)
       end.
Proof.
  intros Hb.
  destruct (NumericInv.checkForWin_has_run g Hb) as (won & Hwon & Hiff).
  split; [|split].
  - rewrite Hwon, <- Hiff. split; congruence.
  - rewrite Hwon. split.
    + intros [= ->] Hrun. apply Hiff in Hrun. discriminate.
    + intros Hno. destruct won; [|done]. destruct Hno. by apply Hiff.
  - destruct (firstWin_spec (Numeric.height g) (Numeric.width g)
                (Numeric.board g) (VNum (Numeric.currPlayer g)) Hb)
      as (r & Hr & Hcheck & Hspec).
    exists r. split; [done|]. split; [done|].
    destruct r as [[[y x] d]|].
    + destruct Hspec as [Hw Hfirst]. split.
      * by apply NumericInv.run_held_winning.
      * intros y' x' d' Hheld. apply Hfirst.
        by apply NumericInv.run_held_winning.
    + intros (y & x & d & Hheld). apply (Hspec y x d).
      by apply NumericInv.run_held_winning.
Qed.

(** C3. After a piece is placed, the win test for the player who moved comes
    first: if that player holds a run the game is over, the turn stays and
    the win is announced; otherwise, if no cell of the grid is Empty, the
    game is over, the turn stays and a tie is announced; otherwise the turn
    passes to the other player.  So the turn changes exactly when the game
    goes on, and a move that completes a run and fills the board is a win,
    not a tie. *)
Theorem C3_win_then_tie_then_turn (g : Numeric.Game) (x : Z) :
  NumericSpec.inv g →
  Numeric.gameOver g = false →
  0 ≤ x < Numeric.width g →
  (∃ y, 0 ≤ y < Numeric.height g ∧ empty (Numeric.board g) y x) →
  let o := Numeric.handleClick g x in
  let g' := final o in
  let won := NumericSpec.has_run (Numeric.height g) (Numeric.width g)
               (Numeric.board g') (Numeric.currPlayer g) in
  let tied := full (Numeric.height g) (Numeric.width g) (Numeric.board g') in
  (won →
   Numeric.gameOver g' = true ∧
   Numeric.currPlayer g' = Numeric.currPlayer g ∧
   alerts o = ["Player " +:+ pretty (Numeric.currPlayer g) +:+ " won!"]) ∧
  (¬ won → tied →
   Numeric.gameOver g' = true ∧
   Numeric.currPlayer g' = Numeric.currPlayer g ∧
   alerts o = ["Tie!"]) ∧
  (¬ won → ¬ tied →
   Numeric.gameOver g' = false ∧
   Numeric.currPlayer g' = NumericSpec.other (Numeric.currPlayer g) ∧
   alerts o = []) ∧
  (Numeric.gameOver g' = false ↔
   Numeric.currPlayer g' ≠ Numeric.currPlayer g) ∧
  (won → tied → alerts o ≠ ["Tie!"]).
Proof.
  intros Hinv Hgo Hx (y0 & Hy0 & He0). pose proof Hinv as (Hwf & Hp & _).
  destruct (NumericInv.handleClick_cases g x Hwf)
    as [[_ [Hover|Hfull]]|(y & _ & Hfind & Hy & _)].
  { congruence. }
  { unfold empty in He0. rewrite (Hfull y0 Hy0) in He0. discriminate. }
  destruct (NumericInv.handleClick_placed g x y Hinv Hgo Hy Hx Hfind)
    as (Hboard & _ & _ & _ & _ & Hwon & Htie & Hturn).
  intros o g' won tied. subst o g' won tied. rewrite Hboard.
  split; [done|]. split; [done|]. split; [done|]. split.
  - assert (Hother : NumericSpec.other (Numeric.currPlayer g) ≠
                     Numeric.currPlayer g).
    { unfold NumericSpec.other. destruct Hp as [-> | ->]; simpl; lia. }
    destruct (NumericInv.placed_decidable g x y Hinv) as [[Hr|Hr] Hdec].
    + destruct (Hwon Hr) as (-> & -> & _). split; [discriminate|done].
    + destruct Hdec as [Hf|Hf].
      * destruct (Htie Hr Hf) as (-> & -> & _). split; [discriminate|done].
      * destruct (Hturn Hr Hf) as (-> & -> & _). done.
  - intros Hr _. destruct (Hwon Hr) as (_ & _ & ->). intros [=].
Qed.

(** C4. On a game that is over, a click on any column leaves the whole
    state as it was, alerts nothing and does not raise, in both variants; so
    no sequence of clicks brings the game back in progress. *)
Theorem C4_game_over_noop :
  (∀ (g : Numeric.Game) (x : Z),
     Numeric.gameOver g = true →
     Numeric.handleClick g x = mkOutcome g [] false) ∧
  (∀ (g : Colored.Game) (x : Z),
     Colored.gameOver g = true →
     Colored.handleClick g x = mkOutcome g [] false) ∧
  (∀ (g : Numeric.Game) (xs : list Z),
     Numeric.gameOver g = true → Numeric.play g xs = g) ∧
  (∀ (g : Colored.Game) (xs : list Z),
     Colored.gameOver g = true → Colored.play g xs = g).
Proof.
  split; [exact NumericFacts.handleClick_over|].
  split; [exact ColoredFacts.handleClick_over_c|]. split.
  - intros g xs Hgo. induction xs as [|x xs IH]; simpl; [done|].
    by rewrite NumericFacts.handleClick_over.
  - intros g xs Hgo. induction xs as [|x xs IH]; simpl; [done|].
    by rewrite ColoredFacts.handleClick_over_c.
Qed.

(** C5. A click on a column of the grid in which no cell is Empty finds no
    spot ([findSpotForCol] returns [null]) and leaves the whole state as it
    was, alerting nothing and raising nothing. *)
Theorem C5_full_column_ignored (g : Numeric.Game) (x : Z) :
  NumericSpec.wf g →
  0 ≤ x < Numeric.width g →
  (∀ y, 0 ≤ y < Numeric.height g → ¬ empty (Numeric.board g) y x) →
  Numeric.findSpotForCol g x = Normal None ∧
  Numeric.handleClick g x = mkOutcome g [] false.
Proof.
  intros [Hb _] _ Hfull.
  destruct (findSpotForCol_spec (Numeric.height g) (Numeric.board g) x Hb)
    as ([y|] & Hfind & Hspec).
  - destruct Hspec as (Hy & He & _). destruct (Hfull y Hy He).
  - split; [done|]. by apply NumericFacts.handleClick_null.
Qed.

(** C6, as amended. A click with a column outside the grid is not
    validated.  It leaves every cell of the grid, the active player, the
    status and the table as they were and alerts nothing.  If no row reads
    Empty at that key the call returns and the state is unchanged; otherwise
    the active player is stored at that key of the lowest such row, outside
    the grid, and the call ends in a [TypeError]. *)
Theorem C6_invalid_column_grid_untouched (g : Numeric.Game) (x : Z) :
  NumericSpec.wf g →
  Numeric.gameOver g = false →
  ¬ (0 ≤ x < Numeric.width g) →
  let o := Numeric.handleClick g x in
  (∀ y x', in_grid (Numeric.height g) (Numeric.width g) y x' →
     cell (Numeric.board (final o)) y x' = cell (Numeric.board g) y x') ∧
  Numeric.currPlayer (final o) = Numeric.currPlayer g ∧
  Numeric.gameOver (final o) = false ∧
  Numeric.html (final o) = Numeric.html g ∧
  alerts o = [] ∧
  ((∀ y, 0 ≤ y < Numeric.height g → ¬ empty (Numeric.board g) y x) →
   o = mkOutcome g [] false) ∧
  ((∃ y, 0 ≤ y < Numeric.height g ∧ empty (Numeric.board g) y x) →
   threw o = true ∧
   ∃ y, 0 ≤ y < Numeric.height g ∧ empty (Numeric.board g) y x ∧
        (∀ y', y < y' < Numeric.height g → ¬ empty (Numeric.board g) y' x) ∧
        cell (Numeric.board (final o)) y x = VNum (Numeric.currPlayer g)).
Proof.
  intros Hwf Hgo Hx o. subst o.
  destruct (NumericInv.handleClick_cases g x Hwf)
    as [[-> [Hover|Hfull]]|(y & _ & Hfind & Hy & He & Hbelow)].
  - congruence.
  - simpl. repeat (split; [done|]).
    intros (y & Hy & He). unfold empty in He. rewrite (Hfull y Hy) in He.
    discriminate.
  - destruct (NumericFacts.handleClick_drop g x y Hwf Hgo Hy Hfind)
      as [Hout _].
    rewrite (Hout Hx). simpl.
    destruct (NumericFacts.placed_fields g y x) as (_ & _ & Hc & Hg & Hh).
    split.
    { intros y' x' [_ Hx']. rewrite (NumericFacts.placed_cell _ _ _ _ _ Hwf Hy).
      rewrite decide_False; [done|]. intros [_ ->]. done. }
    split; [done|]. split; [congruence|]. split; [done|]. split; [done|].
    split.
    { intros Hfull. destruct (Hfull y Hy He). }
    intros _. split; [done|]. exists y. split; [done|]. split; [done|].
    split.
    { intros y' Hy'. unfold empty. rewrite (Hbelow y' Hy'). discriminate. }
    rewrite (NumericFacts.placed_cell _ _ _ _ _ Hwf Hy). by rewrite decide_True.
Qed.

(** C6, as stated, fails.  On a fresh 6 by 7 board a click with column 7,
    or with column -1, changes the board: row 5 gains a property at that key
    holding player 1.  And once six such clicks have filled key 7 of all six
    rows, a further click with column 7 does not fail at all. *)
Lemma C6_invalid_column_changes_board :
  Numeric.gameOver freshGame = false ∧
  ¬ NumericSpec.rejects_invalid freshGame 7 ∧
  ¬ NumericSpec.rejects_invalid freshGame (-1) ∧
  Numeric.gameOver overflowGame = false ∧
  ¬ NumericSpec.rejects_invalid overflowGame 7.
Proof.
  split; [reflexivity|]. split; [|split; [|split]].
  - intros (_ & Hb & _). apply (f_equal (λ b, cell b 5 7)) in Hb.
    vm_compute in Hb. discriminate.
  - intros (_ & Hb & _). apply (f_equal (λ b, cell b 5 (-1))) in Hb.
    vm_compute in Hb. discriminate.
  - by vm_compute.
  - intros (Ht & _). vm_compute in Ht. discriminate.
Qed.

(** C7. In connect4.js a reset leaves the active player as it was: on a 6 by
    7 board, after one move (so that player 2 is to move) a click on Start
    gives a game whose active player is still 2, not player 1, so the reset
    the specification asks for does not hold there. *)
Theorem C7_reset_keeps_active_player :
  Numeric.currPlayer afterOneMove = 2 ∧
  Numeric.currPlayer (Numeric.startClick afterOneMove) = 2 ∧
  ¬ NumericSpec.reset_ok afterOneMove (Numeric.startClick afterOneMove).
Proof.
  split; [by vm_compute|]. split; [by vm_compute|].
  intros (_ & _ & _ & Hc & _). vm_compute in Hc. discriminate.
Qed.

(** In connect4.js a reset does everything else the specification asks. *)
Lemma Numeric_reset_rest (g : Numeric.Game) :
  length (Numeric.board g) ≠ 0%nat →
  let g' := Numeric.startClick g in
  (∀ y x, cell (Numeric.board g') y x = VUndef) ∧
  Numeric.height g' = Numeric.height g ∧
  Numeric.width g' = Numeric.width g ∧
  Numeric.gameOver g' = false ∧
  Numeric.currPlayer g' = Numeric.currPlayer g.
Proof.
  intros Hlen. unfold Numeric.startClick.
  rewrite bool_decide_eq_true_2 by done. unfold Numeric.resetGame. simpl.
  destruct (Numeric.gameOver g) eqn:Hgo; simpl;
    (split; [apply (makeBoard_fresh _ _ NumericSpec.isPlayer)|done]).
Qed.

(** The Player variant resets the active player too. *)
Lemma Colored_reset_ok (g : Colored.Game) (c1 c2 : string) :
  length (Colored.board g) ≠ 0%nat →
  ColoredSpec.reset_okC g (Colored.startClick g c1 c2).
Proof.
  intros Hlen. unfold Colored.startClick, ColoredSpec.reset_okC.
  rewrite bool_decide_eq_true_2 by done. unfold Colored.resetGame. simpl.
  destruct (Colored.gameOver g) eqn:Hgo; simpl;
    (split; [intros y x _;
             apply (makeBoard_fresh _ _ (λ _, True))|done]).
Qed.

(** C8. Started with the same dimensions and given the same clicks, the two
    variants stay in correspondence: same dimensions and status, the turn of
    player 1 where [players[0]] is active and of player 2 where [players[1]]
    is, every cell Empty in both or held by corresponding players, tables
    with as many pieces per cell; and the next click raises in both or in
    neither and alerts the same messages. *)
Theorem C8_variants_equivalent (h w : Z) (c1 c2 : string) (xs : list Z) :
  let gn := Numeric.play (Numeric.startClick (Numeric.newGame h w)) xs in
  let gc :=
    Colored.play (Colored.startClick (Colored.newGame h w) c1 c2) xs in
  Corr.corr gn gc ∧
  (∃ p0 p1, ColoredSpec.two_players gc p0 p1 ∧
     ∀ y x, Corr.vcorr p0 p1 (cell (Numeric.board gn) y x)
                             (cell (Colored.board gc) y x)) ∧
  ∀ x, alerts (Numeric.handleClick gn x) = alerts (Colored.handleClick gc x) ∧
       threw (Numeric.handleClick gn x) = threw (Colored.handleClick gc x).
Proof.
  intros gn gc.
  assert (Hcorr : Corr.corr gn gc)
    by apply CorrFacts.play_corr, CorrFacts.startClick_corr.
  split; [done|]. split; [by apply CorrFacts.corr_cell|].
  intros x. by apply CorrFacts.handleClick_corr.
Qed.

(** C9. [checkForWin] returns the same on a board and on the board with its
    columns mirrored, cell [(y, x)] going to [(y, width - 1 - x)]; and a
    check list [_win] accepts has all its cells on the grid. *)
Theorem C9_win_mirror_symmetric (g : Numeric.Game) :
  rows_ok (Numeric.height g) (Numeric.board g) →
  Numeric.checkForWin (NumericSpec.mirror g) = Numeric.checkForWin g ∧
  (∀ y x, in_grid (Numeric.height g) (Numeric.width g) y x →
     cell (Numeric.board (NumericSpec.mirror g)) y x =
     cell (Numeric.board g) y (Numeric.width g - 1 - x)) ∧
  (∀ cells, Numeric._win g cells = Normal true →
     ∀ y x, (y, x) ∈ cells →
            in_grid (Numeric.height g) (Numeric.width g) y x).
Proof.
  intros Hb. split; [|split].
  - unfold Numeric.checkForWin, NumericSpec.mirror. simpl.
    by apply checkForWin_mirror.
  - intros y x [_ Hx]. unfold NumericSpec.mirror. simpl.
    rewrite mirrorBoard_cell. unfold flipKey.
    by rewrite bool_decide_eq_true_2.
  - intros cells. apply _win_in_grid.
Qed.

(** C10. In both variants the invariant holds in every state an event can
    find and survives a click on any column: every cell of the grid is Empty
    or holds one of the two players, and the turn designates one of them.  A
    click leaves each cell of the grid as it was, except that it may put the
    active player on a cell that was Empty. *)
Theorem C10_cells_hold_players_only :
  (∀ g, NumericSpec.reachable g → NumericSpec.inv g) ∧
  (∀ (g : Numeric.Game) (x : Z),
     NumericSpec.inv g →
     let g' := final (Numeric.handleClick g x) in
     NumericSpec.inv g' ∧
     (∀ y x', in_grid (Numeric.height g') (Numeric.width g') y x' →
        cell (Numeric.board g') y x' = VUndef ∨
        cell (Numeric.board g') y x' = VNum 1 ∨
        cell (Numeric.board g') y x' = VNum 2) ∧
     (Numeric.currPlayer g' = 1 ∨ Numeric.currPlayer g' = 2) ∧
     (∀ y x', in_grid (Numeric.height g) (Numeric.width g) y x' →
        cell (Numeric.board g') y x' = cell (Numeric.board g) y x' ∨
        (empty (Numeric.board g) y x' ∧
         cell (Numeric.board g') y x' = VNum (Numeric.currPlayer g)))) ∧
  (∀ g, ColoredSpec.reachableC g → ColoredSpec.invC g) ∧
  (∀ (g : Colored.Game) (x : Z),
     ColoredSpec.invC g →
     let g' := final (Colored.handleClick g x) in
     ColoredSpec.invC g' ∧
     (∃ p0 p1, ColoredSpec.two_players g' p0 p1 ∧
        ∀ y x', in_grid (Colored.height g') (Colored.width g') y x' →
          cell (Colored.board g') y x' = VUndef ∨
          cell (Colored.board g') y x' = VObj p0 ∨
          cell (Colored.board g') y x' = VObj p1) ∧
     (Colored.currPlayer g' = 0 ∨ Colored.currPlayer g' = 1) ∧
     (∀ y x', in_grid (Colored.height g) (Colored.width g) y x' →
        cell (Colored.board g') y x' = cell (Colored.board g) y x' ∨
        (empty (Colored.board g) y x' ∧
         cell (Colored.board g') y x' = Colored.activePlayer g))).
Proof.
  split; [exact NumericInv.reachable_inv|]. split.
  { intros g x Hinv g'.
    assert (Hinv' : NumericSpec.inv g') by by apply NumericInv.handleClick_inv.
    split; [done|]. split; [intros y x'; by apply NumericInv.inv_cell|].
    split; [apply Hinv'|]. intros y' x' Hg. subst g'.
    pose proof Hinv as (Hwf & _).
    destruct (NumericInv.handleClick_cases g x Hwf)
      as [[-> _]|(y & Hgo & Hfind & Hy & He & _)]; [by left|].
    destruct (NumericInv.handleClick_board g x y Hwf Hgo Hy Hfind) as [-> _].
    rewrite (NumericFacts.placed_cell _ _ _ _ _ Hwf Hy).
    case_decide as Heq; [|by left]. destruct Heq as [-> ->]. by right. }
  split; [exact ColoredFacts.reachable_inv_c|].
  intros g x Hinv g'.
  assert (Hinv' : ColoredSpec.invC g') by by apply ColoredFacts.handleClick_inv_c.
  split; [done|]. split.
  { pose proof Hinv' as ((Hb & _) & _ & p0 & p1 & H2 & Hrows).
    exists p0, p1. split; [done|]. intros y x' Hg.
    destruct (ColoredFacts.inv_cell_with g' p0 p1 y x' Hb H2 Hrows Hg); auto. }
  split; [apply Hinv'|]. intros y' x' Hg. subst g'.
  pose proof Hinv as (Hwf & _).
  destruct (ColoredFacts.handleClick_cases_c g x Hwf)
    as [[-> _]|(y & Hgo & Hfind & Hy & He & _)]; [by left|].
  rewrite (ColoredFacts.handleClick_board_c g x y Hinv Hgo Hy Hfind).
  rewrite (ColoredFacts.placed_cell_c _ _ _ _ _ Hwf Hy).
  case_decide as Heq; [|by left]. destruct Heq as [-> ->]. by right.
Qed.

(** ** The properties at concrete games *)

(** A fresh game satisfies the invariant. *)
Lemma fresh_inv (h w : Z) :
  NumericSpec.inv (Numeric.startClick (Numeric.newGame h w)).
Proof. apply NumericFacts.startClick_inv. left. eauto. Qed.

Lemma fresh_inv_c (h w : Z) (c1 c2 : string) :
  ColoredSpec.invC (Colored.startClick (Colored.newGame h w) c1 c2).
Proof. apply ColoredFacts.startClick_inv_c. left. eauto. Qed.

Lemma wonGame_over : Numeric.gameOver wonGame = true.
Proof. by vm_compute. Qed.

(** The scenario of the specification: the fourth piece of player 1 in
    column 0 wins, and column 0 holds player 1 in rows 5, 4, 3 and 2. *)
Example four_in_column_wins :
  alerts (Numeric.handleClick
            (Numeric.play freshGame [0; 1; 0; 1; 0; 1]) 0) =
    ["Player 1 won!"] ∧
  (λ y, cell (Numeric.board wonGame) y 0) <$> seqZ 0 6 =
    [VUndef; VUndef; VNum 1; VNum 1; VNum 1; VNum 1] ∧
  Numeric.currPlayer wonGame = 1.
Proof. by vm_compute. Qed.

(** Filling a 2 by 2 board ends in a tie on the last move. *)
Example small_board_ties :
  let g := Numeric.play (Numeric.startClick (Numeric.newGame 2 2)) [0; 0; 1] in
  Numeric.gameOver g = false ∧
  alerts (Numeric.handleClick g 1) = ["Tie!"] ∧
  Numeric.gameOver (final (Numeric.handleClick g 1)) = true.
Proof. by vm_compute. Qed.

(** The same win in the Player variant. *)
Example four_in_column_wins_c :
  alerts (Colored.handleClick
            (Colored.play
               (Colored.startClick (Colored.newGame 6 7) "red" "blue")
               [0; 1; 0; 1; 0; 1]) 0) = ["Player 1 won!"].
Proof. by vm_compute. Qed.

Lemma fullColumn_reachable : NumericSpec.reachable fullColumn.
Proof.
  exact (NumericSpec.reach_click _ 0
           (NumericSpec.reach_click _ 0 (NumericSpec.reach_start 2 2))).
Qed.

Lemma C1_drop_lowest_empty_witness :
  ∃ y, 0 ≤ y < Numeric.height freshGame ∧
       empty (Numeric.board freshGame) y 3 ∧
       (∀ y', y < y' < Numeric.height freshGame →
              ¬ empty (Numeric.board freshGame) y' 3) ∧
       cell (Numeric.board (final (Numeric.handleClick freshGame 3))) y 3 =
         VNum (Numeric.currPlayer freshGame) ∧
       (∀ y' x', (y', x') ≠ (y, 3) →
          cell (Numeric.board (final (Numeric.handleClick freshGame 3))) y' x' =
          cell (Numeric.board freshGame) y' x') ∧
       threw (Numeric.handleClick freshGame 3) = false.
Proof.
  apply (C1_drop_lowest_empty freshGame 3).
  - apply fresh_inv.
  - reflexivity.
  - simpl. lia.
  - exists 5. split; [simpl; lia|]. by vm_compute.
Defined.

Lemma C2_checkForWin_runs_witness :
  Numeric.checkForWin wonGame = Normal true ↔
  NumericSpec.has_run (Numeric.height wonGame) (Numeric.width wonGame)
    (Numeric.board wonGame) (Numeric.currPlayer wonGame).
Proof.
  apply (C2_checkForWin_runs wonGame). by vm_compute.
Defined.

Lemma C3_win_then_tie_then_turn_witness :
  Numeric.gameOver (final (Numeric.handleClick freshGame 3)) = false ↔
  Numeric.currPlayer (final (Numeric.handleClick freshGame 3)) ≠
  Numeric.currPlayer freshGame.
Proof.
  apply (C3_win_then_tie_then_turn freshGame 3).
  - apply fresh_inv.
  - reflexivity.
  - simpl. lia.
  - exists 5. split; [simpl; lia|]. by vm_compute.
Defined.

Lemma C4_game_over_noop_witness :
  Numeric.handleClick wonGame 0 = mkOutcome wonGame [] false.
Proof. apply (proj1 C4_game_over_noop wonGame 0). exact wonGame_over. Defined.

Lemma C5_full_column_ignored_witness :
  Numeric.findSpotForCol fullColumn 0 = Normal None ∧
  Numeric.handleClick fullColumn 0 = mkOutcome fullColumn [] false.
Proof.
  apply (C5_full_column_ignored fullColumn 0).
  - apply NumericInv.reachable_inv, fullColumn_reachable.
  - by vm_compute.
  - assert (Hh : Numeric.height fullColumn = 2) by by vm_compute.
    rewrite Hh. intros y Hy He.
    assert (y = 0 ∨ y = 1) as [-> | ->] by lia; vm_compute in He; discriminate.
Defined.

Lemma C6_invalid_column_grid_untouched_witness :
  Numeric.currPlayer (final (Numeric.handleClick freshGame 7)) =
  Numeric.currPlayer freshGame ∧
  threw (Numeric.handleClick freshGame 7) = true.
Proof.
  pose proof (C6_invalid_column_grid_untouched freshGame 7) as H.
  simpl in H.
  destruct H as (_ & Hc & _ & _ & _ & _ & Hthrew).
  - apply fresh_inv.
  - reflexivity.
  - lia.
  - split; [exact Hc|]. apply Hthrew. exists 5. split; [lia|]. by vm_compute.
Defined.

Lemma C9_win_mirror_symmetric_witness :
  Numeric.checkForWin (NumericSpec.mirror wonGame) =
  Numeric.checkForWin wonGame.
Proof. apply (C9_win_mirror_symmetric wonGame). by vm_compute. Defined.

Lemma C10_cells_hold_players_only_witness :
  NumericSpec.inv (final (Numeric.handleClick freshGame 7)).
Proof.
  apply (proj1 (proj2 C10_cells_hold_players_only) freshGame 7), fresh_inv.
Defined.

(** ** connect4.js: whole games *)

Module NumericGameFacts.
Import Numeric NumericSpec NumericFacts NumericInv NumericGame.

Lemma empty_not_truthy b y x : ¬ empty b y x ↔ truthy (cell b y x) = true.
Proof. unfold empty. destruct (truthy _); split; congruence. Qed.

(** Under the invariant an Empty cell of the grid holds [undefined]. *)
Lemma inv_empty_undef g y x :
  inv g → in_grid (height g) (width g) y x → empty (board g) y x →
  cell (board g) y x = VUndef.
Proof.
  intros Hinv Hg He. unfold empty in He.
  destruct (inv_cell g y x Hinv Hg) as [H|[H|H]]; [done|..];
    rewrite H in He; discriminate.
Qed.

(** The row a piece lands on is determined by the column. *)
Lemma lands_unique g y1 y2 x : lands g y1 x → lands g y2 x → y1 = y2.
Proof.
  intros (Hy1 & He1 & Hb1) (Hy2 & He2 & Hb2).
  destruct (Z.lt_trichotomy y1 y2) as [Hlt|[Heq|Hgt]]; [|done|].
  - destruct (Hb1 y2 ltac:(lia) He2).
  - destruct (Hb2 y1 ltac:(lia) He1).
Qed.

(** The table after a piece is placed on a cell of the grid. *)
Lemma shown_placed_html g y x :
  wf g → in_grid (height g) (width g) y x →
  ∃ pieces, html g !! (y, x) = Some pieces ∧
    html (shown (placed g y x) y x) =
    <[(y, x) := pieces ++ ["p" +:+ pretty (currPlayer g)]]> (html g).
Proof.
  intros [Hb Hh] Hg. destruct (placed_fields g y x) as (_ & _ & Hc & _ & Hhtml).
  unfold shown, placeInTable. rewrite Hhtml, Hc.
  destruct (placeInTable_in _ _ (html g) y x
              ("p" +:+ pretty (currPlayer g)) Hh Hg) as (pieces & Hp & ->).
  exists pieces. done.
Qed.

(** Every click takes one of the five paths of [click_result]. *)
Lemma handleClick_result g x :
  inv g → click_result g x (final (handleClick g x)).
Proof.
  intros Hinv. pose proof Hinv as (Hwf & _).
  destruct (handleClick_cases g x Hwf)
    as [[-> Hcase]|(y & Hgo & Hfind & Hy & He & Hbelow)].
  { apply click_ignored. destruct Hcase as [?|Hfull]; [by left|right].
    intros y Hy. apply empty_not_truthy. by apply Hfull. }
  assert (Hl : lands g y x).
  { split; [done|]. split; [done|]. intros y' Hy'.
    apply empty_not_truthy. by apply Hbelow. }
  destruct (handleClick_drop g x y Hwf Hgo Hy Hfind) as [Hout Hin].
  destruct (decide (0 ≤ x < width g)) as [Hx|Hx].
  - destruct (Hin Hx) as (won & _ & Hclick).
    destruct (handleClick_placed g x y Hinv Hgo Hy Hx Hfind)
      as (_ & _ & _ & _ & _ & Hwon & Htie & Hturn).
    destruct (placed_decidable g x y Hinv) as [[Hr|Hr] Hdec].
    + destruct (Hwon Hr) as (_ & _ & Ha). rewrite Hclick in *.
      destruct won; [by apply (click_won g x y)|].
      destruct (boardFull _); simpl in Ha; discriminate.
    + destruct Hdec as [Hf|Hf].
      * destruct (Htie Hr Hf) as (_ & _ & Ha). rewrite Hclick in *.
        destruct won; [simpl in Ha; discriminate|].
        destruct (boardFull _); [by apply (click_tied g x y)|].
        simpl in Ha. discriminate.
      * destruct (Hturn Hr Hf) as (_ & _ & Ha). rewrite Hclick in *.
        destruct won; [simpl in Ha; discriminate|].
        destruct (boardFull _); [simpl in Ha; discriminate|].
        by apply (click_next g x y).
  - rewrite (Hout Hx). by apply (click_off_grid g x y).
Qed.


Lemma forallb_false_lookup {A} (f : A → bool) (l : list A) :
  forallb f l = false → ∃ i a, l !! i = Some a ∧ f a = false.
Proof.
  induction l as [|a l IH]; simpl; [discriminate|].
  destruct (f a) eqn:Hfa; simpl.
  - intros H. destruct (IH H) as (i & a' & Hi & Ha'). by exists (S i), a'.
  - intros _. by exists 0%nat, a.
Qed.

(** When the tie test fails some cell of the grid is Empty. *)
Lemma boardFull_false_empty h w (P : value → Prop) b :
  (∀ v, P v → truthy v = true) →
  rows_ok h b → Forall (row_inv w P) b →
  boardFull b = false →
  ∃ y x, in_grid h w y x ∧ empty b y x.
Proof.
  intros HP Hb Hrows Hfull. unfold boardFull in Hfull.
  apply forallb_false_lookup in Hfull as (i & row & Hi & Hevery).
  unfold every in Hevery.
  apply forallb_false_lookup in Hevery as (j & k & _ & Hk).
  destruct (props row !! k) as [v|] eqn:Hv; [|discriminate].
  rewrite Forall_forall in Hrows.
  destruct (Hrows row (list_elem_of_lookup_2 _ _ _ Hi)) as (_ & _ & Hextra).
  assert (Hgrid : 0 ≤ k < w).
  { destruct (decide (0 ≤ k < w)) as [?|Hout]; [done|].
    rewrite (HP v (Hextra k v Hv Hout)) in Hk. discriminate. }
  assert (Hrow : rowAt b (Z.of_nat i) = Some row).
  { unfold rowAt. rewrite bool_decide_eq_true_2 by lia. by rewrite Nat2Z.id. }
  exists (Z.of_nat i), k. split.
  - split; [|done]. apply lookup_lt_Some in Hi. unfold rows_ok in Hb. lia.
  - unfold empty. rewrite (rowAt_cell _ _ _ _ Hrow). unfold aget.
    by rewrite Hv.
Qed.

Lemma makeHtmlBoard_fresh h w y x :
  in_grid h w y x → makeHtmlBoard h w ∅ !! (y, x) = Some [].
Proof.
  intros Hg.
  assert (Hs : is_Some (makeHtmlBoard h w ∅ !! (y, x)))
    by (apply makeHtmlBoard_lookup; by right).
  destruct Hs as [pieces Hp]. rewrite Hp. f_equal.
  unfold makeHtmlBoard in Hp. rewrite (left_id_L ∅ (∪)) in Hp.
  apply elem_of_list_to_map_2 in Hp.
  apply list_elem_of_bind in Hp as (y' & Hp & _).
  apply list_elem_of_bind in Hp as (x' & Hp & _).
  by apply list_elem_of_singleton in Hp as [= _ _ ->].
Qed.

(** A click on Start leaves the game as it is when there is no board to
    reset and none to build. *)
Lemma startClick_no_board g :
  inv g → board g = [] → startClick g = g.
Proof.
  intros ((Hb & _) & _) Hnil. destruct g as [h w p b go html].
  simpl in *. subst b. unfold rows_ok in Hb. simpl in Hb.
  unfold startClick, set_board, set_html. simpl.
  rewrite makeBoard_replicate. replace (Z.to_nat h) with 0%nat by lia.
  unfold makeHtmlBoard. rewrite (seqZ_nil 0 h) by lia. simpl.
  by rewrite (right_id_L ∅ (∪)).
Qed.

(** Otherwise it leaves a fresh game with the active player of before. *)
Lemma startClick_freshState g :
  (∃ h w, g = newGame h w) ∨ board g ≠ [] →
  startClick g = freshState (height g) (width g) (currPlayer g).
Proof.
  intros [(h & w & ->)|Hne]; unfold startClick.
  { rewrite bool_decide_eq_false_2; [done|]. simpl. intros H. by apply H. }
  rewrite bool_decide_eq_true_2
    by (destruct (board g); [by destruct Hne|simpl; lia]).
  destruct g as [h w p b go html]. unfold resetGame. simpl. by destruct go.
Qed.

(** To show a property of every state an event can find, show it of fresh
    games and show that a click keeps it. *)
Lemma reachable_fresh_click (P : Game → Prop) :
  (∀ h w p, p = 1 ∨ p = 2 → P (freshState h w p)) →
  (∀ g x, reachable g → P g → P (final (handleClick g x))) →
  ∀ g, reachable g → P g.
Proof.
  intros Hfresh Hclick g Hr. induction Hr as [h w|g Hr IH|g x Hr IH].
  - rewrite startClick_freshState by (left; eauto). apply Hfresh. by left.
  - destruct (board g) as [|row b] eqn:Hb.
    + rewrite startClick_no_board; [done|by apply reachable_inv|done].
    + rewrite startClick_freshState by (right; by rewrite Hb).
      apply Hfresh. by apply reachable_inv.
  - by apply Hclick.
Qed.

Lemma freshState_cell h w p y x : cell (board (freshState h w p)) y x = VUndef.
Proof. apply (makeBoard_fresh h w isPlayer). Qed.

Lemma freshState_inv h w p : p = 1 ∨ p = 2 → inv (freshState h w p).
Proof.
  intros Hp. destruct (makeBoard_fresh h w isPlayer) as (Hrows & Hinv & _).
  split; [split; [done|]|done].
  intros y x. change (html (freshState h w p)) with (makeHtmlBoard h w ∅).
  rewrite makeHtmlBoard_lookup, lookup_empty.
  split; [intros [[? [=]]|?]; done|auto].
Qed.

(** A run on a board is a run on any board that shows the same grid. *)
Lemma has_run_same_grid h w b1 b2 p :
  same_grid h w b1 b2 → has_run h w b1 p → has_run h w b2 p.
Proof.
  intros Hs (y & x & d & Hrun). exists y, x, d. intros i Hi.
  destruct (Hrun i Hi) as [Hg Hc]. split; [done|]. by rewrite <- (Hs _ _ Hg).
Qed.

Lemma full_same_grid h w b1 b2 :
  same_grid h w b1 b2 → full h w b1 → full h w b2.
Proof. intros Hs Hf y x Hg. rewrite <- (Hs _ _ Hg). by apply Hf. Qed.

(** A placement off the grid leaves the grid as it was. *)
Lemma placed_off_grid g y x :
  wf g → 0 ≤ y < height g → ¬ (0 ≤ x < width g) →
  same_grid (height g) (width g) (board g) (board (placed g y x)).
Proof.
  intros Hwf Hy Hx y' x' [_ Hx']. rewrite (placed_cell _ _ _ _ _ Hwf Hy).
  rewrite decide_False; [done|]. intros [_ ->]. done.
Qed.

(** The fields of the three states a placement on the grid can end in. *)
Lemma shown_placed_fields g y x :
  let g2 := shown (placed g y x) y x in
  height g2 = height g ∧ width g2 = width g ∧ currPlayer g2 = currPlayer g ∧
  gameOver g2 = gameOver g ∧ board g2 = board (placed g y x).
Proof.
  intros g2. subst g2.
  destruct (shown_fields (placed g y x) y x) as (H1 & H2 & H3 & H4 & H5).
  destruct (placed_fields g y x) as (K1 & K2 & K3 & K4 & _).
  rewrite H1, H2, H3, H4, H5, K1, K2, K3, K4. done.
Qed.

End NumericGameFacts.

Module NumericGameInv.
Import Numeric NumericSpec NumericFacts NumericInv NumericGame.
Import NumericGameFacts.

(** What a click leaves, field by field: nothing changed, or a piece was
    placed at the row it lands on and then exactly one of four things
    happened. *)
Lemma click_summary g x :
  inv g →
  let g' := final (handleClick g x) in
  g' = g ∨
  ∃ y, gameOver g = false ∧ lands g y x ∧
       height g' = height g ∧ width g' = width g ∧
       board g' = board (placed g y x) ∧
       ((¬ (0 ≤ x < width g) ∧ html g' = html g ∧
         currPlayer g' = currPlayer g ∧ gameOver g' = false) ∨
        (0 ≤ x < width g ∧
         (∃ pieces, html g !! (y, x) = Some pieces ∧
            html g' =
            <[(y, x) := pieces ++ ["p" +:+ pretty (currPlayer g)]]> (html g)) ∧
         ((has_run (height g) (width g) (board g') (currPlayer g) ∧
           gameOver g' = true ∧ currPlayer g' = currPlayer g) ∨
          (¬ has_run (height g) (width g) (board g') (currPlayer g) ∧
           full (height g) (width g) (board g') ∧
           gameOver g' = true ∧ currPlayer g' = currPlayer g) ∨
          (¬ has_run (height g) (width g) (board g') (currPlayer g) ∧
           ¬ full (height g) (width g) (board g') ∧
           gameOver g' = false ∧
           currPlayer g' = other (currPlayer g))))).
Proof.
  intros Hinv g'. subst g'. pose proof Hinv as (Hwf & _).
  destruct (handleClick_result g x Hinv)
    as [Hcase|y Hgo Hl Hx|y Hgo Hl Hx Hrun|y Hgo Hl Hx Hrun Hfull
        |y Hgo Hl Hx Hrun Hfull]; [by left|right; exists y..].
  - destruct (placed_fields g y x) as (Hh & Hw & Hc & Hg & Hhtml).
    split; [done|]. split; [done|]. split; [done|]. split; [done|].
    split; [done|]. left. split; [done|]. split; [done|]. split; [done|].
    congruence.
  - destruct (shown_placed_fields g y x) as (Hh & Hw & Hc & Hg & Hb).
    destruct (shown_placed_html g y x Hwf (conj (proj1 Hl) Hx))
      as (pieces & Hp & Hhtml).
    split; [done|]. split; [done|]. split; [done|]. split; [done|].
    split; [done|]. right. split; [done|]. split; [by exists pieces|].
    left. simpl. rewrite Hb. done.
  - destruct (shown_placed_fields g y x) as (Hh & Hw & Hc & Hg & Hb).
    destruct (shown_placed_html g y x Hwf (conj (proj1 Hl) Hx))
      as (pieces & Hp & Hhtml).
    split; [done|]. split; [done|]. split; [done|]. split; [done|].
    split; [done|]. right. split; [done|]. split; [by exists pieces|].
    right. left. simpl. rewrite Hb. done.
  - destruct (shown_placed_fields g y x) as (Hh & Hw & Hc & Hg & Hb).
    destruct (shown_placed_html g y x Hwf (conj (proj1 Hl) Hx))
      as (pieces & Hp & Hhtml).
    split; [done|]. split; [done|]. split; [done|]. split; [done|].
    split; [done|]. right. split; [done|]. split; [by exists pieces|].
    right. right. simpl. rewrite Hb. split; [done|]. split; [done|].
    split; [congruence|done].
Qed.

(** The cells after the placement of a click. *)
Lemma placed_cell_lands g y x y' x' :
  inv g → lands g y x →
  cell (board (placed g y x)) y' x' =
  if decide (y' = y ∧ x' = x) then VNum (currPlayer g)
  else cell (board g) y' x'.
Proof. intros (Hwf & _) (Hy & _). by apply placed_cell. Qed.

(** The table shows the board after a click if it did before. *)
Lemma table_shows_click g x :
  inv g → table_shows g → table_shows (final (handleClick g x)).
Proof.
  intros Hinv Ht.
  destruct (click_summary g x Hinv)
    as [->|(y & Hgo & Hl & Hh & Hw & Hb & Hcase)]; [done|].
  intros y0 x0 Hg. rewrite Hh, Hw in Hg. rewrite Hb.
  rewrite (placed_cell_lands g y x y0 x0 Hinv Hl).
  destruct Hcase as [(Hx & -> & _)|(Hx & (pieces & Hp & ->) & _)].
  - rewrite decide_False; [by apply Ht|]. intros [_ ->]. by destruct Hg.
  - destruct (decide (y0 = y ∧ x0 = x)) as [[-> ->]|Hne].
    + rewrite lookup_insert_eq. rewrite (Ht y x Hg) in Hp.
      rewrite (inv_empty_undef g y x Hinv Hg) in Hp by apply Hl.
      by injection Hp as <-.
    + rewrite lookup_insert_ne; [by apply Ht|].
      intros [= -> ->]. by destruct Hne.
Qed.

Lemma reachable_table_shows g : reachable g → table_shows g.
Proof.
  revert g. apply (reachable_fresh_click table_shows).
  - intros h w p _ y x Hg.
    change (html (freshState h w p)) with (makeHtmlBoard h w ∅).
    rewrite (makeHtmlBoard_fresh h w y x Hg). by rewrite freshState_cell.
  - intros g x Hr. apply table_shows_click. by apply reachable_inv.
Qed.

(** No piece floats after a click if none did before. *)
Lemma stacked_click g x :
  inv g → stacked (height g) (board g) →
  stacked (height (final (handleClick g x)))
          (board (final (handleClick g x))).
Proof.
  intros Hinv Hs.
  destruct (click_summary g x Hinv)
    as [->|(y & Hgo & Hl & Hh & Hw & Hb & _)]; [done|].
  rewrite Hh, Hb. intros y0 y1 x0 Hy0 Hy1. unfold empty.
  rewrite !(placed_cell_lands g y x _ x0 Hinv Hl).
  destruct (decide (y1 = y ∧ x0 = x)) as [[-> ->]|Hne1].
  { intros _. destruct Hinv as (_ & [-> | ->] & _); discriminate. }
  destruct (decide (y0 = y ∧ x0 = x)) as [[-> ->]|Hne0].
  - intros _. apply Hl. lia.
  - by apply Hs.
Qed.

Lemma reachable_stacked g : reachable g → stacked (height g) (board g).
Proof.
  revert g. apply (reachable_fresh_click (λ g, stacked (height g) (board g))).
  - intros h w p _ y y' x _ _ He. destruct He. unfold empty.
    by rewrite freshState_cell.
  - intros g x Hr. apply stacked_click. by apply reachable_inv.
Qed.

(** A run of the placed board that misses the placed cell was a run
    before. *)
Lemma run_held_before g y x p y0 x0 d :
  inv g → lands g y x →
  (∀ i, 0 ≤ i ≤ 3 →
     ¬ (y0 + i * (delta d).1 = y ∧ x0 + i * (delta d).2 = x)) →
  run_held (height g) (width g) (board (placed g y x)) p y0 x0 d →
  run_held (height g) (width g) (board g) p y0 x0 d.
Proof.
  intros Hinv Hl Hmiss Hrun i Hi. destruct (Hrun i Hi) as [Hg Hc].
  split; [done|]. rewrite (placed_cell_lands g y x _ _ Hinv Hl) in Hc.
  by rewrite decide_False in Hc by by apply Hmiss.
Qed.

(** A run the placed board shows for a player other than the mover was a
    run before. *)
Lemma run_held_not_mover g y x p y0 x0 d :
  inv g → lands g y x → p ≠ currPlayer g →
  run_held (height g) (width g) (board (placed g y x)) p y0 x0 d →
  run_held (height g) (width g) (board g) p y0 x0 d.
Proof.
  intros Hinv Hl Hp Hrun. apply (run_held_before g y x); try done.
  intros i Hi Heq. destruct (Hrun i Hi) as [_ Hc].
  rewrite (placed_cell_lands g y x _ _ Hinv Hl), decide_True in Hc by done.
  congruence.
Qed.

Lemma runs_settled_click g x :
  inv g → runs_settled g → runs_settled (final (handleClick g x)).
Proof.
  intros Hinv Hs.
  destruct (click_summary g x Hinv)
    as [->|(y & Hgo & Hl & Hh & Hw & Hb & Hcase)]; [done|].
  intros p Hrun. rewrite Hh, Hw, Hb in Hrun.
  assert (Hmover : p = currPlayer g).
  { destruct (decide (p = currPlayer g)) as [?|Hne]; [done|].
    destruct Hrun as (y0 & x0 & d & Hrun).
    apply (run_held_not_mover g y x) in Hrun; [|done..].
    destruct (Hs p) as [Hover _]; [by exists y0, x0, d|congruence]. }
  subst p. rewrite <- Hb in Hrun.
  destruct Hcase as [(Hx & _ & _ & _)|(_ & _ & [H|[H|H]])].
  - rewrite Hb in Hrun.
    apply (has_run_same_grid _ _ _ (board g)) in Hrun.
    + destruct (Hs _ Hrun). congruence.
    + intros y0 x0 Hg. symmetry.
      by apply (placed_off_grid g y x (proj1 Hinv) (proj1 Hl) Hx).
  - by destruct H as (_ & -> & ->).
  - by destruct H as (Hno & _).
  - by destruct H as (Hno & _).
Qed.

Lemma reachable_runs_settled g : reachable g → runs_settled g.
Proof.
  revert g. apply (reachable_fresh_click runs_settled).
  - intros h w p _ q (y & x & d & Hrun).
    destruct (Hrun 0 ltac:(lia)) as [_ Hc]. rewrite freshState_cell in Hc.
    discriminate.
  - intros g x Hr. apply runs_settled_click. by apply reachable_inv.
Qed.

Lemma has_room_click g x :
  inv g → has_room g → has_room (final (handleClick g x)).
Proof.
  intros Hinv Hroom. pose proof (handleClick_inv g x Hinv) as Hinv'.
  destruct (click_summary g x Hinv)
    as [->|(y & Hgo & Hl & Hh & Hw & Hb & Hcase)]; [done|].
  intros Hgo' Hh' Hw'. rewrite Hh, Hw in *.
  destruct Hcase as [(Hx & _)|(_ & _ & [H|[H|H]])].
  - destruct (Hroom Hgo Hh' Hw') as (y0 & x0 & Hg & He).
    exists y0, x0. split; [done|]. unfold empty. rewrite Hb.
    by rewrite <- (placed_off_grid g y x (proj1 Hinv) (proj1 Hl) Hx _ _ Hg).
  - destruct H as (_ & H & _). congruence.
  - destruct H as (_ & _ & H & _). congruence.
  - destruct H as (_ & Hnot & _).
    destruct Hinv' as ((Hrows & _) & _ & Hrinv).
    rewrite Hh, Hw in *.
    destruct (boardFull (board (final (handleClick g x)))) eqn:Hbf.
    + destruct Hnot.
      by apply (boardFull_spec _ _ isPlayer _ isPlayer_truthy Hrows Hrinv).
    + by apply (boardFull_false_empty _ _ isPlayer _ isPlayer_truthy).
Qed.

Lemma reachable_has_room g : reachable g → has_room g.
Proof.
  revert g. apply (reachable_fresh_click has_room).
  - intros h w p _ _ Hh Hw. exists 0, 0. split.
    + unfold in_grid. simpl in *. lia.
    + unfold empty. by rewrite freshState_cell.
  - intros g x Hr. apply has_room_click. by apply reachable_inv.
Qed.

Lemma over_for_cause_click g x :
  inv g → over_for_cause g → over_for_cause (final (handleClick g x)).
Proof.
  intros Hinv Hover.
  destruct (click_summary g x Hinv)
    as [->|(y & Hgo & Hl & Hh & Hw & Hb & Hcase)]; [done|].
  intros Hgo'. rewrite Hh, Hw.
  destruct Hcase as [(_ & _ & _ & H)|(Hx & _ & [H|[H|H]])].
  - congruence.
  - destruct H as (Hrun & _ & ->). by left.
  - destruct H as (_ & Hfull & _). right. split; [done|].
    destruct Hl as (Hy & _). lia.
  - destruct H as (_ & _ & H & _). congruence.
Qed.

Lemma reachable_over_for_cause g : reachable g → over_for_cause g.
Proof.
  revert g. apply (reachable_fresh_click over_for_cause).
  - intros h w p _ [=].
  - intros g x Hr. apply over_for_cause_click. by apply reachable_inv.
Qed.

(** A run either goes through a given cell or misses it at all four
    steps. *)
Lemma run_hits_or_misses y0 x0 d y x :
  (∃ i, 0 ≤ i ≤ 3 ∧
        y0 + i * (delta d).1 = y ∧ x0 + i * (delta d).2 = x) ∨
  (∀ i, 0 ≤ i ≤ 3 →
        ¬ (y0 + i * (delta d).1 = y ∧ x0 + i * (delta d).2 = x)).
Proof.
  set (Q := λ i, y0 + i * (delta d).1 = y ∧ x0 + i * (delta d).2 = x).
  destruct (decide (Q 0)) as [?|H0]; [left; exists 0; split; [lia|done]|].
  destruct (decide (Q 1)) as [?|H1]; [left; exists 1; split; [lia|done]|].
  destruct (decide (Q 2)) as [?|H2]; [left; exists 2; split; [lia|done]|].
  destruct (decide (Q 3)) as [?|H3]; [left; exists 3; split; [lia|done]|].
  right. intros i Hi.
  assert (i = 0 ∨ i = 1 ∨ i = 2 ∨ i = 3) as [-> | [-> | [-> | ->]]] by lia;
    done.
Qed.

(** The row [findSpotForCol] returns is the row a piece lands on. *)
Lemma findSpotForCol_lands g x :
  wf g →
  (∃ y, findSpotForCol g x = Normal (Some y) ∧ lands g y x) ∨
  (findSpotForCol g x = Normal None ∧
   ∀ y, 0 ≤ y < height g → ¬ empty (board g) y x).
Proof.
  intros [Hb _].
  destruct (findSpotForCol_spec (height g) (board g) x Hb)
    as ([y|] & Hfind & Hspec).
  - left. exists y. split; [done|]. destruct Hspec as (Hy & He & Hbelow).
    split; [done|]. split; [done|]. intros y' Hy'.
    apply empty_not_truthy. by apply Hbelow.
  - right. split; [done|]. intros y Hy. apply empty_not_truthy. by apply Hspec.
Qed.

End NumericGameInv.

(** ** Further properties of connect4.js *)

(** X1. A click on Start, on a new game or in any state an event can find,
    leaves a game in progress with the same dimensions and active player,
    whose board is [height] rows of [width] cells that are all [undefined],
    and whose table has one cell without pieces for each cell of the grid. *)
Theorem X1_start_builds_empty_board (g : Numeric.Game) :
  (∃ h w, g = Numeric.newGame h w) ∨ NumericSpec.reachable g →
  let g' := Numeric.startClick g in
  NumericSpec.inv g' ∧
  Numeric.board g' =
    replicate (Z.to_nat (Numeric.height g)) (arrayFrom (Numeric.width g)) ∧
  (∀ y x, cell (Numeric.board g') y x = VUndef) ∧
  (∀ y x, in_grid (Numeric.height g) (Numeric.width g) y x →
          Numeric.html g' !! (y, x) = Some []) ∧
  Numeric.gameOver g' = false ∧
  Numeric.height g' = Numeric.height g ∧
  Numeric.width g' = Numeric.width g ∧
  Numeric.currPlayer g' = Numeric.currPlayer g.
Proof.
  intros Hg g'.
  assert (Hcase : g' = NumericGame.freshState (Numeric.height g)
                         (Numeric.width g) (Numeric.currPlayer g) ∨
                  (g' = g ∧ NumericSpec.reachable g ∧ Numeric.board g = [])).
  { subst g'. destruct Hg as [Hnew|Hr].
    - left. apply NumericGameFacts.startClick_freshState. by left.
    - destruct (Numeric.board g) as [|row b] eqn:Hb.
      + right. split; [|done].
        apply NumericGameFacts.startClick_no_board; [|done].
        by apply NumericInv.reachable_inv.
      + left. apply NumericGameFacts.startClick_freshState. right.
        by rewrite Hb. }
  assert (Hinv : NumericSpec.inv g').
  { subst g'. apply NumericFacts.startClick_inv.
    destruct Hg as [?|Hr]; [by left|right; by apply NumericInv.reachable_inv]. }
  split; [done|]. destruct Hcase as [->|(-> & Hr & Hnil)].
  - split; [apply makeBoard_replicate|].
    split; [apply NumericGameFacts.freshState_cell|].
    split; [apply NumericGameFacts.makeHtmlBoard_fresh|done].
  - destruct Hinv as ((Hrows & _) & _). unfold rows_ok in Hrows.
    rewrite Hnil in Hrows. simpl in Hrows.
    split; [by replace (Z.to_nat (Numeric.height g)) with 0%nat by lia|].
    split; [intros y x; unfold cell, rowAt; rewrite Hnil;
            case_bool_decide; by rewrite ?lookup_nil|].
    split; [intros y x [Hy _]; lia|].
    split; [|done].
    destruct (Numeric.gameOver g) eqn:Hgo; [|done].
    destruct (NumericGameInv.reachable_over_for_cause g Hr Hgo)
      as [(y & x & d & Hrun)|(_ & Hh & _)]; [|lia].
    destruct (Hrun 0 ltac:(lia)) as [[Hy _] _]. lia.
Qed.

(** X2. In every state an event can find, the table shows the board: the
    table cell of each cell of the grid holds exactly the piece of class
    [p1] or [p2] of the player on that cell, no piece when the cell is
    Empty, and the table has no other cell. *)
Theorem X2_table_shows_board (g : Numeric.Game) :
  NumericSpec.reachable g →
  ∀ y x,
    (in_grid (Numeric.height g) (Numeric.width g) y x →
     Numeric.html g !! (y, x) =
     Some (NumericGame.pieceOf (cell (Numeric.board g) y x))) ∧
    (¬ in_grid (Numeric.height g) (Numeric.width g) y x →
     Numeric.html g !! (y, x) = None).
Proof.
  intros Hr y x. split.
  - by apply NumericGameInv.reachable_table_shows.
  - intros Hout. destruct (NumericInv.reachable_inv g Hr) as ((_ & Hh) & _).
    destruct (Numeric.html g !! (y, x)) as [pieces|] eqn:Hp; [|done].
    destruct Hout. apply Hh. by rewrite Hp.
Qed.

(** X3. In every state an event can find no piece floats: at every key,
    on or off the grid, every row below an occupied cell is occupied. *)
Theorem X3_pieces_are_stacked (g : Numeric.Game) :
  NumericSpec.reachable g →
  ∀ y y' x, 0 ≤ y → y < y' < Numeric.height g →
            ¬ empty (Numeric.board g) y x → ¬ empty (Numeric.board g) y' x.
Proof. apply NumericGameInv.reachable_stacked. Qed.

(** X4. In every state an event can find, a player that holds four in a row
    is the active player of a finished game; and a run found after a click
    on a game in progress belongs to the player who moved and goes through
    the cell the piece landed on, so scanning the whole board finds nothing
    that the lines through the last move would not. *)
Theorem X4_runs_go_through_last_move (g : Numeric.Game) :
  NumericSpec.reachable g →
  (∀ p, NumericSpec.has_run (Numeric.height g) (Numeric.width g)
          (Numeric.board g) p →
        Numeric.gameOver g = true ∧ p = Numeric.currPlayer g) ∧
  (∀ x y p y0 x0 d,
     Numeric.gameOver g = false →
     NumericGame.lands g y x →
     NumericSpec.run_held (Numeric.height g) (Numeric.width g)
       (Numeric.board (final (Numeric.handleClick g x))) p y0 x0 d →
     p = Numeric.currPlayer g ∧
     ∃ i, 0 ≤ i ≤ 3 ∧
          y0 + i * (delta d).1 = y ∧ x0 + i * (delta d).2 = x).
Proof.
  intros Hr. pose proof (NumericGameInv.reachable_runs_settled g Hr) as Hs.
  split; [done|]. intros x y p y0 x0 d Hgo Hl Hrun.
  pose proof (NumericInv.reachable_inv g Hr) as Hinv.
  assert (Hnone : ∀ q y1 x1 d1,
            ¬ NumericSpec.run_held (Numeric.height g) (Numeric.width g)
                (Numeric.board g) q y1 x1 d1).
  { intros q y1 x1 d1 H. destruct (Hs q) as [Hover _]; [by eexists _, _, _|].
    congruence. }
  destruct (NumericGameInv.click_summary g x Hinv)
    as [Heq|(y' & _ & Hl' & _ & _ & Hb & _)].
  { simpl in Heq. rewrite Heq in Hrun. destruct (Hnone _ _ _ _ Hrun). }
  rewrite (NumericGameFacts.lands_unique g y' y x Hl' Hl) in Hb.
  simpl in Hb. rewrite Hb in Hrun. split.
  - destruct (decide (p = Numeric.currPlayer g)) as [?|Hne]; [done|].
    destruct (Hnone p y0 x0 d).
    by apply (NumericGameInv.run_held_not_mover g y x).
  - destruct (NumericGameInv.run_hits_or_misses y0 x0 d y x) as [?|Hmiss];
      [done|].
    destruct (Hnone p y0 x0 d).
    by apply (NumericGameInv.run_held_before g y x).
Qed.

(** X5. In every state an event can find, the game is over exactly when the
    active player holds four in a row or the board has cells and none of
    them is Empty. *)
Theorem X5_over_iff_won_or_full (g : Numeric.Game) :
  NumericSpec.reachable g →
  Numeric.gameOver g = true ↔
  NumericSpec.has_run (Numeric.height g) (Numeric.width g)
    (Numeric.board g) (Numeric.currPlayer g) ∨
  (full (Numeric.height g) (Numeric.width g) (Numeric.board g) ∧
   0 < Numeric.height g ∧ 0 < Numeric.width g).
Proof.
  intros Hr. split.
  - by apply NumericGameInv.reachable_over_for_cause.
  - intros [Hrun|(Hfull & Hh & Hw)].
    + by apply (NumericGameInv.reachable_runs_settled g Hr) in Hrun as [? _].
    + destruct (Numeric.gameOver g) eqn:Hgo; [done|].
      destruct (NumericGameInv.reachable_has_room g Hr Hgo Hh Hw)
        as (y & x & Hg & He).
      unfold empty in He. rewrite (Hfull y x Hg) in He. discriminate.
Qed.

(** X6. A game in progress on a board with cells is never stuck: some
    column of the grid has an Empty cell, [findSpotForCol] returns its
    lowest one, and a click there places the active player on it without
    raising. *)
Theorem X6_game_in_progress_has_a_move (g : Numeric.Game) :
  NumericSpec.reachable g →
  Numeric.gameOver g = false →
  0 < Numeric.height g → 0 < Numeric.width g →
  ∃ x y, 0 ≤ x < Numeric.width g ∧
         NumericGame.lands g y x ∧
         Numeric.findSpotForCol g x = Normal (Some y) ∧
         threw (Numeric.handleClick g x) = false ∧
         cell (Numeric.board (final (Numeric.handleClick g x))) y x =
           VNum (Numeric.currPlayer g).
Proof.
  intros Hr Hgo Hh Hw. pose proof (NumericInv.reachable_inv g Hr) as Hinv.
  pose proof Hinv as (Hwf & _).
  destruct (NumericGameInv.reachable_has_room g Hr Hgo Hh Hw)
    as (y0 & x & [Hy0 Hx] & He).
  destruct (NumericGameInv.findSpotForCol_lands g x Hwf)
    as [(y & Hfind & Hl)|[_ Hfull]]; [|destruct (Hfull y0 Hy0 He)].
  exists x, y. split; [done|]. split; [done|]. split; [done|].
  destruct (NumericInv.handleClick_board g x y Hwf Hgo (proj1 Hl) Hfind)
    as [Hb Hthrew].
  split; [by apply Hthrew|]. rewrite Hb.
  rewrite (NumericFacts.placed_cell g y x y x Hwf (proj1 Hl)).
  by rewrite decide_True.
Qed.

(** ** Properties of single calls, in both variants *)

Section CallFacts.
Implicit Types (b : board_t) (h w : Z) (me : value).

(** A winning run needs four columns in a row, or four rows in a column. *)
Lemma winning_needs_four h w b me y x d :
  winning h w b me y x d → (4 ≤ w ∧ 1 ≤ h) ∨ (4 ≤ h ∧ 1 ≤ w).
Proof.
  intros Hw. destruct (Hw 0 ltac:(lia)) as [[Hy0 Hx0] _].
  destruct (Hw 3 ltac:(lia)) as [[Hy3 Hx3] _].
  destruct d; simpl in *; lia.
Qed.

Lemma checkForWin_needs_four h w b me :
  rows_ok h b → checkForWin h w b me = Normal true →
  (4 ≤ w ∧ 1 ≤ h) ∨ (4 ≤ h ∧ 1 ≤ w).
Proof.
  intros Hb Hwin. destruct (checkForWin_spec h w b me Hb) as (r & Hr & Hiff).
  rewrite Hwin in Hr. injection Hr as <-.
  destruct (proj1 Hiff eq_refl) as (y & x & d & Hw).
  by apply (winning_needs_four h w b me y x d).
Qed.

End CallFacts.

(** X7. [checkForWin] can only be true on a board with at least four columns
    and a row, or at least four rows and a column; so on a board with fewer
    than four rows and fewer than four columns no click announces a win: a
    click alerts nothing or a tie. *)
Theorem X7_win_needs_four_in_a_line :
  (∀ h w (b : board_t) me,
     rows_ok h b → Shared.checkForWin h w b me = Normal true →
     (4 ≤ w ∧ 1 ≤ h) ∨ (4 ≤ h ∧ 1 ≤ w)) ∧
  (∀ (g : Numeric.Game) (x : Z),
     NumericSpec.wf g → Numeric.height g < 4 → Numeric.width g < 4 →
     alerts (Numeric.handleClick g x) = [] ∨
     alerts (Numeric.handleClick g x) = ["Tie!"]) ∧
  (∀ (g : Colored.Game) (x : Z),
     ColoredSpec.invC g → Colored.height g < 4 → Colored.width g < 4 →
     alerts (Colored.handleClick g x) = [] ∨
     alerts (Colored.handleClick g x) = ["Tie!"]).
Proof.
  split; [exact checkForWin_needs_four|]. split.
  - intros g x Hwf Hh Hw.
    destruct (NumericInv.handleClick_cases g x Hwf)
      as [[-> _]|(y & Hgo & Hfind & Hy & _)]; [by left|].
    destruct (NumericFacts.handleClick_drop g x y Hwf Hgo Hy Hfind)
      as [Hout Hin].
    destruct (decide (0 ≤ x < Numeric.width g)) as [Hx|Hx];
      [|rewrite (Hout Hx); by left].
    destruct (Hin Hx) as (won & Hwon & ->). destruct won.
    + set (g2 := NumericSpec.shown (NumericSpec.placed g y x) y x) in *.
      assert (Hrows : rows_ok (Numeric.height g2) (Numeric.board g2))
        by apply NumericFacts.shown_wf, NumericFacts.placed_wf, Hwf.
      pose proof (checkForWin_needs_four (Numeric.height g2)
                    (Numeric.width g2) (Numeric.board g2)
                    (VNum (Numeric.currPlayer g2)) Hrows Hwon) as Hfour.
      destruct (NumericFacts.shown_fields (NumericSpec.placed g y x) y x)
        as (Hh2 & Hw2 & _).
      destruct (NumericFacts.placed_fields g y x) as (Hh1 & Hw1 & _).
      fold g2 in Hh2, Hw2. lia.
    + destruct (boardFull _); [by right|by left].
  - intros g x Hinv Hh Hw. pose proof Hinv as (Hwf & _).
    destruct (ColoredFacts.handleClick_cases_c g x Hwf)
      as [[-> _]|(y & Hgo & Hfind & Hy & _)]; [by left|].
    destruct (ColoredFacts.handleClick_drop_c g x y Hinv Hgo Hy Hfind)
      as [Hout Hin].
    destruct (decide (0 ≤ x < Colored.width g)) as [Hx|Hx];
      [|rewrite (Hout Hx); by left].
    destruct (Hin Hx) as (won & Hwon & ->). destruct won.
    + set (g2 := ColoredSpec.shownC (ColoredSpec.placedC g y x) y x) in *.
      assert (Hrows : rows_ok (Colored.height g2) (Colored.board g2))
        by apply ColoredFacts.shown_wf_c, ColoredFacts.placed_wf_c, Hwf.
      pose proof (checkForWin_needs_four (Colored.height g2)
                    (Colored.width g2) (Colored.board g2)
                    (Colored.activePlayer g2) Hrows Hwon) as Hfour.
      destruct (ColoredFacts.shown_fields_c (ColoredSpec.placedC g y x) y x)
        as (Hh2 & Hw2 & _).
      destruct (ColoredFacts.placed_fields_c g y x) as (Hh1 & Hw1 & _).
      fold g2 in Hh2, Hw2. lia.
    + destruct (boardFull _); [by right|by left].
Qed.

(** The two shapes of what a click leaves: no alert and the status of
    before, or one alert and a finished game. *)
Ltac click_quiet :=
  repeat (split; [done|]);
  split; [left; split; [done|congruence]
         |intros; repeat split; (done || congruence)].

Ltac click_ends :=
  repeat (split; [done|]);
  split; [right; eexists; repeat split; (done || congruence)
         |intros; repeat split; (done || congruence)].

(** X8. Whatever the state and the column, in both variants: a click never
    changes the dimensions (nor the players); it alerts at most one message,
    and it alerts one exactly when it ends the game, in which case it does
    not raise and the turn stays; and a click that raises alerts nothing and
    leaves the turn and the status as they were. *)
Theorem X8_one_alert_iff_game_ends :
  (∀ (g : Numeric.Game) (x : Z),
     let o := Numeric.handleClick g x in
     Numeric.height (final o) = Numeric.height g ∧
     Numeric.width (final o) = Numeric.width g ∧
     ((alerts o = [] ∧ Numeric.gameOver (final o) = Numeric.gameOver g) ∨
      (∃ msg, alerts o = [msg] ∧ Numeric.gameOver g = false ∧
              Numeric.gameOver (final o) = true ∧ threw o = false ∧
              Numeric.currPlayer (final o) = Numeric.currPlayer g)) ∧
     (threw o = true →
      alerts o = [] ∧
      Numeric.currPlayer (final o) = Numeric.currPlayer g ∧
      Numeric.gameOver (final o) = Numeric.gameOver g)) ∧
  (∀ (g : Colored.Game) (x : Z),
     let o := Colored.handleClick g x in
     Colored.height (final o) = Colored.height g ∧
     Colored.width (final o) = Colored.width g ∧
     Colored.players (final o) = Colored.players g ∧
     ((alerts o = [] ∧ Colored.gameOver (final o) = Colored.gameOver g) ∨
      (∃ msg, alerts o = [msg] ∧ Colored.gameOver g = false ∧
              Colored.gameOver (final o) = true ∧ threw o = false ∧
              Colored.currPlayer (final o) = Colored.currPlayer g)) ∧
     (threw o = true →
      alerts o = [] ∧
      Colored.currPlayer (final o) = Colored.currPlayer g ∧
      Colored.gameOver (final o) = Colored.gameOver g)).
Proof.
  split.
  - intros g x o. subst o. unfold Numeric.handleClick.
    destruct (Numeric.gameOver g) eqn:Hgo; simpl; [click_quiet|].
    destruct (Numeric.findSpotForCol g x) as [[y|]|]; simpl;
      [|click_quiet..].
    destruct (setCell _ _ _ _) as [b|]; simpl; [|click_quiet].
    destruct (Numeric.placeInTable _ _ _) as [h|]; simpl; [|click_quiet].
    destruct (Numeric.checkForWin _) as [[]|]; simpl;
      [click_ends| |click_quiet].
    destruct (boardFull _); simpl; [click_ends|click_quiet].
  - intros g x o. subst o. unfold Colored.handleClick.
    destruct (Colored.gameOver g) eqn:Hgo; simpl; [click_quiet|].
    destruct (Colored.findSpotForCol g x) as [[y|]|]; simpl;
      [|click_quiet..].
    destruct (setCell _ _ _ _) as [b|]; simpl; [|click_quiet].
    destruct (Colored.placeInTable _ _ _) as [h|]; simpl; [|click_quiet].
    destruct (Colored.checkForWin _) as [[]|]; simpl;
      [click_ends| |click_quiet].
    destruct (boardFull _); simpl; [click_ends|click_quiet].
Qed.

(** ** Further properties of the Player variant *)

Module ColoredGameFacts.
Import Colored ColoredSpec.

(** A click never touches the players. *)
Lemma handleClick_players g x :
  players (final (handleClick g x)) = players g.
Proof.
  unfold handleClick. destruct (gameOver g); simpl; [done|].
  destruct (findSpotForCol g x) as [[y|]|]; simpl; [|done..].
  destruct (setCell _ _ _ _) as [b|]; simpl; [|done].
  destruct (placeInTable _ _ _) as [h|]; simpl; [|done].
  destruct (checkForWin _) as [[]|]; simpl; [done| |done].
  by destruct (boardFull _).
Qed.

Lemma play_players g xs : players (play g xs) = players g.
Proof.
  revert g. induction xs as [|x xs IH]; intros g; simpl; [done|].
  by rewrite IH, handleClick_players.
Qed.

(** The players a first click on Start makes: two objects with the colors
    of the two inputs. *)
Lemma startClick_players h w c1 c2 :
  players (startClick (newGame h w) c1 c2) = [mkPlayer 0 c1; mkPlayer 1 c2].
Proof. done. Qed.

End ColoredGameFacts.

(** X9. The colors are cosmetic.  Two games of the Player variant started
    with the same dimensions and given the same clicks, whatever the four
    colors (equal ones included), have the same status and turn, hold the
    first player of each on the same cells and the second player of each on
    the same cells, and answer the next click with the same alerts, raising
    in both or in neither. *)
Theorem X9_colors_are_cosmetic (h w : Z) (c1 c2 d1 d2 : string)
    (xs : list Z) :
  let g1 := Colored.play (Colored.startClick (Colored.newGame h w) c1 c2) xs in
  let g2 := Colored.play (Colored.startClick (Colored.newGame h w) d1 d2) xs in
  Colored.gameOver g1 = Colored.gameOver g2 ∧
  Colored.currPlayer g1 = Colored.currPlayer g2 ∧
  Colored.players g1 = [mkPlayer 0 c1; mkPlayer 1 c2] ∧
  Colored.players g2 = [mkPlayer 0 d1; mkPlayer 1 d2] ∧
  (∀ y x,
     (cell (Colored.board g1) y x = VUndef ∧
      cell (Colored.board g2) y x = VUndef) ∨
     (cell (Colored.board g1) y x = VObj (mkPlayer 0 c1) ∧
      cell (Colored.board g2) y x = VObj (mkPlayer 0 d1)) ∨
     (cell (Colored.board g1) y x = VObj (mkPlayer 1 c2) ∧
      cell (Colored.board g2) y x = VObj (mkPlayer 1 d2))) ∧
  (∀ x, alerts (Colored.handleClick g1 x) = alerts (Colored.handleClick g2 x) ∧
        threw (Colored.handleClick g1 x) = threw (Colored.handleClick g2 x)).
Proof.
  intros g1 g2.
  set (gn := Numeric.play (Numeric.startClick (Numeric.newGame h w)) xs).
  assert (H1 : Corr.corr gn g1)
    by apply CorrFacts.play_corr, CorrFacts.startClick_corr.
  assert (H2 : Corr.corr gn g2)
    by apply CorrFacts.play_corr, CorrFacts.startClick_corr.
  assert (Hp1 : Colored.players g1 = [mkPlayer 0 c1; mkPlayer 1 c2])
    by apply ColoredGameFacts.play_players.
  assert (Hp2 : Colored.players g2 = [mkPlayer 0 d1; mkPlayer 1 d2])
    by apply ColoredGameFacts.play_players.
  split; [destruct H1 as (_ & _ & <- & _), H2 as (_ & _ & <- & _); done|].
  split; [destruct H1 as (_ & _ & _ & E1 & _), H2 as (_ & _ & _ & E2 & _); lia|].
  split; [done|]. split; [done|]. split.
  - destruct (CorrFacts.corr_cell gn g1 H1) as (p0 & p1 & (Ha & Hb & _) & Hc1).
    destruct (CorrFacts.corr_cell gn g2 H2) as (q0 & q1 & (Hc & Hd & _) & Hc2).
    rewrite Hp1 in Ha, Hb. rewrite Hp2 in Hc, Hd.
    injection Ha as <-. injection Hb as <-.
    injection Hc as <-. injection Hd as <-.
    intros y x.
    destruct (Hc1 y x) as [[E1 ->]|[[E1 ->]|[E1 ->]]],
             (Hc2 y x) as [[E2 ->]|[[E2 ->]|[E2 ->]]];
      rewrite E1 in E2; try discriminate; auto.
  - intros x.
    destruct (CorrFacts.handleClick_corr gn g1 x H1) as (_ & <- & <-).
    destruct (CorrFacts.handleClick_corr gn g2 x H2) as (_ & <- & <-). done.
Qed.

(** ** connect4.js: clicks off the grid leave no trace in the play *)

Module NumericPlayFacts.
Import Numeric NumericSpec NumericFacts NumericInv NumericGame.
Import NumericGameFacts NumericGameInv.

Lemma same_play_refl g : same_play g g.
Proof. by repeat split. Qed.

Lemma same_play_trans g1 g2 g3 :
  same_play g1 g2 → same_play g2 g3 → same_play g1 g3.
Proof.
  intros (Hh & Hw & Hc & Hg & Hhtml & Hs) (Hh' & Hw' & Hc' & Hg' & Hhtml' & Hs').
  repeat split; try congruence.
  intros y x Hyx. rewrite (Hs y x Hyx). apply Hs'. by rewrite <- Hh, <- Hw.
Qed.

(** The table after a placement on the grid. *)
Lemma handleClick_html g x y :
  wf g → gameOver g = false → 0 ≤ y < height g → 0 ≤ x < width g →
  findSpotForCol g x = Normal (Some y) →
  html (final (handleClick g x)) = html (shown (placed g y x) y x).
Proof.
  intros Hwf Hgo Hy Hx Hfind.
  destruct (handleClick_drop g x y Hwf Hgo Hy Hfind) as [_ Hin].
  destruct (Hin Hx) as (won & _ & ->).
  destruct won; [done|]. by destruct (boardFull _).
Qed.

(** A click off the grid leaves a game that plays like the one before. *)
Lemma off_grid_same_play g x :
  inv g → ¬ (0 ≤ x < width g) → same_play (final (handleClick g x)) g.
Proof.
  intros Hinv Hx.
  destruct (click_summary g x Hinv)
    as [->|(y & Hgo & Hl & Hh & Hw & Hb & Hcase)]; [apply same_play_refl|].
  destruct Hcase as [(_ & Hhtml & Hc & Hg)|(Hx' & _)]; [|done].
  repeat split; try congruence.
  intros y0 x0 Hyx. rewrite Hh, Hw in Hyx. rewrite Hb. symmetry.
  by apply (placed_off_grid g y x (proj1 Hinv) (proj1 Hl) Hx).
Qed.

(** Where a piece lands depends on the grid only. *)
Lemma lands_same_play g1 g2 y x :
  same_play g1 g2 → 0 ≤ x < width g1 → lands g1 y x → lands g2 y x.
Proof.
  intros (Hh & Hw & _ & _ & _ & Hs) Hx (Hy & He & Hbelow).
  unfold lands, empty in *. rewrite <- Hh. split; [done|]. split.
  - by rewrite <- (Hs y x (conj Hy Hx)).
  - intros y' Hy'. rewrite <- (Hs y' x); [by apply Hbelow|].
    split; [lia|done].
Qed.

Lemma same_play_sym g1 g2 : same_play g1 g2 → same_play g2 g1.
Proof.
  intros (Hh & Hw & Hc & Hg & Hhtml & Hs). repeat split; try congruence.
  intros y x Hyx. symmetry. apply Hs. by rewrite Hh, Hw.
Qed.

(** The same click on the grid of two games that play alike leaves games
    that play alike, with the same alerts, raising in neither. *)
Lemma on_grid_same_play g1 g2 x :
  inv g1 → inv g2 → same_play g1 g2 → 0 ≤ x < width g1 →
  same_play (final (handleClick g1 x)) (final (handleClick g2 x)) ∧
  alerts (handleClick g1 x) = alerts (handleClick g2 x) ∧
  threw (handleClick g1 x) = false ∧ threw (handleClick g2 x) = false.
Proof.
  intros Hinv1 Hinv2 Hsame Hx1.
  pose proof Hsame as (Hh & Hw & Hc & Hg & Hhtml & Hs).
  assert (Hx2 : 0 ≤ x < width g2) by by rewrite <- Hw.
  pose proof Hinv1 as (Hwf1 & _). pose proof Hinv2 as (Hwf2 & _).
  destruct (gameOver g1) eqn:Hgo1.
  { rewrite (handleClick_over g1) by done.
    rewrite (handleClick_over g2) by congruence. done. }
  assert (Hgo2 : gameOver g2 = false) by congruence.
  destruct (findSpotForCol_lands g1 x Hwf1)
    as [(y & Hfind1 & Hl1)|[Hnull1 Hfull1]].
  - pose proof (lands_same_play g1 g2 y x Hsame Hx1 Hl1) as Hl2.
    destruct (findSpotForCol_lands g2 x Hwf2)
      as [(y' & Hfind2 & Hl2')|[_ Hfull2]];
      [|destruct (Hfull2 y (proj1 Hl2)); apply Hl2].
    rewrite (lands_unique g2 y' y x Hl2' Hl2) in Hfind2.
    destruct (handleClick_placed g1 x y Hinv1 Hgo1 (proj1 Hl1) Hx1 Hfind1)
      as (Hb1 & Ht1 & Hh1 & Hw1 & _ & Hwon1 & Htie1 & Hnext1).
    destruct (handleClick_placed g2 x y Hinv2 Hgo2 (proj1 Hl2) Hx2 Hfind2)
      as (Hb2 & Ht2 & Hh2 & Hw2 & _ & Hwon2 & Htie2 & Hnext2).
    simpl in *.
    assert (Hs' : same_grid (height g1) (width g1)
                    (board (placed g1 y x)) (board (placed g2 y x))).
    { intros y0 x0 Hyx.
      rewrite (placed_cell g1 y x y0 x0 Hwf1 (proj1 Hl1)).
      rewrite (placed_cell g2 y x y0 x0 Hwf2 (proj1 Hl2)).
      rewrite Hc. case_decide; [done|by apply Hs]. }
    assert (Hs'' : same_grid (height g1) (width g1)
                     (board (placed g2 y x)) (board (placed g1 y x))).
    { intros y0 x0 Hyx. symmetry. by apply Hs'. }
    assert (Hhtml' : html (final (handleClick g1 x)) =
                     html (final (handleClick g2 x))).
    { rewrite (handleClick_html g1 x y Hwf1 Hgo1 (proj1 Hl1) Hx1 Hfind1).
      rewrite (handleClick_html g2 x y Hwf2 Hgo2 (proj1 Hl2) Hx2 Hfind2).
      destruct (shown_placed_html g1 y x Hwf1 (conj (proj1 Hl1) Hx1))
        as (p1 & Hp1 & ->).
      destruct (shown_placed_html g2 y x Hwf2 (conj (proj1 Hl2) Hx2))
        as (p2 & Hp2 & ->).
      rewrite Hhtml, Hp2 in Hp1. injection Hp1 as ->. by rewrite Hhtml, Hc. }
    assert (Hgrid : same_grid (height (final (handleClick g1 x)))
                      (width (final (handleClick g1 x)))
                      (board (final (handleClick g1 x)))
                      (board (final (handleClick g2 x)))).
    { by rewrite Hh1, Hw1, Hb1, Hb2. }
    rewrite <- Hh, <- Hw, <- Hc in Hwon2, Htie2, Hnext2.
    destruct (placed_decidable g1 x y Hinv1) as [[Hr|Hr] Hdec].
    + destruct (Hwon1 Hr) as (Ho1 & Hc1 & Ha1).
      destruct (Hwon2 (has_run_same_grid _ _ _ _ _ Hs' Hr))
        as (Ho2 & Hc2 & Ha2).
      split; [|by rewrite Ha1, Ha2, Hc].
      repeat split; try congruence; exact Hgrid.
    + assert (Hr2 : ¬ has_run (height g1) (width g1)
                      (board (placed g2 y x)) (currPlayer g1)).
      { intros H. apply Hr. by apply (has_run_same_grid _ _ _ _ _ Hs''). }
      destruct Hdec as [Hf|Hf].
      * destruct (Htie1 Hr Hf) as (Ho1 & Hc1 & Ha1).
        destruct (Htie2 Hr2 (full_same_grid _ _ _ _ Hs' Hf))
          as (Ho2 & Hc2 & Ha2).
        split; [|by rewrite Ha1, Ha2].
        repeat split; try congruence; exact Hgrid.
      * assert (Hf2 : ¬ full (height g1) (width g1) (board (placed g2 y x))).
        { intros H. apply Hf. by apply (full_same_grid _ _ _ _ Hs''). }
        destruct (Hnext1 Hr Hf) as (Ho1 & Hc1 & Ha1).
        destruct (Hnext2 Hr2 Hf2) as (Ho2 & Hc2 & Ha2).
        split; [|by rewrite Ha1, Ha2].
        repeat split; try congruence; exact Hgrid.
  - rewrite (handleClick_null g1 x Hnull1).
    destruct (findSpotForCol_lands g2 x Hwf2)
      as [(y & _ & Hl2)|[Hnull2 _]].
    + pose proof (lands_same_play g2 g1 y x (same_play_sym _ _ Hsame) Hx2 Hl2)
        as (Hy & He & _).
      destruct (Hfull1 y Hy He).
    + by rewrite (handleClick_null g2 x Hnull2).
Qed.

Lemma handleClick_width g x : width (final (handleClick g x)) = width g.
Proof.
  unfold handleClick. destruct (gameOver g); simpl; [done|].
  destruct (findSpotForCol g x) as [[y|]|]; simpl; [|done..].
  destruct (setCell _ _ _ _) as [b|]; simpl; [|done].
  destruct (placeInTable _ _ _) as [h|]; simpl; [|done].
  destruct (checkForWin _) as [[]|]; simpl; [done| |done].
  by destruct (boardFull _).
Qed.

(** Dropping the clicks off the grid from a list of clicks changes nothing
    a player can see. *)
Lemma play_valid_clicks g1 g2 xs :
  inv g1 → inv g2 → same_play g1 g2 →
  same_play (play g1 xs) (play g2 (validClicks (width g2) xs)).
Proof.
  revert g1 g2. induction xs as [|x xs IH]; intros g1 g2 H1 H2 Hs; [done|].
  unfold validClicks. rewrite filter_cons. simpl.
  pose proof Hs as (_ & Hw & _).
  destruct (decide (0 ≤ x < width g2)) as [Hx|Hx].
  - simpl. rewrite <- (handleClick_width g2 x). apply IH.
    + by apply handleClick_inv.
    + by apply handleClick_inv.
    + apply on_grid_same_play; try done. by rewrite Hw.
  - apply IH; [by apply handleClick_inv|done|].
    apply (same_play_trans _ g1); [|done].
    apply off_grid_same_play; [done|]. by rewrite Hw.
Qed.

End NumericPlayFacts.

(** X10. Clicks off the grid leave no trace in the play: from any state an
    event can find, a list of clicks and the same list without the clicks
    whose column is outside [0, width) lead to games with the same
    dimensions, turn, status and table, and the same cells on the grid. *)
Theorem X10_off_grid_clicks_leave_no_trace (g : Numeric.Game)
    (xs : list Z) :
  NumericSpec.reachable g →
  NumericGame.same_play
    (Numeric.play g xs)
    (Numeric.play g (NumericGame.validClicks (Numeric.width g) xs)).
Proof.
  intros Hr. pose proof (NumericInv.reachable_inv g Hr) as Hinv.
  apply NumericPlayFacts.play_valid_clicks; [done..|].
  apply NumericPlayFacts.same_play_refl.
Qed.

(** ** The Player variant: whole games *)

Module ColoredGameInv.
Import Colored ColoredSpec ColoredFacts ColoredGame.

(** The table after a piece is placed on a cell of the grid. *)
Lemma shown_placed_html_c g y x p :
  wfC g → activePlayer g = VObj p → in_grid (height g) (width g) y x →
  ∃ pieces, html g !! (y, x) = Some pieces ∧
    html (shownC (placedC g y x) y x) =
    <[(y, x) := pieces ++ [color p]]> (html g).
Proof.
  intros [Hb Hh] Hact Hg. unfold shownC, placeInTable.
  assert (Hact' : activePlayer (placedC g y x) = VObj p).
  { unfold placedC. by destruct (setCell _ _ _ _). }
  destruct (placed_fields_c g y x) as (_ & _ & _ & _ & Hhtml & _).
  rewrite Hact', Hhtml.
  destruct (placeInTable_in _ _ (html g) y x (color p) Hh Hg)
    as (pieces & Hp & ->).
  by exists pieces.
Qed.

Lemma findSpotForCol_lands_c g x y :
  wfC g → findSpotForCol g x = Normal (Some y) → landsC g y x.
Proof.
  intros [Hb _] Hfind.
  destruct (findSpotForCol_spec (height g) (board g) x Hb)
    as (r & Hr & Hspec).
  unfold findSpotForCol in Hfind. rewrite Hfind in Hr. injection Hr as <-.
  destruct Hspec as (Hy & He & Hbelow). split; [done|]. split; [done|].
  intros y' Hy'. unfold empty. rewrite (Hbelow y' Hy'). discriminate.
Qed.

(** What a click leaves: nothing changed, or a piece was placed at the row
    it lands on; off the grid that is all, on the grid the piece is shown
    and either the game ends or the turn passes. *)
Lemma click_shape_c g x :
  invC g →
  let g' := final (handleClick g x) in
  g' = g ∨
  ∃ y, gameOver g = false ∧ landsC g y x ∧
       ((¬ (0 ≤ x < width g) ∧ g' = placedC g y x) ∨
        (0 ≤ x < width g ∧
         (g' = set_gameOver (shownC (placedC g y x) y x) true ∨
          g' = set_currPlayer (shownC (placedC g y x) y x)
                 (flipC (currPlayer g))))).
Proof.
  intros Hinv g'. subst g'. pose proof Hinv as (Hwf & _).
  destruct (handleClick_cases_c g x Hwf)
    as [[-> _]|(y & Hgo & Hfind & Hy & _)]; [by left|].
  right. exists y. split; [done|].
  split; [by apply findSpotForCol_lands_c|].
  destruct (handleClick_drop_c g x y Hinv Hgo Hy Hfind) as [Hout Hin].
  destruct (decide (0 ≤ x < width g)) as [Hx|Hx].
  - right. split; [done|]. destruct (Hin Hx) as (won & _ & ->).
    destruct won; [by left|]. destruct (boardFull _); [by left|by right].
  - left. split; [done|]. by rewrite (Hout Hx).
Qed.

(** Under the invariant an Empty cell of the grid holds [undefined]. *)
Lemma inv_empty_undef_c g y x :
  invC g → in_grid (height g) (width g) y x → empty (board g) y x →
  cell (board g) y x = VUndef.
Proof.
  intros ((Hb & _) & _ & p0 & p1 & H2 & Hrows) Hg He. unfold empty in He.
  destruct (inv_cell_with g p0 p1 y x Hb H2 Hrows Hg) as [H|[H|H]];
    [done|..]; rewrite H in He; discriminate.
Qed.

Lemma invC_active g :
  invC g → ∃ p, activePlayer g = VObj p.
Proof.
  intros (_ & Hc & p0 & p1 & H2 & _).
  destruct (activePlayer_cases g p0 p1 H2 Hc) as [[_ ->]|[_ ->]]; eauto.
Qed.

(** The table shows the board after a click if it did before. *)
Lemma table_showsC_click g x :
  invC g → table_showsC g → table_showsC (final (handleClick g x)).
Proof.
  intros Hinv Ht. pose proof Hinv as (Hwf & _).
  destruct (invC_active g Hinv) as [p Hact].
  destruct (click_shape_c g x Hinv)
    as [->|(y & Hgo & Hl & Hcase)]; [done|].
  assert (Hcell : ∀ y0 x0, cell (board (placedC g y x)) y0 x0 =
            if decide (y0 = y ∧ x0 = x) then VObj p else cell (board g) y0 x0).
  { intros y0 x0. rewrite <- Hact. apply placed_cell_c; [done|apply Hl]. }
  destruct (placed_fields_c g y x) as (Hh1 & Hw1 & _ & _ & Hhtml1 & _).
  destruct (shown_fields_c (placedC g y x) y x)
    as (Hh2 & Hw2 & _ & _ & Hb2 & _).
  assert (Hshown : ∀ g', height g' = height g → width g' = width g →
            board g' = board (placedC g y x) →
            html g' = html (shownC (placedC g y x) y x) →
            0 ≤ x < width g → table_showsC g').
  { intros g' Hh Hw Hb Hhtml Hx y0 x0 Hg. rewrite Hh, Hw in Hg.
    rewrite Hb, Hhtml, Hcell.
    destruct (shown_placed_html_c g y x p Hwf Hact (conj (proj1 Hl) Hx))
      as (pieces & Hp & ->).
    destruct (decide (y0 = y ∧ x0 = x)) as [[-> ->]|Hne].
    - rewrite lookup_insert_eq. rewrite (Ht y x Hg) in Hp.
      rewrite (inv_empty_undef_c g y x Hinv Hg) in Hp by apply Hl.
      by injection Hp as <-.
    - rewrite lookup_insert_ne; [by apply Ht|].
      intros [= -> ->]. by destruct Hne. }
  destruct Hcase as [(Hx & ->)|(Hx & [-> | ->])].
  - intros y0 x0 Hg. rewrite Hh1, Hw1 in Hg. rewrite Hhtml1, Hcell.
    rewrite decide_False; [by apply Ht|]. intros [_ ->]. by destruct Hg.
  - apply Hshown; simpl; congruence.
  - apply Hshown; simpl; congruence.
Qed.

(** A click on Start builds a fresh game when there is a board to reset or
    the game is new. *)
Lemma startClick_freshStateC g c1 c2 :
  (∃ h w, g = newGame h w) ∨ board g ≠ [] →
  startClick g c1 c2 =
  freshStateC (height g) (width g) (nextOid g) c1 c2.
Proof.
  intros [(h & w & ->)|Hne]; unfold startClick.
  { rewrite bool_decide_eq_false_2; [done|]. simpl. intros H. by apply H. }
  rewrite bool_decide_eq_true_2
    by (destruct (board g); [by destruct Hne|simpl; lia]).
  destruct g as [h w ps p b go html n]. unfold resetGame. simpl.
  by destruct go.
Qed.

(** With no board to reset and none to build it only adds two players. *)
Lemma startClick_no_board_c g c1 c2 :
  invC g → board g = [] →
  startClick g c1 c2 =
  set_players g
    (players g ++ [mkPlayer (nextOid g) c1; mkPlayer (S (nextOid g)) c2])
    (S (S (nextOid g))).
Proof.
  intros ((Hb & _) & _) Hnil. destruct g as [h w ps p b go html n].
  simpl in *. subst b. unfold rows_ok in Hb. simpl in Hb.
  unfold startClick, setPlayers, set_board, set_html, set_players. simpl.
  rewrite makeBoard_replicate. replace (Z.to_nat h) with 0%nat by lia.
  unfold makeHtmlBoard. rewrite (seqZ_nil 0 h) by lia. simpl.
  by rewrite (right_id_L ∅ (∪)).
Qed.

Lemma reachable_table_showsC g : reachableC g → table_showsC g.
Proof.
  induction 1 as [h w c1 c2|g c1 c2 Hr IH|g x Hr IH].
  - rewrite startClick_freshStateC by (left; eauto).
    intros y x Hg. simpl in *.
    rewrite (NumericGameFacts.makeHtmlBoard_fresh _ _ y x Hg).
    by rewrite (proj2 (proj2 (makeBoard_fresh _ _ (λ _, True)))).
  - destruct (board g) as [|row b] eqn:Hb.
    + rewrite startClick_no_board_c; [done|by apply reachable_inv_c|done].
    + rewrite startClick_freshStateC by (right; by rewrite Hb).
      intros y x Hg. simpl in *.
      rewrite (NumericGameFacts.makeHtmlBoard_fresh _ _ y x Hg).
      by rewrite (proj2 (proj2 (makeBoard_fresh _ _ (λ _, True)))).
  - apply table_showsC_click; [by apply reachable_inv_c|done].
Qed.

End ColoredGameInv.

(** X11. In every state of the Player variant an event can find, the table
    shows the board in the players' colors: the table cell of each cell of
    the grid holds exactly one piece, of the color of the player object on
    that cell, and no piece when the cell is Empty; the table has no other
    cell. *)
Theorem X11_table_shows_board_in_colors (g : Colored.Game) :
  ColoredSpec.reachableC g →
  ∀ y x,
    (in_grid (Colored.height g) (Colored.width g) y x →
     Colored.html g !! (y, x) =
     Some (ColoredGame.pieceOfC (cell (Colored.board g) y x))) ∧
    (¬ in_grid (Colored.height g) (Colored.width g) y x →
     Colored.html g !! (y, x) = None).
Proof.
  intros Hr y x. split.
  - by apply ColoredGameInv.reachable_table_showsC.
  - intros Hout. destruct (ColoredFacts.reachable_inv_c g Hr) as ((_ & Hh) & _).
    destruct (Colored.html g !! (y, x)) as [pieces|] eqn:Hp; [|done].
    destruct Hout. apply Hh. by rewrite Hp.
Qed.

(** ** Counting the pieces on the grid *)

Section Counting.
Context {A : Type}.
Implicit Types (P Q : A → Prop) (l : list A).

Lemma filter_length_ext P Q `{∀ a, Decision (P a)} `{∀ a, Decision (Q a)} l :
  (∀ a, a ∈ l → (P a ↔ Q a)) →
  length (filter P l) = length (filter Q l).
Proof.
  induction l as [|a l IH]; intros Hext; [done|].
  assert (Hl : ∀ a', a' ∈ l → (P a' ↔ Q a'))
    by (intros a' Ha'; apply Hext; by right).
  rewrite !filter_cons. destruct (decide (P a)) as [HP|HP].
  - rewrite decide_True by (apply Hext; [by left|done]). simpl.
    by rewrite IH.
  - rewrite decide_False; [by apply IH|].
    intros HQ. apply HP. apply Hext; [by left|done].
Qed.

(** Making a predicate true at one more element of a list without
    repetition adds one to the count. *)
Lemma filter_length_one_more P Q `{∀ a, Decision (P a)}
    `{∀ a, Decision (Q a)} l a0 :
  NoDup l → a0 ∈ l → ¬ P a0 → Q a0 →
  (∀ a, a ∈ l → a ≠ a0 → (P a ↔ Q a)) →
  length (filter Q l) = S (length (filter P l)).
Proof.
  intros Hnd. induction Hnd as [|a l Hnotin Hnd IH]; intros Hin HP HQ Hext.
  - by apply elem_of_nil in Hin.
  - rewrite !filter_cons. apply elem_of_cons in Hin as [<-|Hin].
    + rewrite decide_True, decide_False by done. simpl. f_equal.
      apply filter_length_ext. intros a' Ha'. symmetry.
      apply Hext; [by right|]. intros ->. done.
    + assert (Hne : a ≠ a0) by (intros ->; done).
      assert (IH' : length (filter Q l) = S (length (filter P l))).
      { apply IH; try done. intros a' Ha'. apply Hext. by right. }
      destruct (decide (P a)) as [HPa|HPa].
      * rewrite decide_True by (apply Hext; [by left|done|done]).
        simpl. by rewrite IH'.
      * rewrite decide_False; [done|].
        intros HQa. apply HPa. apply Hext; [by left|done|done].
Qed.

Lemma filter_length_none P `{∀ a, Decision (P a)} l :
  (∀ a, a ∈ l → ¬ P a) → length (filter P l) = 0%nat.
Proof.
  induction l as [|a l IH]; intros Hnone; [done|].
  rewrite filter_cons, decide_False by (apply Hnone; by left).
  apply IH. intros a' Ha'. apply Hnone. by right.
Qed.

End Counting.

Section GridCounting.
Implicit Types (b : board_t) (h w x y : Z) (v : value).

Lemma elem_of_gridCells h w y x : (y, x) ∈ gridCells h w ↔ in_grid h w y x.
Proof.
  unfold gridCells, in_grid. rewrite list_elem_of_bind. split.
  - intros (y' & H & Hy'). apply list_elem_of_bind in H as (x' & H & Hx').
    apply list_elem_of_singleton in H as [= -> ->].
    apply elem_of_seqZ in Hy', Hx'. lia.
  - intros [Hy Hx]. exists y. split; [|apply elem_of_seqZ; lia].
    apply list_elem_of_bind. exists x. split; [|apply elem_of_seqZ; lia].
    by apply list_elem_of_singleton.
Qed.

Lemma NoDup_gridCells h w : NoDup (gridCells h w).
Proof.
  unfold gridCells. apply NoDup_bind; [| |apply NoDup_seqZ].
  - intros y1 y2 c _ _ H1 H2.
    apply list_elem_of_bind in H1 as (x1 & H1 & _).
    apply list_elem_of_bind in H2 as (x2 & H2 & _).
    apply list_elem_of_singleton in H1, H2. congruence.
  - intros y _. apply NoDup_bind; [| |apply NoDup_seqZ].
    + intros x1 x2 c _ _ H1 H2.
      apply list_elem_of_singleton in H1, H2. congruence.
    + intros x _. apply NoDup_singleton.
Qed.

(** The count of a value is that of any board showing it on the same cells
    of the grid. *)
Lemma countCells_same h w b b' v :
  (∀ y x, in_grid h w y x → (cell b y x = v ↔ cell b' y x = v)) →
  countCells h w b v = countCells h w b' v.
Proof.
  intros Hext. unfold countCells. apply filter_length_ext.
  intros [y x] Hin. apply Hext. by apply elem_of_gridCells.
Qed.

(** Two values held on the same cells of two boards have the same count. *)
Lemma countCells_related h w b b' v v' :
  (∀ y x, in_grid h w y x → (cell b y x = v ↔ cell b' y x = v')) →
  countCells h w b v = countCells h w b' v'.
Proof.
  intros Hext. unfold countCells. apply filter_length_ext.
  intros [y x] Hin. apply Hext. by apply elem_of_gridCells.
Qed.

Lemma countCells_none h w b v :
  (∀ y x, in_grid h w y x → cell b y x ≠ v) → countCells h w b v = 0%nat.
Proof.
  intros Hnone. unfold countCells. apply filter_length_none.
  intros [y x] Hin. apply Hnone. by apply elem_of_gridCells.
Qed.

(** Writing [v] on a cell of the grid that did not hold it adds one to the
    count of [v]. *)
Lemma countCells_placed h w b b' y x v :
  in_grid h w y x → cell b y x ≠ v → cell b' y x = v →
  (∀ y0 x0, ¬ (y0 = y ∧ x0 = x) → cell b' y0 x0 = cell b y0 x0) →
  countCells h w b' v = S (countCells h w b v).
Proof.
  intros Hg Hb Hb' Hrest. unfold countCells.
  apply (filter_length_one_more _ _ _ (y, x)).
  - apply NoDup_gridCells.
  - by apply elem_of_gridCells.
  - done.
  - done.
  - intros [y0 x0] _ Hne. simpl. rewrite Hrest; [done|].
    intros [-> ->]. by destruct Hne.
Qed.

End GridCounting.

Module ColoredCount.
Import Colored ColoredSpec ColoredFacts ColoredGame ColoredGameInv.

(** Two players are kept when players are added after them. *)
Lemma two_players_app g p0 p1 ps n :
  two_players g p0 p1 → two_players (set_players g (players g ++ ps) n) p0 p1.
Proof.
  intros (H0 & H1 & Hne). unfold two_players. simpl.
  rewrite !lookup_app_l by (by eapply lookup_lt_Some). done.
Qed.

(** The counts after a placement on the grid: one more piece for the
    active player, as many as before for any other player. *)
Lemma countCells_click g y x p :
  invC g → landsC g y x → 0 ≤ x < width g → activePlayer g = VObj p →
  countCells (height g) (width g) (board (placedC g y x)) (VObj p) =
    S (countCells (height g) (width g) (board g) (VObj p)) ∧
  ∀ q, q ≠ p →
    countCells (height g) (width g) (board (placedC g y x)) (VObj q) =
    countCells (height g) (width g) (board g) (VObj q).
Proof.
  intros Hinv Hl Hx Hact. pose proof Hinv as (Hwf & _).
  assert (Hg : in_grid (height g) (width g) y x) by (split; [apply Hl|done]).
  assert (Hcell : ∀ y0 x0, cell (board (placedC g y x)) y0 x0 =
            if decide (y0 = y ∧ x0 = x) then VObj p else cell (board g) y0 x0).
  { intros y0 x0. rewrite <- Hact. apply placed_cell_c; [done|apply Hl]. }
  assert (Hundef : cell (board g) y x = VUndef)
    by (apply inv_empty_undef_c; [done..|apply Hl]).
  split.
  - apply (countCells_placed _ _ _ _ y x); [done|by rewrite Hundef| |].
    + by rewrite Hcell, decide_True.
    + intros y0 x0 Hne. by rewrite Hcell, decide_False.
  - intros q Hq. symmetry. apply countCells_same. intros y0 x0 _.
    rewrite Hcell. case_decide as Heq; [|done]. destruct Heq as [-> ->].
    rewrite Hundef. split; [discriminate|]. intros [= ->]. done.
Qed.

Lemma turn_counted_click g x :
  invC g → turn_counted g → turn_counted (final (handleClick g x)).
Proof.
  intros Hinv (p0 & p1 & H2 & Hcount). pose proof Hinv as (Hwf & Hc & _).
  destruct (click_shape_c g x Hinv)
    as [->|(y & Hgo & Hl & Hcase)]; [by exists p0, p1|].
  destruct (placed_fields_c g y x) as (Hh1 & Hw1 & Hc1 & Hg1 & _ & Hp1).
  destruct (shown_fields_c (placedC g y x) y x)
    as (Hh2 & Hw2 & Hc2 & Hg2 & Hb2 & Hp2).
  rewrite Hgo in Hcount.
  destruct Hcase as [(Hx & ->)|(Hx & Hend)].
  { exists p0, p1. split; [unfold two_players in *; by rewrite Hp1|].
    rewrite Hh1, Hw1, Hg1, Hc1, Hgo.
    rewrite <- !(countCells_same _ _ (board g) (board (placedC g y x)));
      [done|..]; intros y0 x0 [_ Hx0];
      rewrite (placed_cell_c g y x y0 x0 Hwf (proj1 Hl));
      rewrite decide_False; try done; intros [_ ->]; done. }
  assert (Hne01 : p0 ≠ p1) by (destruct H2 as (_ & _ & Hne); congruence).
  assert (Hcounts :
    ∀ g', height g' = height g → width g' = width g →
          board g' = board (placedC g y x) → players g' = players g →
          (gameOver g' = true ∧ currPlayer g' = currPlayer g) ∨
          (gameOver g' = false ∧ currPlayer g' = flipC (currPlayer g)) →
          turn_counted g').
  { intros g' Hh Hw Hb Hp Hstatus. exists p0, p1.
    split; [unfold two_players in *; by rewrite Hp|].
    rewrite Hh, Hw, Hb.
    destruct (activePlayer_cases g p0 p1 H2 Hc) as [[Hz Hact]|[Hz Hact]].
    - destruct (countCells_click g y x p0 Hinv Hl Hx Hact) as [-> Hother].
      rewrite (Hother p1) by done. rewrite Hz in *. unfold flipC in *.
      destruct Hstatus as [[-> ->]|[-> ->]]; simpl; lia.
    - destruct (countCells_click g y x p1 Hinv Hl Hx Hact) as [-> Hother].
      rewrite (Hother p0) by done. rewrite Hz in *. unfold flipC in *.
      destruct Hstatus as [[-> ->]|[-> ->]]; simpl; lia. }
  destruct Hend as [-> | ->]; apply Hcounts; simpl; try congruence.
  - left. split; [done|congruence].
  - right. split; congruence.
Qed.

Lemma freshStateC_turn_counted h w n c1 c2 :
  turn_counted (freshStateC h w n c1 c2).
Proof.
  exists (mkPlayer n c1), (mkPlayer (S n) c2).
  split; [by repeat split; simpl; try lia|]. simpl.
  rewrite !countCells_none; [done|..]; intros y x _;
    by rewrite (proj2 (proj2 (makeBoard_fresh _ _ (λ _, True)))).
Qed.

Lemma reachable_turn_counted g : reachableC g → turn_counted g.
Proof.
  induction 1 as [h w c1 c2|g c1 c2 Hr IH|g x Hr IH].
  - rewrite startClick_freshStateC by (left; eauto).
    apply freshStateC_turn_counted.
  - destruct (board g) as [|row b] eqn:Hb.
    + rewrite startClick_no_board_c; [|by apply reachable_inv_c|done].
      destruct IH as (p0 & p1 & H2 & Hcount). exists p0, p1.
      split; [by apply two_players_app|]. exact Hcount.
    + rewrite startClick_freshStateC by (right; by rewrite Hb).
      apply freshStateC_turn_counted.
  - apply turn_counted_click; [by apply reachable_inv_c|done].
Qed.

End ColoredCount.

(** X12. In every state of the Player variant an event can find, the turn
    agrees with the pieces on the grid: while the game is in progress the
    first player has as many pieces as the second when the first is to move
    and one more when the second is; in a finished game, where the turn is
    still that of the last mover, it is the other way round. *)
Theorem X12_turn_agrees_with_piece_counts (g : Colored.Game) :
  ColoredSpec.reachableC g →
  ∃ p0 p1,
    ColoredSpec.two_players g p0 p1 ∧
    Z.of_nat (countCells (Colored.height g) (Colored.width g)
                (Colored.board g) (VObj p0)) =
    Z.of_nat (countCells (Colored.height g) (Colored.width g)
                (Colored.board g) (VObj p1)) +
    (if Colored.gameOver g then 1 - Colored.currPlayer g
     else Colored.currPlayer g).
Proof. apply ColoredCount.reachable_turn_counted. Qed.

(** ** Carrying properties from one variant to the other *)

Module Transport.
Import Corr CorrFacts.

Lemma freshStateC_corr h w n c1 c2 :
  corr (Numeric.startClick (Numeric.newGame h w))
       (ColoredGame.freshStateC h w n c1 c2).
Proof.
  unfold corr. simpl. split; [done|]. split; [done|]. split; [done|].
  split; [done|]. split; [by left|]. split.
  - intros k. destruct (_ !! k); by constructor.
  - eexists _, _. split; [repeat split; simpl; [done..|lia]|].
    rewrite makeBoard_replicate. simpl.
    apply Forall_Forall2_diag, Forall_replicate. split; [done|].
    intros k. rewrite arrayFrom_lookup. case_decide; constructor. by left.
Qed.

(** Every state of the Player variant an event can find corresponds to a
    state of connect4.js an event can find. *)
Lemma reachableC_corr gc :
  ColoredSpec.reachableC gc →
  ∃ gn, NumericSpec.reachable gn ∧ corr gn gc.
Proof.
  induction 1 as [h w c1 c2|g c1 c2 Hr (gn & Hrn & Hcorr)
                  |g x Hr (gn & Hrn & Hcorr)].
  - exists (Numeric.startClick (Numeric.newGame h w)).
    split; [constructor|apply startClick_corr].
  - destruct (Colored.board g) as [|row b] eqn:Hb.
    + exists gn. split; [done|].
      rewrite ColoredGameInv.startClick_no_board_c;
        [|by apply ColoredFacts.reachable_inv_c|done].
      destruct Hcorr as (Hh & Hw & Hg & Hc & Hc' & Hhtml & p0 & p1 & H2 & Hbs).
      unfold corr. simpl. repeat (split; [done|]).
      exists p0, p1. split; [by apply ColoredCount.two_players_app|done].
    + exists (Numeric.startClick
                (Numeric.newGame (Colored.height g) (Colored.width g))).
      split; [constructor|].
      rewrite ColoredGameInv.startClick_freshStateC by (right; by rewrite Hb).
      apply freshStateC_corr.
  - exists (final (Numeric.handleClick gn x)).
    split; [by constructor|]. by apply handleClick_corr.
Qed.

(** A game of the Player variant played from a first Start is a state an
    event can find. *)
Lemma play_reachableC g xs :
  ColoredSpec.reachableC g → ColoredSpec.reachableC (Colored.play g xs).
Proof.
  revert g. induction xs as [|x xs IH]; intros g Hr; simpl; [done|].
  apply IH. by constructor.
Qed.

Section Cells.
Context (gn : Numeric.Game) (gc : Colored.Game) (p0 p1 : Player).
Context (H2 : ColoredSpec.two_players gc p0 p1).
Context (Hcells : ∀ y x, vcorr p0 p1 (cell (Numeric.board gn) y x)
                                     (cell (Colored.board gc) y x)).

Lemma corr_empty y x :
  empty (Numeric.board gn) y x ↔ empty (Colored.board gc) y x.
Proof. unfold empty. by rewrite (vcorr_truthy p0 p1 _ _ (Hcells y x)). Qed.

Lemma corr_holds_first y x :
  cell (Numeric.board gn) y x = VNum 1 ↔
  cell (Colored.board gc) y x = VObj p0.
Proof.
  destruct H2 as (_ & _ & Hne).
  destruct (Hcells y x) as [[-> ->]|[[-> ->]|[-> ->]]];
    split; try done; intros [= E]; by rewrite E in Hne.
Qed.

Lemma corr_holds_second y x :
  cell (Numeric.board gn) y x = VNum 2 ↔
  cell (Colored.board gc) y x = VObj p1.
Proof.
  destruct H2 as (_ & _ & Hne).
  destruct (Hcells y x) as [[-> ->]|[[-> ->]|[-> ->]]];
    split; try done; intros [= E]; by rewrite E in Hne.
Qed.

End Cells.

End Transport.

(** X13. In connect4.js, in a game played from a first click on Start
    without another, the turn agrees with the pieces on the grid: in
    progress player 1 has as many pieces as player 2 when player 1 is to
    move and one more when player 2 is; in a finished game, where the turn
    is still that of the last mover, it is the other way round. *)
Theorem X13_turn_agrees_with_piece_counts_numeric (h w : Z) (xs : list Z) :
  let g := Numeric.play (Numeric.startClick (Numeric.newGame h w)) xs in
  Z.of_nat (countCells (Numeric.height g) (Numeric.width g)
              (Numeric.board g) (VNum 1)) =
  Z.of_nat (countCells (Numeric.height g) (Numeric.width g)
              (Numeric.board g) (VNum 2)) +
  (if Numeric.gameOver g then 2 - Numeric.currPlayer g
   else Numeric.currPlayer g - 1).
Proof.
  intros g.
  set (gc := Colored.play
               (Colored.startClick (Colored.newGame h w) "" "") xs).
  assert (Hcorr : Corr.corr g gc)
    by apply CorrFacts.play_corr, CorrFacts.startClick_corr.
  assert (Hr : ColoredSpec.reachableC gc)
    by (apply Transport.play_reachableC; constructor).
  destruct (ColoredCount.reachable_turn_counted gc Hr)
    as (p0 & p1 & H2 & Hcount).
  destruct (CorrFacts.corr_cell g gc Hcorr) as (q0 & q1 & H2' & Hcells).
  assert (q0 = p0 ∧ q1 = p1) as [-> ->].
  { destruct H2 as (Ha & Hb & _), H2' as (Ha' & Hb' & _). split; congruence. }
  destruct Hcorr as (Hh & Hw & Hg & Hc & _).
  rewrite Hh, Hw, Hg, Hc.
  rewrite (countCells_related _ _ (Numeric.board g) (Colored.board gc)
             (VNum 1) (VObj p0))
    by (intros y x _; by apply (Transport.corr_holds_first g gc p0 p1)).
  rewrite (countCells_related _ _ (Numeric.board g) (Colored.board gc)
             (VNum 2) (VObj p1))
    by (intros y x _; by apply (Transport.corr_holds_second g gc p0 p1)).
  rewrite Hcount. destruct (Colored.gameOver gc); lia.
Qed.

Module TransportFacts.
Import Corr CorrFacts Transport.

(** What corresponding games share, cell by cell and for the active
    player. *)
Lemma corr_view gn gc :
  corr gn gc →
  ∃ p0 p1, ColoredSpec.two_players gc p0 p1 ∧
    (∀ y x, vcorr p0 p1 (cell (Numeric.board gn) y x)
                        (cell (Colored.board gc) y x)) ∧
    vcorr p0 p1 (VNum (Numeric.currPlayer gn)) (Colored.activePlayer gc).
Proof.
  intros Hcorr. destruct (corr_cell gn gc Hcorr) as (p0 & p1 & H2 & Hcells).
  exists p0, p1. split; [done|]. split; [done|].
  destruct Hcorr as (_ & _ & _ & Hcp & Hc & _).
  destruct (ColoredFacts.activePlayer_cases gc p0 p1 H2 Hc)
    as [[Hz ->]|[Hz ->]]; rewrite Hcp, Hz; [right; by left|right; by right].
Qed.

(** The active player holds a run in one game exactly when it does in the
    other. *)
Lemma corr_has_run gn gc :
  corr gn gc →
  NumericSpec.has_run (Numeric.height gn) (Numeric.width gn)
    (Numeric.board gn) (Numeric.currPlayer gn) ↔
  ∃ y x d, winning (Colored.height gc) (Colored.width gc)
             (Colored.board gc) (Colored.activePlayer gc) y x d.
Proof.
  intros Hcorr. destruct (corr_view gn gc Hcorr) as (p0 & p1 & H2 & Hcells & Hme).
  pose proof H2 as (_ & _ & Hne).
  destruct Hcorr as (Hh & Hw & _). rewrite <- Hh, <- Hw.
  unfold NumericSpec.has_run.
  split; intros (y & x & d & Hrun); exists y, x, d.
  - apply NumericInv.run_held_winning in Hrun. intros i Hi.
    destruct (Hrun i Hi) as [Hg Heq]. split; [done|].
    by rewrite <- (vcorr_strict_eq p0 p1 Hne _ _ _ _ (Hcells _ _) Hme).
  - apply NumericInv.run_held_winning. intros i Hi.
    destruct (Hrun i Hi) as [Hg Heq]. split; [done|].
    by rewrite (vcorr_strict_eq p0 p1 Hne _ _ _ _ (Hcells _ _) Hme).
Qed.

Lemma corr_full gn gc :
  corr gn gc →
  full (Numeric.height gn) (Numeric.width gn) (Numeric.board gn) ↔
  full (Colored.height gc) (Colored.width gc) (Colored.board gc).
Proof.
  intros Hcorr. destruct (corr_view gn gc Hcorr) as (p0 & p1 & _ & Hcells & _).
  destruct Hcorr as (Hh & Hw & _). rewrite <- Hh, <- Hw.
  split; intros Hf y x Hg; specialize (Hf y x Hg).
  - by rewrite <- (vcorr_truthy p0 p1 _ _ (Hcells y x)).
  - by rewrite (vcorr_truthy p0 p1 _ _ (Hcells y x)).
Qed.

(** A click of the Player variant on a column of the grid that drops a
    piece does not raise. *)
Lemma handleClick_threw_c g x y :
  ColoredSpec.invC g → Colored.gameOver g = false →
  0 ≤ y < Colored.height g → 0 ≤ x < Colored.width g →
  Colored.findSpotForCol g x = Normal (Some y) →
  threw (Colored.handleClick g x) = false.
Proof.
  intros Hinv Hgo Hy Hx Hfind.
  destruct (ColoredFacts.handleClick_drop_c g x y Hinv Hgo Hy Hfind)
    as [_ Hin].
  destruct (Hin Hx) as (won & _ & ->).
  destruct won; [done|]. by destruct (boardFull _).
Qed.

End TransportFacts.

(** X14. A click on Start in the Player variant, on a new game or in any
    state an event can find, leaves a game in progress with player 0 to move,
    the same dimensions, a board of [height] rows of [width] cells that are
    all [undefined] and a table without pieces.  When there was a board to
    reset, or the game is new, the players are exactly two new objects with
    the colors of the two inputs; with no rows to build (a height of 0 or
    less) the two new players are added behind the old ones, which stay
    the active ones. *)
Theorem X14_start_makes_players_and_board (g : Colored.Game)
    (c1 c2 : string) :
  (∃ h w, g = Colored.newGame h w) ∨ ColoredSpec.reachableC g →
  let g' := Colored.startClick g c1 c2 in
  let new := [mkPlayer (Colored.nextOid g) c1;
              mkPlayer (S (Colored.nextOid g)) c2] in
  ColoredSpec.invC g' ∧
  Colored.height g' = Colored.height g ∧
  Colored.width g' = Colored.width g ∧
  Colored.gameOver g' = false ∧
  Colored.currPlayer g' = 0 ∧
  Colored.board g' =
    replicate (Z.to_nat (Colored.height g)) (arrayFrom (Colored.width g)) ∧
  (∀ y x, in_grid (Colored.height g) (Colored.width g) y x →
          Colored.html g' !! (y, x) = Some []) ∧
  (((∃ h w, g = Colored.newGame h w) ∨ Colored.board g ≠ []) →
   Colored.players g' = new) ∧
  (ColoredSpec.reachableC g → Colored.board g = [] →
   Colored.players g' = Colored.players g ++ new ∧
   Colored.players g' !! 0%nat = Colored.players g !! 0%nat ∧
   Colored.players g' !! 1%nat = Colored.players g !! 1%nat).
Proof.
  intros Hg g' new.
  assert (Hinv : ColoredSpec.invC g').
  { apply ColoredFacts.startClick_inv_c.
    destruct Hg as [?|Hr]; [by left|right; by apply ColoredFacts.reachable_inv_c]. }
  split; [done|].
  assert (Hfresh : (∃ h w, g = Colored.newGame h w) ∨ Colored.board g ≠ [] →
            g' = ColoredGame.freshStateC (Colored.height g) (Colored.width g)
                   (Colored.nextOid g) c1 c2)
    by apply ColoredGameInv.startClick_freshStateC.
  assert (Hcase : ((∃ h w, g = Colored.newGame h w) ∨ Colored.board g ≠ []) ∨
                  (ColoredSpec.reachableC g ∧ Colored.board g = [])).
  { destruct Hg as [?|Hr]; [left; by left|].
    destruct (Colored.board g); [right; done|left; right; done]. }
  destruct Hcase as [Hf|[Hr Hnil]].
  - rewrite (Hfresh Hf). simpl.
    split; [done|]. split; [done|]. split; [done|]. split; [done|].
    split; [apply makeBoard_replicate|].
    split; [apply NumericGameFacts.makeHtmlBoard_fresh|].
    split; [done|]. intros Hr Hnil.
    destruct Hf as [(h & w & ->)|Hne]; [|by destruct Hne].
    destruct (ColoredFacts.reachable_inv_c _ Hr)
      as (_ & _ & p0 & p1 & (H0 & _) & _).
    discriminate.
  - pose proof (ColoredFacts.reachable_inv_c g Hr) as Hinvg.
    assert (Hg' : g' = Colored.set_players g (Colored.players g ++ new)
                         (S (S (Colored.nextOid g))))
      by by apply ColoredGameInv.startClick_no_board_c.
    rewrite Hg'. simpl.
    pose proof Hinvg as ((Hrows & _) & _ & p0 & p1 & (H0 & H1 & _) & _).
    unfold rows_ok in Hrows. rewrite Hnil in Hrows. simpl in Hrows.
    destruct (Transport.reachableC_corr g Hr) as (gn & Hrn & Hcorr).
    pose proof Hcorr as (Hh & Hw & Hgo & Hcp & _).
    assert (Hover : Colored.gameOver g = false).
    { destruct (Colored.gameOver g) eqn:E; [|done].
      destruct (NumericGameInv.reachable_over_for_cause gn Hrn)
        as [(y & x & d & Hrun)|(_ & Hh' & _)]; [congruence| |lia].
      destruct (Hrun 0 ltac:(lia)) as [[Hy _] _]. lia. }
    assert (Hturn : Colored.currPlayer g = 0).
    { destruct (ColoredCount.reachable_turn_counted g Hr)
        as (q0 & q1 & _ & Hcount).
      rewrite Hover in Hcount.
      rewrite !countCells_none in Hcount; [lia|..];
        intros y x [Hy _]; lia. }
    split; [done|]. split; [done|]. split; [done|]. split; [done|].
    split; [by replace (Z.to_nat (Colored.height g)) with 0%nat by lia|].
    split; [intros y x [Hy _]; lia|].
    split; [intros [(h & w & ->)|Hne]; [done|by destruct Hne]|].
    intros _ _. split; [done|].
    rewrite !lookup_app_l by (by eapply lookup_lt_Some). done.
Qed.

(** X15. In every state of the Player variant an event can find no piece
    floats: at every key, on or off the grid, every row below an occupied
    cell is occupied. *)
Theorem X15_pieces_are_stacked_in_colors (g : Colored.Game) :
  ColoredSpec.reachableC g →
  ∀ y y' x, 0 ≤ y → y < y' < Colored.height g →
            ¬ empty (Colored.board g) y x → ¬ empty (Colored.board g) y' x.
Proof.
  intros Hr y y' x Hy Hy' He.
  destruct (Transport.reachableC_corr g Hr) as (gn & Hrn & Hcorr).
  destruct (TransportFacts.corr_view gn g Hcorr) as (p0 & p1 & H2 & Hcells & _).
  destruct Hcorr as (Hh & _).
  rewrite <- (Transport.corr_empty gn g p0 p1 Hcells) in *.
  apply (NumericGameInv.reachable_stacked gn Hrn y y' x); [done|lia|done].
Qed.

(** X16. In every state of the Player variant an event can find, the game
    is over exactly when the active player object fills some run of four
    on the grid or the board has cells and none of them is Empty. *)
Theorem X16_over_iff_won_or_full_in_colors (g : Colored.Game) :
  ColoredSpec.reachableC g →
  Colored.gameOver g = true ↔
  (∃ y x d, winning (Colored.height g) (Colored.width g) (Colored.board g)
              (Colored.activePlayer g) y x d) ∨
  (full (Colored.height g) (Colored.width g) (Colored.board g) ∧
   0 < Colored.height g ∧ 0 < Colored.width g).
Proof.
  intros Hr.
  destruct (Transport.reachableC_corr g Hr) as (gn & Hrn & Hcorr).
  rewrite <- (TransportFacts.corr_has_run gn g Hcorr).
  rewrite <- (TransportFacts.corr_full gn g Hcorr).
  destruct Hcorr as (<- & <- & <- & _). split.
  - by apply NumericGameInv.reachable_over_for_cause.
  - intros [Hrun|(Hfull & Hh & Hw)].
    + by apply (NumericGameInv.reachable_runs_settled gn Hrn) in Hrun as [? _].
    + destruct (Numeric.gameOver gn) eqn:Hgo; [done|].
      destruct (NumericGameInv.reachable_has_room gn Hrn Hgo Hh Hw)
        as (y & x & Hg & He).
      unfold empty in He. rewrite (Hfull y x Hg) in He. discriminate.
Qed.

(** X17. A game of the Player variant in progress on a board with cells is
    never stuck: some column of the grid has an Empty cell,
    [findSpotForCol] returns its lowest one, and a click there places the
    active player object on it without raising. *)
Theorem X17_game_in_progress_has_a_move_in_colors (g : Colored.Game) :
  ColoredSpec.reachableC g →
  Colored.gameOver g = false →
  0 < Colored.height g → 0 < Colored.width g →
  ∃ x y, 0 ≤ x < Colored.width g ∧
         ColoredGame.landsC g y x ∧
         Colored.findSpotForCol g x = Normal (Some y) ∧
         threw (Colored.handleClick g x) = false ∧
         cell (Colored.board (final (Colored.handleClick g x))) y x =
           Colored.activePlayer g.
Proof.
  intros Hr Hgo Hh Hw.
  pose proof (ColoredFacts.reachable_inv_c g Hr) as Hinv.
  pose proof Hinv as (Hwf & _).
  destruct (Transport.reachableC_corr g Hr) as (gn & Hrn & Hcorr).
  destruct (TransportFacts.corr_view gn g Hcorr) as (p0 & p1 & H2 & Hcells & _).
  pose proof Hcorr as (Hhn & Hwn & Hgn & _).
  destruct (NumericGameInv.reachable_has_room gn Hrn)
    as (y0 & x & [Hy0 Hx] & He); [congruence|lia|lia|].
  rewrite (Transport.corr_empty gn g p0 p1 Hcells) in He.
  rewrite Hhn in Hy0. rewrite Hwn in Hx.
  destruct (findSpotForCol_spec (Colored.height g) (Colored.board g) x
              (proj1 Hwf)) as ([y|] & Hfind & Hspec).
  2:{ unfold empty in He. rewrite (Hspec y0 Hy0) in He. discriminate. }
  exists x, y. split; [done|].
  split; [by apply ColoredGameInv.findSpotForCol_lands_c|].
  split; [done|]. destruct Hspec as (Hy & _).
  split; [by apply (TransportFacts.handleClick_threw_c g x y)|].
  rewrite (ColoredFacts.handleClick_board_c g x y Hinv Hgo Hy Hfind).
  rewrite (ColoredFacts.placed_cell_c g y x y x Hwf Hy).
  by rewrite decide_True.
Qed.

(** ** The further properties at concrete games *)

Lemma freshGame_reachable : NumericSpec.reachable freshGame.
Proof. exact (NumericSpec.reach_start 6 7). Qed.

Lemma afterOneMove_reachable : NumericSpec.reachable afterOneMove.
Proof. exact (NumericSpec.reach_click _ 0 freshGame_reachable). Qed.

Lemma wonGame_reachable : NumericSpec.reachable wonGame.
Proof.
  exact (NumericSpec.reach_click _ 0
          (NumericSpec.reach_click _ 1
            (NumericSpec.reach_click _ 0
              (NumericSpec.reach_click _ 1
                (NumericSpec.reach_click _ 0
                  (NumericSpec.reach_click _ 1 afterOneMove_reachable)))))).
Qed.

Lemma freshGameC_reachable : ColoredSpec.reachableC freshGameC.
Proof. exact (ColoredSpec.reachC_start 6 7 "red" "blue"). Qed.

Lemma wonGameC_reachable : ColoredSpec.reachableC wonGameC.
Proof.
  exact (ColoredSpec.reachC_click _ 0
          (ColoredSpec.reachC_click _ 1
            (ColoredSpec.reachC_click _ 0
              (ColoredSpec.reachC_click _ 1
                (ColoredSpec.reachC_click _ 0
                  (ColoredSpec.reachC_click _ 1
                    (ColoredSpec.reachC_click _ 0 freshGameC_reachable))))))).
Qed.

Lemma X1_start_builds_empty_board_witness :
  Numeric.gameOver (Numeric.startClick wonGame) = false ∧
  Numeric.currPlayer (Numeric.startClick wonGame) = Numeric.currPlayer wonGame.
Proof.
  pose proof (X1_start_builds_empty_board wonGame
                (or_intror wonGame_reachable)) as H.
  cbv zeta in H. destruct H as (_ & _ & _ & _ & Hgo & _ & _ & Hc). by split.
Defined.

Lemma X2_table_shows_board_witness :
  Numeric.html wonGame !! (5, 0) =
  Some (NumericGame.pieceOf (cell (Numeric.board wonGame) 5 0)).
Proof.
  apply (X2_table_shows_board wonGame wonGame_reachable 5 0).
  by vm_compute.
Defined.

Lemma X3_pieces_are_stacked_witness :
  (2 < 3 < Numeric.height wonGame ∧ ¬ empty (Numeric.board wonGame) 2 0) ∧
  ¬ empty (Numeric.board wonGame) 3 0.
Proof.
  assert (Hrows : 2 < 3 < Numeric.height wonGame) by by vm_compute.
  assert (Hheld : ¬ empty (Numeric.board wonGame) 2 0) by by vm_compute.
  split; [done|].
  apply (X3_pieces_are_stacked wonGame wonGame_reachable 2 3 0);
    [lia|exact Hrows|exact Hheld].
Defined.

Lemma X4_runs_go_through_last_move_witness :
  NumericSpec.reachable wonGame ∧
  (∀ p, NumericSpec.has_run (Numeric.height wonGame) (Numeric.width wonGame)
          (Numeric.board wonGame) p →
        Numeric.gameOver wonGame = true ∧ p = Numeric.currPlayer wonGame).
Proof.
  split; [exact wonGame_reachable|].
  apply (X4_runs_go_through_last_move wonGame), wonGame_reachable.
Defined.

Lemma X5_over_iff_won_or_full_witness :
  Numeric.gameOver wonGame = true ↔
  NumericSpec.has_run (Numeric.height wonGame) (Numeric.width wonGame)
    (Numeric.board wonGame) (Numeric.currPlayer wonGame) ∨
  (full (Numeric.height wonGame) (Numeric.width wonGame)
     (Numeric.board wonGame) ∧
   0 < Numeric.height wonGame ∧ 0 < Numeric.width wonGame).
Proof. apply (X5_over_iff_won_or_full wonGame), wonGame_reachable. Defined.

Lemma X6_game_in_progress_has_a_move_witness :
  ∃ x y, 0 ≤ x < Numeric.width afterOneMove ∧
         NumericGame.lands afterOneMove y x ∧
         Numeric.findSpotForCol afterOneMove x = Normal (Some y) ∧
         threw (Numeric.handleClick afterOneMove x) = false ∧
         cell (Numeric.board (final (Numeric.handleClick afterOneMove x))) y x =
           VNum (Numeric.currPlayer afterOneMove).
Proof.
  apply (X6_game_in_progress_has_a_move afterOneMove).
  - apply afterOneMove_reachable.
  - by vm_compute.
  - by vm_compute.
  - by vm_compute.
Defined.

Lemma X7_win_needs_four_in_a_line_witness :
  Shared.checkForWin 6 7 (Numeric.board wonGame) (VNum 1) = Normal true ∧
  ((4 ≤ 7 ∧ 1 ≤ 6) ∨ (4 ≤ 6 ∧ 1 ≤ 7)).
Proof.
  assert (Hwon : Shared.checkForWin 6 7 (Numeric.board wonGame) (VNum 1) =
                 Normal true) by by vm_compute.
  split; [exact Hwon|].
  apply (proj1 X7_win_needs_four_in_a_line 6 7 (Numeric.board wonGame)
           (VNum 1)); [by vm_compute|exact Hwon].
Defined.

Lemma X10_off_grid_clicks_leave_no_trace_witness :
  NumericGame.same_play
    (Numeric.play freshGame [7; 0; -1; 1])
    (Numeric.play freshGame
       (NumericGame.validClicks (Numeric.width freshGame) [7; 0; -1; 1])).
Proof.
  apply (X10_off_grid_clicks_leave_no_trace freshGame), freshGame_reachable.
Defined.

Lemma X11_table_shows_board_in_colors_witness :
  Colored.html wonGameC !! (5, 1) =
  Some (ColoredGame.pieceOfC (cell (Colored.board wonGameC) 5 1)).
Proof.
  apply (X11_table_shows_board_in_colors wonGameC wonGameC_reachable 5 1).
  by vm_compute.
Defined.

Lemma X12_turn_agrees_with_piece_counts_witness :
  ∃ p0 p1,
    ColoredSpec.two_players wonGameC p0 p1 ∧
    Z.of_nat (countCells (Colored.height wonGameC) (Colored.width wonGameC)
                (Colored.board wonGameC) (VObj p0)) =
    Z.of_nat (countCells (Colored.height wonGameC) (Colored.width wonGameC)
                (Colored.board wonGameC) (VObj p1)) +
    (if Colored.gameOver wonGameC then 1 - Colored.currPlayer wonGameC
     else Colored.currPlayer wonGameC).
Proof.
  apply (X12_turn_agrees_with_piece_counts wonGameC), wonGameC_reachable.
Defined.

Lemma X14_start_makes_players_and_board_witness :
  Colored.players (Colored.startClick wonGameC "green" "green") =
  [mkPlayer (Colored.nextOid wonGameC) "green";
   mkPlayer (S (Colored.nextOid wonGameC)) "green"].
Proof.
  pose proof (X14_start_makes_players_and_board wonGameC "green" "green"
                (or_intror wonGameC_reachable)) as H.
  cbv zeta in H. destruct H as (_ & _ & _ & _ & _ & _ & _ & Hnew & _).
  apply Hnew. right. by vm_compute.
Defined.

Lemma X15_pieces_are_stacked_in_colors_witness :
  (2 < 3 < Colored.height wonGameC ∧ ¬ empty (Colored.board wonGameC) 2 0) ∧
  ¬ empty (Colored.board wonGameC) 3 0.
Proof.
  assert (Hrows : 2 < 3 < Colored.height wonGameC) by by vm_compute.
  assert (Hheld : ¬ empty (Colored.board wonGameC) 2 0) by by vm_compute.
  split; [done|].
  apply (X15_pieces_are_stacked_in_colors wonGameC wonGameC_reachable 2 3 0);
    [lia|exact Hrows|exact Hheld].
Defined.

Lemma X16_over_iff_won_or_full_in_colors_witness :
  Colored.gameOver wonGameC = true ↔
  (∃ y x d, winning (Colored.height wonGameC) (Colored.width wonGameC)
              (Colored.board wonGameC) (Colored.activePlayer wonGameC) y x d) ∨
  (full (Colored.height wonGameC) (Colored.width wonGameC)
     (Colored.board wonGameC) ∧
   0 < Colored.height wonGameC ∧ 0 < Colored.width wonGameC).
Proof.
  apply (X16_over_iff_won_or_full_in_colors wonGameC), wonGameC_reachable.
Defined.

Lemma X17_game_in_progress_has_a_move_in_colors_witness :
  ∃ x y, 0 ≤ x < Colored.width freshGameC ∧
         ColoredGame.landsC freshGameC y x ∧
         Colored.findSpotForCol freshGameC x = Normal (Some y) ∧
         threw (Colored.handleClick freshGameC x) = false ∧
         cell (Colored.board (final (Colored.handleClick freshGameC x))) y x =
           Colored.activePlayer freshGameC.
Proof.
  apply (X17_game_in_progress_has_a_move_in_colors freshGameC).
  - apply freshGameC_reachable.
  - by vm_compute.
  - by vm_compute.
  - by vm_compute.
Defined.
